(** * A shallow embedding of [vector<T>] (src/vector.h)

    The container is a record of three fields ([data_], [size_],
    [capacity_]) over an explicit heap of element buffers.  Every member
    function of the header is a state transformer over that heap; the
    element kind [T] is a parameter that supplies a copy constructor, a copy
    assignment and a destructor, each acting on a "world" [W] (for the test
    kind [counted<T>] of src/main.cpp: the live-instance counter and the
    throw countdown).

    Conventions of the model:
    - [size_t] is a [Z] reduced modulo [2 ^ 64] wherever the source computes;
    - a buffer obtained from [operator new] is a list of slots, one per
      element that fits into the bytes asked for, each either raw ([None])
      or holding a live element ([Some x]); the byte count is the [size_t]
      product the source computes, wrap-around included; the store is
      unbounded, so the allocation itself always succeeds;
    - dereferencing outside a buffer, reading a raw slot, or destroying a
      raw slot is undefined behaviour and stops the run with [Fault];
    - [assert] stops the run with [Fault AssertionFailed];
    - the member functions call the overloads of [destroy_all] and
      [copy_construct_all] selected for element kinds that are not trivially
      destructible / copyable; the overloads for trivial kinds are embedded
      beside them. *)

From Stdlib Require Import ZArith Lia String.
From stdpp Require Import base option list gmap.

Local Open Scope Z_scope.

(** ** Machine words and pointers *)

Definition size_bits : Z := 64.
Definition wrap (z : Z) : Z := z mod 2 ^ size_bits.

(** [T*]: a null pointer or the start of the buffer number [b]. *)
Inductive pointer : Type :=
| nullptr
| Block (b : nat).

(** A pointer into a buffer ([iterator], [const_iterator], [T&]): the buffer
    and the offset in elements. *)
Record iterator : Type := Iter { it_block : pointer; it_index : Z }.

Definition it_add (p : iterator) (k : Z) : iterator :=
  Iter (it_block p) (it_index p + k).

#[global] Instance pointer_eq_dec : EqDecision pointer.
Proof. solve_decision. Defined.

#[global] Instance iterator_eq_dec : EqDecision iterator.
Proof. solve_decision. Defined.

(** ** The element kind *)

(** What [vector<T>] consumes from [T]: the world [W] its special member
    functions act on, the type [E] of what they throw, and the functions.
    A copy reproduces the value of its source, so only its effect on the
    world and whether it throws are left to the kind: [Some e] means that
    the operation throws [e].  [element_size] is [sizeof(T)], in bytes. *)
Class ElementKind (T : Type) : Type := {
  element_size : positive;
  W : Type;
  E : Type;
  copy_constructor : T -> W -> W * option E;
  copy_assignment : T -> W -> W * option E;
  destructor : T -> W -> W
}.

(** The three fields of [struct vector]. *)
Record vector : Type := Vec { data_ : pointer; size_ : Z; capacity_ : Z }.

(** [vector<T>::vector()] *)
Definition vector_ctor : vector := Vec nullptr 0 0.

(** [vector<T>::swap] exchanges the three fields. *)
Definition swap (this other : vector) : vector * vector :=
  (Vec (data_ other) (size_ other) (capacity_ other),
   Vec (data_ this) (size_ this) (capacity_ this)).

(** [vector<T>::increase_capacity] *)
Definition increase_capacity (this : vector) : Z :=
  if capacity_ this =? 0 then 4 else wrap (capacity_ this * 3) / 2.

Definition begin_ (this : vector) : iterator := Iter (data_ this) 0.
Definition end_ (this : vector) : iterator := Iter (data_ this) (size_ this).

(** [vector<T>::size], [capacity], [empty], [data] *)
Definition size (this : vector) : Z := size_ this.
Definition capacity (this : vector) : Z := capacity_ this.
Definition empty (this : vector) : bool := size_ this =? 0.
Definition data (this : vector) : pointer := data_ this.

Inductive fault : Type :=
| UndefinedBehaviour
| AssertionFailed.

Declare Scope vec_scope.

Section Vector.

Context {T : Type} `{K : ElementKind T}.

(** [sizeof(T)] *)
Definition sizeof : Z := Z.pos element_size.

(** [fits n]: the byte size of [n] elements, [n * sizeof(T)], is a
    [size_t]. *)
Definition fits (n : Z) : Prop := n * sizeof < 2 ^ size_bits.

(** ** Memory *)

Record memory : Type := Mem {
  heap : gmap nat (list (option T));
  fresh : nat;
  world : W
}.

(** A [T const&] argument: a temporary of the caller, or an element that
    lives in some buffer. *)
Inductive const_ref : Type :=
| Value (x : T)
| Elem (p : iterator).

(** ** Outcomes and sequencing *)

Inductive outcome (S A : Type) : Type :=
| Ret (a : A) (s : S)
| Throw (e : E) (s : S)
| Fault (f : fault)
| OutOfFuel.

Arguments Ret {S A} a s.
Arguments Throw {S A} e s.
Arguments Fault {S A} f.
Arguments OutOfFuel {S A}.

Definition M (S A : Type) : Type := S -> outcome S A.

Definition ret {S A} (a : A) : M S A := fun s => Ret a s.

Definition bind {S A B} (m : M S A) (k : A -> M S B) : M S B :=
  fun s =>
    match m s with
    | Ret a s' => k a s'
    | Throw e s' => Throw e s'
    | Fault f => Fault f
    | OutOfFuel => OutOfFuel
    end.

Definition fail {S A} (f : fault) : M S A := fun _ => Fault f.

Definition assert {S} (b : bool) : M S unit :=
  if b then ret tt else fail AssertionFailed.

(** Runs [m] on the second component of the state: a statement of a member
    function that touches the heap only, or a statement of a scope that
    does not touch the scope's local. *)
Definition under {X S A} (m : M S A) : M (X * S) A :=
  fun xs =>
    match m (snd xs) with
    | Ret a s' => Ret a (fst xs, s')
    | Throw e s' => Throw e (fst xs, s')
    | Fault f => Fault f
    | OutOfFuel => OutOfFuel
    end.

Notation "x ← y ; z" := (bind y (fun x => z))
  (at level 20, y at level 100, z at level 200, only parsing) : vec_scope.
Notation "x ;; z" := (bind x (fun _ => z))
  (at level 100, z at level 200, only parsing, right associativity) : vec_scope.
Local Open Scope vec_scope.

(** ** Element-level operations on the heap *)

(** The slot [p] points to, when [p] points into an allocated buffer. *)
Definition slot (m : memory) (p : iterator) : option (option T) :=
  match it_block p with
  | nullptr => None
  | Block b =>
      match heap m !! b with
      | Some cells =>
          if decide (0 <= it_index p < Z.of_nat (length cells))
          then cells !! Z.to_nat (it_index p)
          else None
      | None => None
      end
  end.

Definition set_slot (m : memory) (p : iterator) (c : option T) : memory :=
  match it_block p with
  | nullptr => m
  | Block b =>
      match heap m !! b with
      | Some cells =>
          Mem (<[b := <[Z.to_nat (it_index p) := c]> cells]> (heap m))
              (fresh m) (world m)
      | None => m
      end
  end.

Definition set_world (m : memory) (w : W) : memory :=
  Mem (heap m) (fresh m) w.

(** [*p] read as an rvalue: the element must be live. *)
Definition load (p : iterator) : M memory T :=
  fun m =>
    match slot m p with
    | Some (Some x) => Ret x m
    | _ => Fault UndefinedBehaviour
    end.

Definition read (r : const_ref) : M memory T :=
  match r with
  | Value x => ret x
  | Elem p => load p
  end.

(** [new (p) T(src)]: the copy constructor runs on the storage at [p]; when
    it throws, no object has been created there. *)
Definition construct_at (p : iterator) (src : const_ref) : M memory unit :=
  x ← read src;
  fun m =>
    match slot m p with
    | Some _ =>
        match copy_constructor x (world m) with
        | (w, Some e) => Throw e (set_world m w)
        | (w, None) => Ret tt (set_slot (set_world m w) p (Some x))
        end
    | None => Fault UndefinedBehaviour
    end.

(** [p->~T()] *)
Definition destroy_at (p : iterator) : M memory unit :=
  x ← load p;
  fun m => Ret tt (set_slot (set_world m (destructor x (world m))) p None).

(** [*p = src] *)
Definition assign (p : iterator) (src : const_ref) : M memory unit :=
  _ ← load p;
  x ← read src;
  fun m =>
    match copy_assignment x (world m) with
    | (w, Some e) => Throw e (set_world m w)
    | (w, None) => Ret tt (set_slot (set_world m w) p (Some x))
    end.

(** A temporary of type [T] on the stack, copy-constructed from [x], alive
    while [body] runs and destroyed when the scope is left, normally or by
    an exception. *)
Definition with_temporary {A} (x : T) (body : M memory A) : M memory A :=
  fun m =>
    match copy_constructor x (world m) with
    | (w, Some e) => Throw e (set_world m w)
    | (w, None) =>
        match body (set_world m w) with
        | Ret a m' => Ret a (set_world m' (destructor x (world m')))
        | Throw e m' => Throw e (set_world m' (destructor x (world m')))
        | Fault f => Fault f
        | OutOfFuel => OutOfFuel
        end
    end.

(** [std::swap] on the elements at [p] and [q], for a kind without move
    operations:
    [T tmp(a); a = b; b = tmp;]. *)
Definition std_swap (p q : iterator) : M memory unit :=
  a ← load p;
  with_temporary a (assign p (Elem q);; assign q (Value a)).

(** [operator new(bytes)]: a new buffer of [bytes] bytes, that is, of as
    many raw slots as elements of [sizeof(T)] bytes fit into it. *)
Definition operator_new (bytes : Z) : M memory pointer :=
  fun m =>
    Ret (Block (fresh m))
        (Mem (<[fresh m := replicate (Z.to_nat (bytes / sizeof)) None]> (heap m))
             (S (fresh m)) (world m)).

(** [operator delete(p)] *)
Definition operator_delete (p : pointer) : M memory unit :=
  fun m =>
    match p with
    | nullptr => Ret tt m
    | Block b =>
        match heap m !! b with
        | Some _ => Ret tt (Mem (delete b (heap m)) (fresh m) (world m))
        | None => Fault UndefinedBehaviour
        end
    end.

(** ** The free helpers of the header *)

(** [destroy_all(data, size)]: [for (i = 0; i != size; i++) data[i].~TT();]
    with [n] the iterations left. *)
Fixpoint destroy_from (data : pointer) (i : Z) (n : nat) : M memory unit :=
  match n with
  | O => ret tt
  | S n' => destroy_at (Iter data i);; destroy_from data (i + 1) n'
  end.

Definition destroy_all (data : pointer) (size : Z) : M memory unit :=
  destroy_from data 0 (Z.to_nat size).

(** The [try] block of [copy_construct_all]: the state carries the loop
    counter [i], which the handler needs. *)
Fixpoint construct_from (dst src : iterator) (n : nat) : M (Z * memory) unit :=
  match n with
  | O => ret tt
  | S n' =>
      fun im =>
        match construct_at (it_add dst (fst im)) (Elem (it_add src (fst im)))
                           (snd im) with
        | Ret _ m' => construct_from dst src n' (fst im + 1, m')
        | Throw e m' => Throw e (fst im, m')
        | Fault f => Fault f
        | OutOfFuel => OutOfFuel
        end
  end.

(** The handler: [while (i != 0) { dst[i - 1].~TT(); --i; }] with [n] the
    iterations left. *)
Fixpoint unwind (dst : iterator) (i : Z) (n : nat) : M memory unit :=
  match n with
  | O => ret tt
  | S n' => destroy_at (it_add dst (i - 1));; unwind dst (i - 1) n'
  end.

(** [copy_construct_all(dst, src, size)] *)
Definition copy_construct_all (dst src : iterator) (size : Z) : M memory unit :=
  fun m =>
    match construct_from dst src (Z.to_nat size) (0, m) with
    | Ret _ im => Ret tt (snd im)
    | Throw e im =>
        match unwind dst (fst im) (Z.to_nat (fst im)) (snd im) with
        | Ret _ m' => Throw e m'
        | Throw e' m' => Throw e' m'
        | Fault f => Fault f
        | OutOfFuel => OutOfFuel
        end
    | Fault f => Fault f
    | OutOfFuel => OutOfFuel
    end.

(** ** The overloads for trivial element types *)

(** [destroy_all] for a trivially destructible [TT]: the body is empty. *)
Definition destroy_all_trivial (data : pointer) (size : Z) : M memory unit :=
  ret tt.

(** [memcpy(dst, src, n * sizeof(TT))] on element buffers: both ranges have
    to lie inside allocated buffers and must not overlap; the [n] slots are
    copied as they are. *)
Definition memcpy (dst src : iterator) (n : Z) : M memory unit :=
  fun m =>
    match it_block dst, it_block src with
    | Block bd, Block bs =>
        match heap m !! bd, heap m !! bs with
        | Some dcells, Some scells =>
            if decide (0 <= n /\
                       0 <= it_index dst /\
                       it_index dst + n <= Z.of_nat (length dcells) /\
                       0 <= it_index src /\
                       it_index src + n <= Z.of_nat (length scells) /\
                       (bd = bs -> it_index dst + n <= it_index src \/
                                   it_index src + n <= it_index dst))
            then Ret tt (Mem (<[bd := take (Z.to_nat (it_index dst)) dcells ++
                                      take (Z.to_nat n)
                                           (drop (Z.to_nat (it_index src)) scells) ++
                                      drop (Z.to_nat (it_index dst + n)) dcells]>
                                (heap m))
                             (fresh m) (world m))
            else Fault UndefinedBehaviour
        | _, _ => Fault UndefinedBehaviour
        end
    | _, _ => Fault UndefinedBehaviour
    end.

(** [copy_construct_all] for a trivially copyable [TT]:
    [if (size != 0) memcpy(dst, src, size * sizeof(TT));] *)
Definition copy_construct_all_trivial (dst src : iterator) (size : Z) :
    M memory unit :=
  if decide (size <> 0) then memcpy dst src size else ret tt.

(** ** Member functions

    A member function runs on the pair of [*this] and the memory.  Inside a
    scope that declares a local vector ([tmp], [copy]) the state is the
    local, [*this] and the memory; when an exception leaves the function,
    [*this] is what the function had made of it by then. *)

Abbreviation Method := (M (vector * memory)).
Abbreviation Scope := (M (vector * (vector * memory))).

Definition this : Method vector := fun s => Ret (fst s) s.

Definition set_data_ (p : pointer) : Method unit :=
  fun s => Ret tt (Vec p (size_ (fst s)) (capacity_ (fst s)), snd s).

Definition set_size_ (n : Z) : Method unit :=
  fun s => Ret tt (Vec (data_ (fst s)) n (capacity_ (fst s)), snd s).

Definition set_capacity_ (n : Z) : Method unit :=
  fun s => Ret tt (Vec (data_ (fst s)) (size_ (fst s)) n, snd s).

(** A call of a member function on the local of the scope. *)
Definition on_local {A} (m : Method A) : Scope A :=
  fun s =>
    match m (fst s, snd (snd s)) with
    | Ret a s' => Ret a (fst s', (fst (snd s), snd s'))
    | Throw e s' => Throw e (fst s', (fst (snd s), snd s'))
    | Fault f => Fault f
    | OutOfFuel => OutOfFuel
    end.

(** [swap(tmp)] inside the scope of [tmp]. *)
Definition swap_local : Scope unit :=
  fun s =>
    Ret tt (snd (swap (fst (snd s)) (fst s)),
            (fst (swap (fst (snd s)) (fst s)), snd (snd s))).

(** [vector<T>::~vector] *)
Definition vector_dtor (v : vector) : M memory unit :=
  destroy_all (data_ v) (size_ v);;
  operator_delete (data_ v).

(** A scope with one local vector, initialised by [init]; the local is
    destroyed when the scope is left, normally or by an exception. *)
Definition with_local {A} (init : M memory vector) (body : Scope A) : Method A :=
  fun s =>
    match init (snd s) with
    | Ret tmp m =>
        match body (tmp, (fst s, m)) with
        | Ret a s' =>
            match vector_dtor (fst s') (snd (snd s')) with
            | Ret _ m' => Ret a (fst (snd s'), m')
            | Throw e m' => Throw e (fst (snd s'), m')
            | Fault f => Fault f
            | OutOfFuel => OutOfFuel
            end
        | Throw e s' =>
            match vector_dtor (fst s') (snd (snd s')) with
            | Ret _ m' => Throw e (fst (snd s'), m')
            | Throw e' m' => Throw e' (fst (snd s'), m')
            | Fault f => Fault f
            | OutOfFuel => OutOfFuel
            end
        | Fault f => Fault f
        | OutOfFuel => OutOfFuel
        end
    | Throw e m => Throw e (fst s, m)
    | Fault f => Fault f
    | OutOfFuel => OutOfFuel
    end.

(** [p - q] on pointers: defined inside one buffer only. *)
Definition ptr_diff {S} (p q : iterator) : M S Z :=
  if decide (it_block p = it_block q)
  then ret (it_index p - it_index q)
  else fail UndefinedBehaviour.

(** [vector<T>::new_buffer] *)
Definition new_buffer (new_capacity : Z) : Method unit :=
  self ← this;
  assert (new_capacity >=? size_ self);;
  with_local (ret vector_ctor)
    (p ← under (under (operator_new (wrap (new_capacity * sizeof))));
     on_local (set_data_ p);;
     on_local (set_capacity_ new_capacity);;
     tmp ← on_local this;
     self ← under this;
     under (under (copy_construct_all (Iter (data_ tmp) 0) (Iter (data_ self) 0)
                                      (size_ self)));;
     on_local (set_size_ (size_ self));;
     swap_local).

(** [vector<T>::reserve] *)
Definition reserve (desired_capacity : Z) : Method unit :=
  self ← this;
  if decide (desired_capacity < capacity_ self) then ret tt
  else new_buffer desired_capacity.

(** [vector<T>::shrink_to_fit] *)
Definition shrink_to_fit : Method unit :=
  self ← this;
  if decide (capacity_ self = size_ self) then ret tt
  else new_buffer (size_ self).

(** [vector<T>::clear] *)
Definition clear : Method unit :=
  self ← this;
  under (destroy_all (data_ self) (size_ self));;
  set_size_ 0.

(** [vector<T>::operator[]], [front], [back]: the reference returned. *)
Definition subscript (i : Z) : Method iterator :=
  self ← this; ret (Iter (data_ self) i).

Definition front : Method iterator :=
  self ← this; ret (Iter (data_ self) 0).

Definition back : Method iterator :=
  self ← this; ret (Iter (data_ self) (wrap (size_ self - 1))).

(** [vector<T>::push_back_realloc], with the [push_back] it calls on [tmp]
    as a parameter. *)
Definition push_back_realloc (push_back : const_ref -> Method unit)
    (val : const_ref) : Method unit :=
  with_local (ret vector_ctor)
    (self ← under this;
     on_local (new_buffer (increase_capacity self));;
     tmp ← on_local this;
     under (under (copy_construct_all (Iter (data_ tmp) 0) (Iter (data_ self) 0)
                                      (size_ self)));;
     on_local (set_size_ (size_ self));;
     on_local (push_back val);;
     swap_local).

(** [vector<T>::push_back]; a call costs one unit of [fuel]. *)
Fixpoint push_back (fuel : nat) (val : const_ref) : Method unit :=
  match fuel with
  | O => fun _ => OutOfFuel
  | S fuel' =>
      self ← this;
      if decide (size_ self ≠ capacity_ self) then
        under (construct_at (Iter (data_ self) (size_ self)) val);;
        set_size_ (wrap (size_ self + 1))
      else push_back_realloc (push_back fuel') val
  end.

(** [vector<T>::pop_back] *)
Definition pop_back : Method unit :=
  self ← this;
  assert (negb (size_ self =? 0));;
  under (destroy_at (Iter (data_ self) (wrap (size_ self - 1))));;
  set_size_ (wrap (size_ self - 1)).

(** The loop of [insert]:
    [for (i = end() - 1; i != pos; --i) swap(i[0], i[-1]);] *)
Fixpoint insert_shift (fuel : nat) (i pos : iterator) : Method unit :=
  match fuel with
  | O => fun _ => OutOfFuel
  | S fuel' =>
      if decide (i ≠ pos) then
        under (std_swap i (it_add i (-1)));;
        insert_shift fuel' (it_add i (-1)) pos
      else ret tt
  end.

(** [vector<T>::insert(iterator, T const&)] *)
Definition insert (fuel : nat) (pos : iterator) (val : const_ref) : Method iterator :=
  self ← this;
  if decide (size_ self = capacity_ self) then
    with_local (ret vector_ctor)
      (self ← under this;
       on_local (new_buffer (increase_capacity self));;
       tmp ← on_local this;
       k ← ptr_diff pos (begin_ self);
       under (under (copy_construct_all (Iter (data_ tmp) 0) (Iter (data_ self) 0)
                                        (wrap k)));;
       on_local (set_size_ (wrap k));;
       tmp ← on_local this;
       let result := end_ tmp in
       on_local (push_back fuel val);;
       tmp ← on_local this;
       n ← ptr_diff (end_ self) pos;
       under (under (copy_construct_all (end_ tmp) pos (wrap n)));;
       on_local (set_size_ (wrap (size_ tmp + wrap n)));;
       swap_local;;
       ret result)
  else
    last ← back;
    push_back fuel (Elem last);;
    self ← this;
    insert_shift fuel (it_add (end_ self) (-1)) pos;;
    under (assign pos val);;
    ret pos.

(** [vector<T>::insert(const_iterator, T const&)] *)
Definition insert_const (fuel : nat) (pos : iterator) (val : const_ref) :
    Method iterator :=
  self ← this;
  k ← ptr_diff pos (Iter (data_ self) 0);
  insert fuel (Iter (data_ self) k) val.

(** The first loop of [erase]:
    [while (last != end()) { swap(first[0], last[0]); ++first; ++last; }] *)
Fixpoint erase_shift (fuel : nat) (first last : iterator) :
    Method (iterator * iterator) :=
  match fuel with
  | O => fun _ => OutOfFuel
  | S fuel' =>
      self ← this;
      if decide (last ≠ end_ self) then
        under (std_swap first last);;
        erase_shift fuel' (it_add first 1) (it_add last 1)
      else ret (first, last)
  end.

(** The second loop of [erase]:
    [while (first != last) { first->~T(); ++first; }] *)
Fixpoint erase_destroy (fuel : nat) (first last : iterator) : Method unit :=
  match fuel with
  | O => fun _ => OutOfFuel
  | S fuel' =>
      if decide (first ≠ last) then
        under (destroy_at first);;
        erase_destroy fuel' (it_add first 1) last
      else ret tt
  end.

(** [vector<T>::erase(iterator, iterator)] *)
Definition erase (fuel : nat) (first last : iterator) : Method iterator :=
  let result := first in
  fl ← erase_shift fuel first last;
  self ← this;
  n ← ptr_diff (fst fl) (Iter (data_ self) 0);
  set_size_ (wrap n);;
  erase_destroy fuel (fst fl) (snd fl);;
  ret result.

(** [vector<T>::erase(iterator)] *)
Definition erase_one (fuel : nat) (pos : iterator) : Method iterator :=
  erase fuel pos (it_add pos 1).

(** [vector<T>::erase(const_iterator)] and
    [vector<T>::erase(const_iterator, const_iterator)] *)
Definition erase_one_const (fuel : nat) (pos : iterator) : Method iterator :=
  self ← this;
  k ← ptr_diff pos (Iter (data_ self) 0);
  erase_one fuel (Iter (data_ self) k).

Definition erase_const (fuel : nat) (first last : iterator) : Method iterator :=
  self ← this;
  f ← ptr_diff first (Iter (data_ self) 0);
  l ← ptr_diff last (Iter (data_ self) 0);
  erase fuel (Iter (data_ self) f) (Iter (data_ self) l).

(** [vector<T>::vector(vector const&)].  The constructor delegates to
    [vector()], so the object counts as constructed when its body starts and
    its destructor runs if the body throws. *)
Definition vector_copy_ctor (other : vector) : M memory vector :=
  fun m =>
    match (new_buffer (size other);;
           self ← this;
           under (copy_construct_all (Iter (data_ self) 0) (Iter (data_ other) 0)
                                     (size_ other));;
           set_size_ (size_ other)) (vector_ctor, m) with
    | Ret _ s => Ret (fst s) (snd s)
    | Throw e s =>
        match vector_dtor (fst s) (snd s) with
        | Ret _ m' => Throw e m'
        | Throw e' m' => Throw e' m'
        | Fault f => Fault f
        | OutOfFuel => OutOfFuel
        end
    | Fault f => Fault f
    | OutOfFuel => OutOfFuel
    end.

(** [vector<T>::operator=] *)
Definition operator_assign (other : vector) : Method unit :=
  with_local (vector_copy_ctor other) swap_local.

(** ** Uses by a caller *)

(** The element read through the reference that [operator[]], [front] or
    [back] returns, as in [EXPECT_EQ(4, a[0])]. *)
Definition deref (p : Method iterator) : Method T :=
  q ← p; under (load q).

(** [for (...) a.push_back(x);] over the values [xs], the loop that fills
    the containers of the tests. *)
Fixpoint push_back_each (fuel : nat) (xs : list T) : Method unit :=
  match xs with
  | [] => ret tt
  | x :: xs' => push_back fuel (Value x);; push_back_each fuel xs'
  end.

(** [{ vector<T> a; body }]: a block that declares a container, runs
    [body] on it and destroys it when the block is left, normally or by an
    exception; the shape of the tests that end with
    [expect_no_instances()]. *)
Definition in_scope {A} (body : Method A) : M memory A :=
  fun m =>
    match body (vector_ctor, m) with
    | Ret a s =>
        match vector_dtor (fst s) (snd s) with
        | Ret _ m' => Ret a m'
        | Throw e m' => Throw e m'
        | Fault f => Fault f
        | OutOfFuel => OutOfFuel
        end
    | Throw e s =>
        match vector_dtor (fst s) (snd s) with
        | Ret _ m' => Throw e m'
        | Throw e' m' => Throw e' m'
        | Fault f => Fault f
        | OutOfFuel => OutOfFuel
        end
    | Fault f => Fault f
    | OutOfFuel => OutOfFuel
    end.

(** ** Vocabulary of the statements *)

(** The slots of a buffer of [cap] slots whose live prefix holds [xs]. *)
Definition buffer (xs : list T) (cap : Z) : list (option T) :=
  (Some <$> xs) ++ replicate (Z.to_nat cap - length xs) None.

(** [holds m v xs]: in memory [m] the container [v] is well formed and its
    elements are [xs], in order: [0 <= size <= capacity], the buffer has
    [capacity] slots, whose byte size is a [size_t], the slots [[0, size)]
    are live, the slots [[size, capacity)] are raw. *)
Definition holds (m : memory) (v : vector) (xs : list T) : Prop :=
  size_ v = Z.of_nat (length xs) /\
  size_ v <= capacity_ v < 2 ^ size_bits /\
  fits (capacity_ v) /\
  match data_ v with
  | nullptr => capacity_ v = 0
  | Block b => (b < fresh m)%nat /\ heap m !! b = Some (buffer xs (capacity_ v))
  end.

(** The heap once the buffer at [p] has been released. *)
Definition without (p : pointer) (h : gmap nat (list (option T))) :
    gmap nat (list (option T)) :=
  match p with
  | nullptr => h
  | Block b => delete b h
  end.

(** The world after copy-constructing each element of [xs] in order, when
    none of the copies throws. *)
Fixpoint copy_each (xs : list T) (w : W) : option W :=
  match xs with
  | [] => Some w
  | x :: xs' =>
      match copy_constructor x w with
      | (w', None) => copy_each xs' w'
      | (_, Some _) => None
      end
  end.

(** The world after destroying each element of [xs] in order. *)
Definition destroy_each (xs : list T) (w : W) : W :=
  fold_left (fun w x => destructor x w) xs w.

(** [P] is a set of worlds in which no operation of the element kind
    throws, closed under these operations. *)
Definition infallible (P : W -> Prop) : Prop :=
  forall x w, P w ->
    (exists w', copy_constructor x w = (w', None) /\ P w') /\
    (exists w', copy_assignment x w = (w', None) /\ P w') /\
    P (destructor x w).

(** The list [xs] with the elements at [i] and [j] exchanged. *)
Definition list_swap (i j : nat) (xs : list T) : list T :=
  match xs !! i, xs !! j with
  | Some a, Some c => <[j := a]> (<[i := c]> xs)
  | _, _ => xs
  end.

(** The elements after [k] rounds of the first loop of [erase], started
    with [first] at offset [f] and [last] at offset [l]. *)
Fixpoint shifted (k f l : nat) (xs : list T) : list T :=
  match k with
  | O => xs
  | S k' => shifted k' (S f) (S l) (list_swap f l xs)
  end.

(** [wp m s Q R]: if [m] returns from the state [s], the value and the
    final state satisfy [Q]; if it throws, the exception and the final state
    satisfy [R]. *)
Definition wp {S A} (m : M S A) (s : S) (Q : A -> S -> Prop)
    (R : E -> S -> Prop) : Prop :=
  match m s with
  | Ret a s' => Q a s'
  | Throw e s' => R e s'
  | Fault _ => True
  | OutOfFuel => True
  end.

(** [kept n p m m']: the buffers numbered below [n], other than the one at
    [p], have in [m'] the content they have in [m], and [m'] numbers new
    buffers from where [m] does or later. *)
Definition kept (n : nat) (p : pointer) (m m' : memory) : Prop :=
  (fresh m <= fresh m')%nat /\
  forall b, (b < n)%nat -> Block b <> p -> heap m' !! b = heap m !! b.

(** [outside n p]: [p] is null or a buffer numbered [n] or above. *)
Definition outside (n : nat) (p : pointer) : Prop :=
  match p with
  | nullptr => True
  | Block b => (n <= b)%nat
  end.

(** [moved n v v']: the container [v'] has the buffer and the capacity of
    [v], or a buffer numbered [n] or above. *)
Definition moved (n : nat) (v v' : vector) : Prop :=
  (data_ v' = data_ v /\ capacity_ v' = capacity_ v) \/
  (exists b, data_ v' = Block b /\ (n <= b)%nat).

(** The guarantee of a member function that builds the new state aside and
    swaps it in, for the buffers numbered below [n]: when it returns, only
    the old buffer of the container may have changed, and the container has
    its old buffer and capacity or a new buffer; when it throws, the
    container and every buffer are as before the call. *)
Definition strongly_safe {A} (n : nat) (op : M (vector * memory) A)
    (v : vector) (m : memory) : Prop :=
  wp op (v, m)
     (fun _ s' => kept n (data_ v) m (snd s') /\ moved (fresh m) v (fst s'))
     (fun _ s' => fst s' = v /\ kept n nullptr m (snd s')).

(** No buffer of [m] is numbered at or above the next fresh number. *)
Definition tidy (m : memory) : Prop :=
  forall b, (fresh m <= b)%nat -> heap m !! b = None.

(** A kind whose copy constructor has no effect and never throws, as the
    implicit one of a trivially copyable type. *)
Definition copies_freely : Prop :=
  forall x w, copy_constructor x w = (w, None).

(** One direction of [data == null iff capacity == 0]. *)
Definition null_only_if_empty (v : vector) : Prop :=
  data_ v = nullptr -> capacity_ v = 0.

(** [live cells i]: slot [i] of the buffer [cells] holds an element. *)
Definition live (cells : list (option T)) (i : nat) : Prop :=
  exists x, cells !! i = Some (Some x).

(** The class invariant, without reference to the elements: the size is at
    most the capacity, the buffer has room for [capacity] elements, whose
    byte size is a [size_t], and every slot below [size] holds an element. *)
Definition well_formed (m : memory) (v : vector) : Prop :=
  0 <= size_ v <= capacity_ v /\
  capacity_ v < 2 ^ size_bits /\
  fits (capacity_ v) /\
  match data_ v with
  | nullptr => capacity_ v = 0
  | Block b =>
      (b < fresh m)%nat /\
      exists cells,
        heap m !! b = Some cells /\
        Z.of_nat (length cells) = capacity_ v /\
        forall i, Z.of_nat i < size_ v -> live cells i
  end.

(** [survives keep m m']: every buffer of [m] is a buffer of [m'], of the
    same length, and the slots selected by [keep] that held an element
    still hold one. *)
Definition survives (keep : nat -> nat -> Prop) (m m' : memory) : Prop :=
  (fresh m <= fresh m')%nat /\
  forall b cells, heap m !! b = Some cells ->
    exists cells',
      heap m' !! b = Some cells' /\
      length cells' = length cells /\
      forall i, keep b i -> live cells i -> live cells' i.

(** ** Programs over several containers *)

(** The public member functions that change a container. *)
Inductive call : Type :=
| call_reserve (n : Z)
| call_shrink_to_fit
| call_clear
| call_push_back (val : const_ref)
| call_pop_back
| call_insert (pos : iterator) (val : const_ref)
| call_erase_one (pos : iterator)
| call_erase (first last : iterator).

Definition run (fuel : nat) (c : call) : Method unit :=
  match c with
  | call_reserve n => reserve n
  | call_shrink_to_fit => shrink_to_fit
  | call_clear => clear
  | call_push_back val => push_back fuel val
  | call_pop_back => pop_back
  | call_insert pos val => insert fuel pos val;; ret tt
  | call_erase_one pos => erase_one fuel pos;; ret tt
  | call_erase first last => erase fuel first last;; ret tt
  end.

(** The argument of [reserve] is a machine word, and the buffers that the
    call may ask for have a byte size that is a [size_t]: the one of
    [reserve(n)] when [n] is not below the capacity, and, for a [push_back]
    or an [insert] that has to grow, generously, three times the capacity
    plus four (which covers the growth step and the one after it). *)
Definition requests_fit (v : vector) (c : call) : Prop :=
  match c with
  | call_reserve n => 0 <= n < 2 ^ size_bits /\ (capacity_ v <= n -> fits n)
  | call_push_back _ | call_insert _ _ =>
      size_ v = capacity_ v -> fits (3 * (capacity_ v + 4))
  | _ => True
  end.

(** The calls that replace the buffer: [reserve], [shrink_to_fit], and
    [push_back] and [insert] when they have to grow. *)
Definition capacity_changing (v : vector) (c : call) : Prop :=
  match c with
  | call_reserve _ | call_shrink_to_fit => True
  | call_push_back _ | call_insert _ _ => size_ v = capacity_ v
  | _ => False
  end.

(** One statement of a program whose variables are the containers [vs]:
    a declaration, a copy construction, a call of a member function, an
    assignment or a swap; a statement that throws leaves what it had done
    by then. *)
Inductive step : list vector * memory -> list vector * memory -> Prop :=
| step_declare vs m :
    step (vs, m) (vs ++ [vector_ctor], m)
| step_copy vs m i v v' m' :
    vs !! i = Some v ->
    vector_copy_ctor v m = Ret v' m' ->
    step (vs, m) (vs ++ [v'], m')
| step_copy_throws vs m i v e m' :
    vs !! i = Some v ->
    vector_copy_ctor v m = Throw e m' ->
    step (vs, m) (vs, m')
| step_call vs m i v fuel c v' m' :
    vs !! i = Some v ->
    run fuel c (v, m) = Ret tt (v', m') ->
    step (vs, m) (<[i := v']> vs, m')
| step_call_throws vs m i v fuel c e v' m' :
    vs !! i = Some v ->
    run fuel c (v, m) = Throw e (v', m') ->
    step (vs, m) (<[i := v']> vs, m')
| step_assign vs m i j v u v' m' :
    vs !! i = Some v ->
    vs !! j = Some u ->
    operator_assign u (v, m) = Ret tt (v', m') ->
    step (vs, m) (<[i := v']> vs, m')
| step_assign_throws vs m i j v u e v' m' :
    vs !! i = Some v ->
    vs !! j = Some u ->
    operator_assign u (v, m) = Throw e (v', m') ->
    step (vs, m) (<[i := v']> vs, m')
| step_swap vs m i j v u :
    vs !! i = Some v ->
    vs !! j = Some u ->
    step (vs, m) (<[j := snd (swap v u)]> (<[i := fst (swap v u)]> vs), m).

(** The states a program reaches from no container and an empty heap. *)
Definition reachable (w0 : W) (s : list vector * memory) : Prop :=
  rtc step ([], Mem ∅ 0%nat w0) s.

End Vector.

Notation "x ← y ; z" := (bind y (fun x => z))
  (at level 20, y at level 100, z at level 200, only parsing) : vec_scope.
Notation "x ;; z" := (bind x (fun _ => z))
  (at level 100, z at level 200, only parsing, right associativity) : vec_scope.

Arguments Ret {T K S A} a s.
Arguments Throw {T K S A} e s.
Arguments Fault {T K S A} f.
Arguments OutOfFuel {T K S A}.
Arguments memory T {K}.
Arguments const_ref T : clear implicits.
Arguments Value {T} x.
Arguments Elem {T} p.

(** ** The element kind of the tests: [counted<T>] (src/main.cpp) *)

Module Counted.

(** The two static counters of [counted<T>]. *)
Record statics : Type := Statics { instances : Z; throw_countdown : Z }.

Inductive exception : Type :=
| runtime_error (what : string).

(** [counted<T>::copy]: the countdown after the call, and whether it threw. *)
Definition copy (w : statics) : statics * option exception :=
  if throw_countdown w =? 0 then (w, None)
  else
    let c := wrap (throw_countdown w - 1) in
    if c =? 0
    then (Statics (instances w) c, Some (runtime_error "copy failed"))
    else (Statics (instances w) c, None).

(** [counted(counted const&)]: [copy(); ++instances();] *)
Definition copy_ctor (w : statics) : statics * option exception :=
  match copy w with
  | (w', Some e) => (w', Some e)
  | (w', None) => (Statics (wrap (instances w' + 1)) (throw_countdown w'), None)
  end.

(** [~counted()]: [--instances();] *)
Definition dtor (w : statics) : statics :=
  Statics (wrap (instances w - 1)) (throw_countdown w).

(** [sizeof(V)] for the type [V] of the field [val], the only non-static
    member of [counted<V>]. *)
Class SizeOf (V : Type) : Type := size_of : positive.

(** [size_t] *)
#[global] Instance size_t_size : SizeOf Z := 8%positive.

#[global] Instance kind (V : Type) `{SizeOf V} : ElementKind V := {
  element_size := size_of;
  W := statics;
  E := exception;
  copy_constructor := fun _ => copy_ctor;
  copy_assignment := fun _ => copy;
  destructor := fun _ => dtor
}.

(** The worlds in which no copy is set to fail. *)
Definition quiet (w : statics) : Prop := throw_countdown w = 0.

Definition start (countdown : Z) : memory Z :=
  Mem ∅ 0%nat (Statics 0 countdown).

End Counted.

(** States of a [vector<counted<size_t>>] used in the examples; the values
    stand for the [val] fields of the elements. *)
Module Examples.

Import Counted.

(** After [a.reserve(4)]. *)
Definition spare_empty : vector * memory Z :=
  (Vec (Block 0) 0 4,
   Mem {[0%nat := [None; None; None; None]]} 1%nat (Statics 0 0)).

(** After [a.reserve(1); a.push_back(1)]. *)
Definition full_one : vector * memory Z :=
  (Vec (Block 0) 1 1, Mem {[0%nat := [Some 1]]} 1%nat (Statics 1 0)).

(** After [a.reserve(2); a.push_back(1); a.push_back(2);
    set_throw_countdown(countdown)]. *)
Definition full_two (countdown : Z) : vector * memory Z :=
  (Vec (Block 0) 2 2,
   Mem {[0%nat := [Some 1; Some 2]]} 1%nat (Statics 2 countdown)).

(** After the four calls of [push_back] of the test [erase]. *)
Definition four : vector * memory Z :=
  (Vec (Block 0) 4 4,
   Mem {[0%nat := [Some 4; Some 5; Some 6; Some 7]]} 1%nat (Statics 4 0)).

(** After the four calls of [push_back] of the test [erase], followed by
    [set_throw_countdown(countdown)]. *)
Definition four_counting (countdown : Z) : vector * memory Z :=
  (Vec (Block 0) 4 4,
   Mem {[0%nat := [Some 4; Some 5; Some 6; Some 7]]} 1%nat (Statics 4 countdown)).

(** After [a.reserve(4)], three calls of [push_back] and
    [set_throw_countdown(countdown)]. *)
Definition three_of_four (countdown : Z) : vector * memory Z :=
  (Vec (Block 0) 3 4,
   Mem {[0%nat := [Some 4; Some 5; Some 6; None]]} 1%nat (Statics 3 countdown)).

(** After [a.reserve(4); a.push_back(5)]. *)
Definition one_of_four : vector * memory Z :=
  (Vec (Block 0) 1 4,
   Mem {[0%nat := [Some 5; None; None; None]]} 1%nat (Statics 1 0)).

(** Two containers in one memory: [a], full with two elements, and [b],
    with three elements in a buffer of four slots. *)
Definition a_of_two : vector := Vec (Block 0) 2 2.
Definition b_of_two : vector := Vec (Block 1) 3 4.
Definition two_vectors (countdown : Z) : memory Z :=
  Mem {[0%nat := [Some 1; Some 2]; 1%nat := [Some 7; Some 8; Some 9; None]]}
      2%nat (Statics 5 countdown).

End Examples.

(** An element kind that records the calls of its special member functions
    and whose copy constructor throws the value it is asked to copy when
    [bad] holds of it. *)
Module Traced.

Inductive event : Type :=
| Copied (x : Z)
| CopyThrew (x : Z)
| Assigned (x : Z)
| Destroyed (x : Z).

Definition kind (bad : Z -> bool) : ElementKind Z := {|
  element_size := 8;
  W := list event;
  E := Z;
  copy_constructor := fun x log =>
    if bad x then (log ++ [CopyThrew x], Some x) else (log ++ [Copied x], None);
  copy_assignment := fun x log => (log ++ [Assigned x], None);
  destructor := fun x log => log ++ [Destroyed x]
|}.

(** A source buffer with four elements, the third of which cannot be
    copied, and a raw destination buffer of four slots. *)
Definition two_buffers : @memory Z (kind (Z.eqb 13)) :=
  @Mem Z (kind (Z.eqb 13))
       {[0%nat := [Some 1; Some 2; Some 13; Some 4];
         1%nat := [None; None; None; None]]} 2%nat [].

End Traced.

(** The element kind of [vector<int>] (instantiated at the top of
    src/main.cpp): copying, assigning and destroying an [int] has no effect
    and throws nothing. *)
Module Plain.

Definition kind : ElementKind Z := {|
  element_size := 4;
  W := unit;
  E := Empty_set;
  copy_constructor := fun _ w => (w, None);
  copy_assignment := fun _ w => (w, None);
  destructor := fun _ w => w
|}.

(** A source buffer with two elements and a raw destination buffer. *)
Definition two_buffers : @memory Z kind :=
  @Mem Z kind {[0%nat := [Some 4; Some 8]; 1%nat := [None; None]]} 2%nat tt.

End Plain.

(** * Properties *)

Section VectorProperties.

Context {T : Type} `{K : ElementKind T}.

Implicit Types (m : memory T) (v : vector) (xs ys : list T).
Implicit Types (h : gmap nat (list (option T))) (cells : list (option T)).

(** ** Byte sizes *)

Lemma sizeof_positive : 0 < sizeof.
Proof. unfold sizeof. lia. Qed.

Lemma fits_0 : fits 0.
Proof. unfold fits, size_bits. lia. Qed.

Lemma fits_le a b : 0 <= a <= b -> fits b -> fits a.
Proof. pose proof sizeof_positive. unfold fits. nia. Qed.

Lemma fits_word n : 0 <= n -> fits n -> n < 2 ^ size_bits.
Proof. pose proof sizeof_positive. unfold fits. nia. Qed.

(** A byte size that does not wrap has room for the elements asked for. *)
Lemma slots_of_bytes n : 0 <= n -> fits n -> wrap (n * sizeof) / sizeof = n.
Proof.
  intros Hn Hfit. pose proof sizeof_positive as Hpos. unfold wrap.
  rewrite Z.mod_small by (unfold fits in Hfit; nia).
  apply Z.div_mul. lia.
Qed.

Lemma operator_new_slots n m :
  0 <= n ->
  fits n ->
  operator_new (wrap (n * sizeof)) m =
  Ret (Block (fresh m))
      (Mem (<[fresh m := replicate (Z.to_nat n) None]> (heap m))
           (S (fresh m)) (world m)).
Proof.
  intros Hn Hfit. unfold operator_new. rewrite slots_of_bytes by assumption.
  reflexivity.
Qed.

(** ** Slots *)

Lemma slot_middle m b (l1 l2 : list (option T)) c i :
  heap m !! b = Some (l1 ++ c :: l2) ->
  i = Z.of_nat (length l1) ->
  slot m (Iter (Block b) i) = Some c.
Proof.
  intros Hb ->. unfold slot. simpl. rewrite Hb.
  rewrite decide_True by (rewrite length_app; simpl; lia).
  rewrite Nat2Z.id. apply list_lookup_middle. reflexivity.
Qed.

Lemma set_slot_middle m b (l1 l2 : list (option T)) c c' i :
  heap m !! b = Some (l1 ++ c :: l2) ->
  i = Z.of_nat (length l1) ->
  set_slot m (Iter (Block b) i) c' =
  Mem (<[b := l1 ++ c' :: l2]> (heap m)) (fresh m) (world m).
Proof.
  intros Hb ->. unfold set_slot. simpl. rewrite Hb, Nat2Z.id.
  replace (length l1) with (length l1 + 0)%nat by lia.
  rewrite insert_app_r. reflexivity.
Qed.

Lemma load_middle m b (l1 l2 : list (option T)) x i :
  heap m !! b = Some (l1 ++ Some x :: l2) ->
  i = Z.of_nat (length l1) ->
  load (Iter (Block b) i) m = Ret x m.
Proof.
  intros Hb Hi. unfold load. rewrite (slot_middle _ _ _ _ _ _ Hb Hi). reflexivity.
Qed.

Lemma construct_at_middle m b bs (l1 l2 s1 s2 : list (option T)) c x i j :
  heap m !! b = Some (l1 ++ c :: l2) ->
  i = Z.of_nat (length l1) ->
  heap m !! bs = Some (s1 ++ Some x :: s2) ->
  j = Z.of_nat (length s1) ->
  construct_at (Iter (Block b) i) (Elem (Iter (Block bs) j)) m =
  match copy_constructor x (world m) with
  | (w, Some e) => Throw e (Mem (heap m) (fresh m) w)
  | (w, None) => Ret tt (Mem (<[b := l1 ++ Some x :: l2]> (heap m)) (fresh m) w)
  end.
Proof.
  intros Hb Hi Hs Hj. unfold construct_at, bind, read.
  rewrite (load_middle _ _ _ _ _ _ Hs Hj).
  rewrite (slot_middle _ _ _ _ _ _ Hb Hi).
  destruct (copy_constructor x (world m)) as [w [e|]]; [reflexivity|].
  erewrite set_slot_middle; [reflexivity| exact Hb | exact Hi].
Qed.

Lemma construct_at_value m b (l1 l2 : list (option T)) c x i :
  heap m !! b = Some (l1 ++ c :: l2) ->
  i = Z.of_nat (length l1) ->
  construct_at (Iter (Block b) i) (Value x) m =
  match copy_constructor x (world m) with
  | (w, Some e) => Throw e (Mem (heap m) (fresh m) w)
  | (w, None) => Ret tt (Mem (<[b := l1 ++ Some x :: l2]> (heap m)) (fresh m) w)
  end.
Proof.
  intros Hb Hi. unfold construct_at, bind, read, ret.
  rewrite (slot_middle _ _ _ _ _ _ Hb Hi).
  destruct (copy_constructor x (world m)) as [w [e|]]; [reflexivity|].
  erewrite set_slot_middle; [reflexivity| exact Hb | exact Hi].
Qed.

Lemma destroy_at_middle m b (l1 l2 : list (option T)) x i :
  heap m !! b = Some (l1 ++ Some x :: l2) ->
  i = Z.of_nat (length l1) ->
  destroy_at (Iter (Block b) i) m =
  Ret tt (Mem (<[b := l1 ++ None :: l2]> (heap m)) (fresh m)
              (destructor x (world m))).
Proof.
  intros Hb Hi. unfold destroy_at, bind.
  rewrite (load_middle _ _ _ _ _ _ Hb Hi).
  erewrite set_slot_middle; [reflexivity| exact Hb | exact Hi].
Qed.

(** ** The loops of [copy_construct_all] *)

Section CopyLoops.

Variables (bd bs : nat) (d0 s0 : Z).
Hypothesis Hblocks : bd <> bs.

Let dst := Iter (Block bd) d0.
Let src := Iter (Block bs) s0.

(** The loop of the [try] block when no copy throws. *)
Lemma construct_from_ok xs :
  forall (l1 l2 s1 s2 : list (option T)) (i : Z) h f w w',
    h !! bd = Some (l1 ++ replicate (length xs) None ++ l2) ->
    h !! bs = Some (s1 ++ (Some <$> xs) ++ s2) ->
    Z.of_nat (length l1) = d0 + i ->
    Z.of_nat (length s1) = s0 + i ->
    copy_each xs w = Some w' ->
    construct_from dst src (length xs) (i, Mem h f w) =
    Ret tt (i + Z.of_nat (length xs),
            Mem (<[bd := l1 ++ (Some <$> xs) ++ l2]> h) f w').
Proof.
  induction xs as [|x xs IH]; intros l1 l2 s1 s2 i h f w w' Hd Hs Hi Hj Hc.
  - simpl in *. injection Hc as <-. unfold ret.
    rewrite insert_id by exact Hd. rewrite Z.add_0_r. reflexivity.
  - simpl in Hd, Hs, Hc. cbn [construct_from length fst snd].
    unfold dst, src, it_add; cbn [it_block it_index].
    erewrite construct_at_middle; [| exact Hd | simpl; lia | exact Hs | simpl; lia].
    cbn [world heap fresh].
    destruct (copy_constructor x w) as [w1 [e|]]; [discriminate|].
    fold dst src.
    rewrite (IH (l1 ++ [Some x]) l2 (s1 ++ [Some x]) s2 (i + 1) _ f w1 w').
    + rewrite insert_insert_eq. rewrite <- !app_assoc. simpl.
      replace (i + 1 + Z.of_nat (length xs)) with (i + Z.of_nat (S (length xs)))
        by lia.
      reflexivity.
    + rewrite lookup_insert_eq, <- app_assoc. reflexivity.
    + rewrite lookup_insert_ne by exact Hblocks. rewrite Hs, <- app_assoc. reflexivity.
    + rewrite length_app. simpl. lia.
    + rewrite length_app. simpl. lia.
    + exact Hc.
Qed.

(** The loop of the [try] block when the copy of element [k] throws. *)
Lemma construct_from_throw xs :
  forall (k : nat) (x : T) (l1 l2 s1 s2 : list (option T)) (i : Z) h f w wk wf e,
    h !! bd = Some (l1 ++ replicate (length xs) None ++ l2) ->
    h !! bs = Some (s1 ++ (Some <$> xs) ++ s2) ->
    Z.of_nat (length l1) = d0 + i ->
    Z.of_nat (length s1) = s0 + i ->
    xs !! k = Some x ->
    copy_each (take k xs) w = Some wk ->
    copy_constructor x wk = (wf, Some e) ->
    construct_from dst src (length xs) (i, Mem h f w) =
    Throw e (i + Z.of_nat k,
             Mem (<[bd := l1 ++ (Some <$> take k xs)
                              ++ replicate (length xs - k) None ++ l2]> h) f wf).
Proof.
  induction xs as [|y xs IH];
    intros k x l1 l2 s1 s2 i h f w wk wf e Hd Hs Hi Hj Hk Hc Hx.
  - discriminate.
  - simpl in Hd, Hs. cbn [construct_from length fst snd].
    unfold dst, src, it_add; cbn [it_block it_index].
    erewrite construct_at_middle; [| exact Hd | simpl; lia | exact Hs | simpl; lia].
    cbn [world heap fresh].
    destruct k as [|k].
    + simpl in Hk, Hc. injection Hk as ->. injection Hc as ->.
      rewrite Hx. simpl. rewrite insert_id by exact Hd.
      rewrite Z.add_0_r. reflexivity.
    + simpl in Hk, Hc.
      destruct (copy_constructor y w) as [w1 [e1|]]; [discriminate|].
      fold dst src.
      rewrite (IH k x (l1 ++ [Some y]) l2 (s1 ++ [Some y]) s2 (i + 1) _ f w1 wk wf e).
      * rewrite insert_insert_eq. rewrite <- !app_assoc. simpl.
        replace (i + 1 + Z.of_nat k) with (i + Z.of_nat (S k)) by lia.
        reflexivity.
      * rewrite lookup_insert_eq, <- app_assoc. reflexivity.
      * rewrite lookup_insert_ne by exact Hblocks. rewrite Hs, <- app_assoc. reflexivity.
      * rewrite length_app. simpl. lia.
      * rewrite length_app. simpl. lia.
      * exact Hk.
      * exact Hc.
      * exact Hx.
Qed.

(** The handler destroys what was constructed, last element first. *)
Lemma unwind_ok ys :
  forall (l1 l2 : list (option T)) h f w,
    h !! bd = Some (l1 ++ (Some <$> ys) ++ l2) ->
    Z.of_nat (length l1) = d0 ->
    unwind dst (Z.of_nat (length ys)) (length ys) (Mem h f w) =
    Ret tt (Mem (<[bd := l1 ++ replicate (length ys) None ++ l2]> h) f
                (fold_right destructor w ys)).
Proof.
  induction ys as [|y ys IH] using rev_ind; intros l1 l2 h f w Hd Hl.
  - simpl in *. unfold ret. rewrite insert_id by exact Hd. reflexivity.
  - rewrite length_app, Nat.add_1_r. cbn [unwind]. unfold bind.
    rewrite fmap_app in Hd. simpl in Hd. rewrite <- app_assoc in Hd. simpl in Hd.
    rewrite app_assoc in Hd.
    unfold dst, it_add; cbn [it_block it_index].
    erewrite destroy_at_middle;
      [| exact Hd | rewrite length_app, length_fmap; lia].
    cbn [world heap fresh].
    replace (Z.of_nat (S (length ys)) - 1) with (Z.of_nat (length ys)) by lia.
    fold dst.
    rewrite (IH l1 (None :: l2)).
    + rewrite insert_insert_eq, fold_right_app. simpl.
      change (None :: replicate (length ys) None ++ l2)
        with (replicate (S (length ys)) (@None T) ++ l2).
      rewrite replicate_S_end, <- app_assoc. reflexivity.
    + rewrite lookup_insert_eq, <- app_assoc. reflexivity.
    + exact Hl.
Qed.

End CopyLoops.

Lemma copy_construct_all_nil (dst src : iterator) m :
  copy_construct_all dst src 0 m = Ret tt m.
Proof. reflexivity. Qed.

Lemma copy_construct_all_ok bd bs (l1 l2 s1 s2 : list (option T)) xs h f w w' n :
  bd <> bs ->
  h !! bd = Some (l1 ++ replicate (length xs) None ++ l2) ->
  h !! bs = Some (s1 ++ (Some <$> xs) ++ s2) ->
  copy_each xs w = Some w' ->
  n = Z.of_nat (length xs) ->
  copy_construct_all (Iter (Block bd) (Z.of_nat (length l1)))
                     (Iter (Block bs) (Z.of_nat (length s1))) n (Mem h f w) =
  Ret tt (Mem (<[bd := l1 ++ (Some <$> xs) ++ l2]> h) f w').
Proof.
  intros Hne Hd Hs Hc ->. unfold copy_construct_all. rewrite Nat2Z.id.
  erewrite construct_from_ok; eauto; lia.
Qed.

(** C6: under the general policy of [copy_construct_all(dst, src, n)], when
    the copy construction of element [i] throws [e] after the elements
    before it were copied, the helper destroys the [i] constructed elements
    in the order [i - 1], ..., [0] ([fold_right] applies the destructor of
    the last one first), throws the same [e], and leaves the heap as it was:
    the [n] destination slots, raw before the call, are raw again. *)
Theorem copy_construct_all_unwinds
    (m : memory T) (bd bs : nat) (pre post spre spost : list (option T))
    (xs : list T) (i : nat) (x : T) (w_i w_f : W) (e : E) :
  bd <> bs ->
  heap m !! bd = Some (pre ++ replicate (length xs) None ++ post) ->
  heap m !! bs = Some (spre ++ (Some <$> xs) ++ spost) ->
  xs !! i = Some x ->
  copy_each (take i xs) (world m) = Some w_i ->
  copy_constructor x w_i = (w_f, Some e) ->
  let dst := Iter (Block bd) (Z.of_nat (length pre)) in
  let src := Iter (Block bs) (Z.of_nat (length spre)) in
  let m' := Mem (heap m) (fresh m) (fold_right destructor w_f (take i xs)) in
  copy_construct_all dst src (Z.of_nat (length xs)) m = Throw e m' /\
  forall j, (j < length xs)%nat -> slot m' (it_add dst (Z.of_nat j)) = Some None.
Proof.
  intros Hne Hd Hs Hx Hc He dst src m'. split.
  - destruct m as [h f w]. simpl in *. unfold dst, src, m'.
    unfold copy_construct_all. rewrite Nat2Z.id.
    erewrite construct_from_throw; eauto; try lia.
    cbn [fst snd]. rewrite Z.add_0_l, Nat2Z.id.
    assert (Hlen : length (take i xs) = i).
    { apply length_take_le. apply lookup_lt_Some in Hx. lia. }
    rewrite <- Hlen at 1 2.
    rewrite unwind_ok with (bs := bs) (ys := take i xs) (l1 := pre)
                           (l2 := replicate (length xs - i) None ++ post);
      [| exact Hne | apply lookup_insert_eq | reflexivity ].
    rewrite insert_insert_eq, Hlen.
    rewrite (app_assoc (replicate i None)), <- replicate_add.
    replace (i + (length xs - i))%nat with (length xs)
      by (apply lookup_lt_Some in Hx; lia).
    rewrite insert_id by exact Hd. reflexivity.
  - intros j Hj. unfold m', dst, it_add, slot. simpl. rewrite Hd.
    rewrite decide_True by (rewrite !length_app, length_replicate; lia).
    replace (Z.to_nat (Z.of_nat (length pre) + Z.of_nat j))
      with (length pre + j)%nat by lia.
    rewrite lookup_app_r by lia.
    replace (length pre + j - length pre)%nat with j by lia.
    rewrite lookup_app_l by (rewrite length_replicate; lia).
    apply lookup_replicate_2. exact Hj.
Qed.

(** ** Destruction *)

Lemma destroy_from_ok ys :
  forall (l1 l2 : list (option T)) h f w b i,
    h !! b = Some (l1 ++ (Some <$> ys) ++ l2) ->
    i = Z.of_nat (length l1) ->
    destroy_from (Block b) i (length ys) (Mem h f w) =
    Ret tt (Mem (<[b := l1 ++ replicate (length ys) None ++ l2]> h) f
                (destroy_each ys w)).
Proof.
  induction ys as [|y ys IH]; intros l1 l2 h f w b i Hb Hi.
  - simpl in *. unfold ret. rewrite insert_id by exact Hb. reflexivity.
  - simpl in Hb. cbn [destroy_from length]. unfold bind.
    erewrite destroy_at_middle; [| exact Hb | exact Hi].
    rewrite (IH (l1 ++ [None]) l2).
    + rewrite insert_insert_eq, <- app_assoc. reflexivity.
    + rewrite lookup_insert_eq, <- app_assoc. reflexivity.
    + rewrite length_app. simpl. lia.
Qed.

Lemma buffer_nil cap : buffer [] cap = replicate (Z.to_nat cap) (@None T).
Proof. unfold buffer. simpl. rewrite Nat.sub_0_r. reflexivity. Qed.

Lemma buffer_split xs cap :
  (length xs <= Z.to_nat cap)%nat ->
  replicate (Z.to_nat cap) (@None T) =
  replicate (length xs) None ++ replicate (Z.to_nat cap - length xs) None.
Proof.
  intros Hle. rewrite <- replicate_add. f_equal. lia.
Qed.

Lemma length_buffer xs cap :
  (length xs <= Z.to_nat cap)%nat -> length (buffer xs cap) = Z.to_nat cap.
Proof.
  intros Hle. unfold buffer.
  rewrite length_app, length_fmap, length_replicate. lia.
Qed.

Lemma holds_size m v xs : holds m v xs -> Z.to_nat (size_ v) = length xs.
Proof. intros [Hs _]. lia. Qed.

Lemma holds_le m v xs : holds m v xs -> (length xs <= Z.to_nat (capacity_ v))%nat.
Proof. intros (Hs & Hc & _). lia. Qed.

Lemma holds_nullptr m v xs : holds m v xs -> data_ v = nullptr -> xs = [].
Proof.
  intros (Hs & Hc & Hfit & Hd) Hn. rewrite Hn in Hd.
  destruct xs; [reflexivity|]. simpl in Hs. lia.
Qed.

(** [~vector] on a well-formed container destroys its elements, first to
    last, and releases its buffer. *)
Lemma vector_dtor_ok m v xs :
  holds m v xs ->
  vector_dtor v m =
  Ret tt (Mem (without (data_ v) (heap m)) (fresh m) (destroy_each xs (world m))).
Proof.
  intros Hv. pose proof (holds_size _ _ _ Hv) as Hsz.
  pose proof (holds_le _ _ _ Hv) as Hle.
  pose proof (holds_nullptr _ _ _ Hv) as Hnil.
  destruct Hv as (Hs & Hc & Hfit & Hd). destruct m as [h f w].
  unfold vector_dtor, bind, destroy_all. rewrite Hsz.
  destruct (data_ v) as [|b]; simpl in *.
  - rewrite (Hnil eq_refl). reflexivity.
  - destruct Hd as [Hb Hd].
    rewrite (destroy_from_ok xs [] (replicate (Z.to_nat (capacity_ v) - length xs) None)
               h f w b 0); [| exact Hd | reflexivity ].
    unfold operator_delete. simpl. rewrite lookup_insert_eq.
    rewrite delete_insert_eq. reflexivity.
Qed.

(** ** Reallocation *)

(** [new_buffer(n)] on a well-formed container: the new buffer has the
    slots that fit into the byte size the source computes, and the call
    returns when they have room for the elements and no copy throws. *)
Lemma new_buffer_run m v xs n w1 :
  holds m v xs ->
  size_ v <= n ->
  size_ v <= wrap (n * sizeof) / sizeof ->
  copy_each xs (world m) = Some w1 ->
  new_buffer n (v, m) =
  Ret tt (Vec (Block (fresh m)) (size_ v) n,
          Mem (<[fresh m := buffer xs (wrap (n * sizeof) / sizeof)]>
                 (without (data_ v) (heap m)))
              (S (fresh m)) (destroy_each xs w1)).
Proof.
  intros Hv Hn Hk Hc.
  pose proof (holds_le _ _ _ Hv) as Hle.
  pose proof (holds_nullptr _ _ _ Hv) as Hnil.
  destruct m as [h f w]. destruct v as [p sz cap].
  unfold new_buffer, bind, this, assert. cbn [fst snd size_].
  destruct Hv as (Hs & Hcap & Hfit & Hd). simpl in *.
  replace (n >=? sz) with true by (symmetry; apply Z.geb_le; lia).
  unfold ret, with_local, under, swap_local. cbn [fst snd fresh heap world size_ data_ capacity_ vector_ctor swap].
  set (k := wrap (n * sizeof) / sizeof) in *.
  destruct p as [|b].
  - rewrite (Hnil eq_refl) in *. simpl in Hs. subst sz.
    rewrite copy_construct_all_nil. injection Hc as <-.
    cbn [fst snd fresh heap world size_ data_ capacity_ vector_ctor].
    rewrite buffer_nil. reflexivity.
  - destruct Hd as [Hb Hd].
    assert (Hfb : f <> b) by lia.
    rewrite (copy_construct_all_ok f b [] (replicate (Z.to_nat k - length xs) None)
               [] (replicate (Z.to_nat cap - length xs) None) xs _ (S f) w w1 sz);
      [ | exact Hfb | | | exact Hc | exact Hs ].
    + cbn [fst snd fresh heap world size_ data_ capacity_ app].
      rewrite insert_insert_eq.
      erewrite (vector_dtor_ok _ _ xs).
      * cbn [fst snd fresh heap world size_ data_ capacity_ without].
        rewrite delete_insert_ne by (intros ->; lia). reflexivity.
      * repeat split; simpl; try lia; try exact Hfit.
        rewrite lookup_insert_ne by exact Hfb. exact Hd.
    + rewrite lookup_insert_eq. simpl. rewrite <- buffer_split by lia. reflexivity.
    + rewrite lookup_insert_ne by exact Hfb. exact Hd.
Qed.

Lemma new_buffer_ok m v xs n w1 :
  holds m v xs ->
  size_ v <= n < 2 ^ size_bits ->
  fits n ->
  copy_each xs (world m) = Some w1 ->
  new_buffer n (v, m) =
  Ret tt (Vec (Block (fresh m)) (size_ v) n,
          Mem (<[fresh m := buffer xs n]> (without (data_ v) (heap m)))
              (S (fresh m)) (destroy_each xs w1)).
Proof.
  intros Hv Hn Hfn Hc.
  assert (H0 : 0 <= n) by (destruct Hv as (? & _); lia).
  rewrite (new_buffer_run m v xs n w1 Hv);
    rewrite ?(slots_of_bytes n) by assumption;
    [reflexivity | lia | lia | exact Hc].
Qed.

Lemma holds_vector_ctor m : holds m vector_ctor [].
Proof.
  unfold holds, size_bits. simpl.
  split; [reflexivity | split; [lia | split; [exact fits_0 | reflexivity]]].
Qed.

(** A fresh buffer of [n] slots filled with copies of the elements of a
    well-formed container: the common start of the copy constructor, of
    [push_back_realloc] and of the growth path of [insert]. *)
Lemma copy_into_fresh m v xs n h1 f1 w w1 b1 :
  holds m v xs ->
  (length xs <= Z.to_nat n)%nat ->
  (fresh m <= b1)%nat ->
  h1 = <[b1 := buffer [] n]> (heap m) ->
  copy_each xs w = Some w1 ->
  copy_construct_all (Iter (Block b1) 0) (Iter (data_ v) 0) (size_ v) (Mem h1 f1 w) =
  Ret tt (Mem (<[b1 := buffer xs n]> (heap m)) f1 w1).
Proof.
  intros Hv Hle Hb1 -> Hc.
  pose proof (holds_nullptr _ _ _ Hv) as Hnil.
  destruct Hv as (Hs & Hcap & Hfit & Hd).
  destruct (data_ v) as [|b].
  - rewrite (Hnil eq_refl) in *. simpl in Hs. rewrite Hs.
    injection Hc as <-. rewrite copy_construct_all_nil. reflexivity.
  - destruct Hd as [Hb Hd].
    rewrite (copy_construct_all_ok b1 b [] (replicate (Z.to_nat n - length xs) None)
               [] (replicate (Z.to_nat (capacity_ v) - length xs) None) xs _ f1 w w1);
      [ | lia | | | exact Hc | exact Hs ].
    + rewrite insert_insert_eq. reflexivity.
    + rewrite lookup_insert_eq, buffer_nil. simpl.
      rewrite <- buffer_split by lia. reflexivity.
    + rewrite lookup_insert_ne by lia. exact Hd.
Qed.

Lemma holds_fresh_insert m v xs b1 cells f1 w1 :
  holds m v xs ->
  (fresh m <= b1)%nat -> (fresh m <= f1)%nat ->
  holds (Mem (<[b1 := cells]> (heap m)) f1 w1) v xs.
Proof.
  intros (Hs & Hcap & Hfit & Hd) Hb1 Hf1.
  split; [exact Hs | split; [exact Hcap | split; [exact Hfit|]]].
  destruct (data_ v) as [|b]; [exact Hd|].
  destruct Hd as [Hb Hd]. simpl. split; [lia|].
  rewrite lookup_insert_ne by lia. exact Hd.
Qed.

Lemma holds_in_fresh xs n b1 f1 w1 h :
  (length xs <= Z.to_nat n)%nat -> 0 <= n < 2 ^ size_bits -> fits n ->
  (b1 < f1)%nat ->
  holds (Mem (<[b1 := buffer xs n]> h) f1 w1)
        (Vec (Block b1) (Z.of_nat (length xs)) n) xs.
Proof.
  intros Hle Hn Hfit Hb. unfold holds. simpl.
  split; [reflexivity | split; [lia | split; [exact Hfit|]]].
  split; [exact Hb | apply lookup_insert_eq].
Qed.

Lemma increase_capacity_le v :
  0 <= capacity_ v -> 2 * increase_capacity v <= 3 * capacity_ v + 8.
Proof.
  intros Hc. unfold increase_capacity, wrap, size_bits.
  destruct (Z.eqb_spec (capacity_ v) 0) as [->|Hne]; [lia|].
  pose proof (Z.mod_le (capacity_ v * 3) (2 ^ 64) ltac:(lia) ltac:(lia)) as Hm.
  pose proof (Z.mul_div_le ((capacity_ v * 3) mod 2 ^ 64) 2 ltac:(lia)) as Hd.
  lia.
Qed.

Lemma increase_capacity_bound v :
  0 <= capacity_ v -> 0 <= increase_capacity v < 2 ^ size_bits.
Proof.
  intros Hc. unfold increase_capacity, wrap, size_bits.
  destruct (capacity_ v =? 0); [lia|].
  pose proof (Z.mod_pos_bound (capacity_ v * 3) (2 ^ 64) ltac:(lia)) as Hm.
  split; [apply Z.div_pos; lia|].
  apply Z.div_lt_upper_bound; lia.
Qed.

(** ** The copy constructor *)

(** C10: the copy constructor produces a tight copy: the capacity of the new
    container is the size of the source (not its capacity), and it holds
    the elements of the source, in order.  The source is left as it was. *)
Theorem copy_ctor_is_tight (m : memory T) (other : vector) (xs : list T) (w1 : W) :
  holds m other xs ->
  copy_each xs (world m) = Some w1 ->
  let v' := Vec (Block (fresh m)) (size_ other) (size_ other) in
  let m' := Mem (<[fresh m := buffer xs (size_ other)]> (heap m))
                (S (fresh m)) w1 in
  vector_copy_ctor other m = Ret v' m' /\
  capacity v' = size other /\
  holds m' v' xs /\
  holds m' other xs.
Proof.
  intros Hv Hc v' m'.
  pose proof (holds_size _ _ _ Hv) as Hsz.
  assert (Hn : 0 <= size_ other < 2 ^ size_bits) by (destruct Hv as (? & ? & _); lia).
  assert (Hfn : fits (size_ other)).
  { destruct Hv as (_ & ? & ? & _). apply (fits_le _ (capacity_ other)); [lia | assumption]. }
  split; [| split; [reflexivity | split]].
  - unfold vector_copy_ctor, bind, size.
    rewrite (new_buffer_ok m vector_ctor [] (size_ other) (world m));
      [ | apply holds_vector_ctor | simpl; lia | exact Hfn | reflexivity ].
    unfold this, under, set_size_. cbn [fst snd data_ size_ capacity_ vector_ctor without].
    erewrite (copy_into_fresh m other xs (size_ other));
      [ | exact Hv | lia | reflexivity | reflexivity | exact Hc ].
    reflexivity.
  - unfold m', v'. destruct Hv as (Hs & _). rewrite Hs in *.
    apply holds_in_fresh; [lia | lia | exact Hfn | lia].
  - apply holds_fresh_insert; [exact Hv | simpl; lia | simpl; lia].
Qed.

(** ** [push_back] *)

Lemma buffer_next xs cap :
  (length xs < Z.to_nat cap)%nat ->
  buffer xs cap =
  (Some <$> xs) ++ None :: replicate (Z.to_nat cap - length xs - 1) None.
Proof.
  intros Hlt. unfold buffer. f_equal.
  rewrite <- replicate_S. f_equal. lia.
Qed.

Lemma buffer_snoc xs x cap :
  (Some <$> xs) ++ Some x :: replicate (Z.to_nat cap - length xs - 1) None =
  buffer (xs ++ [x]) cap.
Proof.
  unfold buffer. rewrite fmap_app, length_app, <- app_assoc. simpl.
  do 3 f_equal. lia.
Qed.

Lemma wrap_small z : 0 <= z < 2 ^ size_bits -> wrap z = z.
Proof. intros Hz. unfold wrap. apply Z.mod_small. exact Hz. Qed.

Lemma push_back_S fuel val (s : vector * memory T) :
  push_back (S fuel) val s =
  (if decide (size_ (fst s) <> capacity_ (fst s)) then
     bind (under (construct_at (Iter (data_ (fst s)) (size_ (fst s))) val))
          (fun _ => set_size_ (wrap (size_ (fst s) + 1)))
   else push_back_realloc (push_back fuel) val) s.
Proof. reflexivity. Qed.

(** [push_back] with spare capacity constructs in place. *)
Lemma push_back_spare m v xs x w1 b fuel :
  holds m v xs ->
  size_ v < capacity_ v ->
  data_ v = Block b ->
  copy_constructor x (world m) = (w1, None) ->
  push_back (S fuel) (Value x) (v, m) =
  Ret tt (Vec (Block b) (size_ v + 1) (capacity_ v),
          Mem (<[b := buffer (xs ++ [x]) (capacity_ v)]> (heap m)) (fresh m) w1).
Proof.
  intros (Hs & Hcap & Hfit & Hd) Hlt Hb Hx. rewrite Hb in Hd. destruct Hd as [Hbf Hd].
  rewrite push_back_S.
  destruct m as [h f w]. destruct v as [p sz cap]. simpl in *. subst p.
  cbn [fst snd size_ capacity_ data_].
  rewrite decide_True by lia.
  unfold bind, under. cbn [fst snd].
  rewrite buffer_next in Hd by lia.
  erewrite construct_at_value; [| exact Hd | rewrite length_fmap; lia ].
  cbn [world heap fresh]. rewrite Hx.
  unfold set_size_. cbn [fst snd size_ capacity_ data_].
  rewrite wrap_small by lia. rewrite buffer_snoc. reflexivity.
Qed.

(** [push_back_realloc] on a well-formed container, up to the call of
    [push_back] on the new buffer. *)
Lemma push_back_realloc_run pb val m v xs w1 :
  holds m v xs ->
  size_ v <= increase_capacity v ->
  fits (increase_capacity v) ->
  copy_each xs (world m) = Some w1 ->
  push_back_realloc pb val (v, m) =
  match pb val (Vec (Block (fresh m)) (size_ v) (increase_capacity v),
                Mem (<[fresh m := buffer xs (increase_capacity v)]> (heap m))
                    (S (fresh m)) w1) with
  | Ret _ s' =>
      match vector_dtor v (snd s') with
      | Ret _ m' => Ret tt (fst s', m')
      | Throw e m' => Throw e (fst s', m')
      | Fault f => Fault f
      | OutOfFuel => OutOfFuel
      end
  | Throw e s' =>
      match vector_dtor (fst s') (snd s') with
      | Ret _ m' => Throw e (v, m')
      | Throw e' m' => Throw e' (v, m')
      | Fault f => Fault f
      | OutOfFuel => OutOfFuel
      end
  | Fault f => Fault f
  | OutOfFuel => OutOfFuel
  end.
Proof.
  intros Hv Hinc Hfit Hc.
  assert (Hcap : 0 <= capacity_ v) by (destruct Hv as (? & ? & _); lia).
  pose proof (increase_capacity_bound v Hcap) as Hb.
  pose proof (holds_size _ _ _ Hv) as Hsz.
  unfold push_back_realloc, with_local, bind, under, ret, this, on_local.
  cbn [fst snd].
  rewrite (new_buffer_ok m vector_ctor [] (increase_capacity v) (world m));
    [ | apply holds_vector_ctor | simpl; lia | exact Hfit | reflexivity ].
  cbn [fst snd data_ size_ capacity_ vector_ctor without fresh heap world destroy_each fold_left].
  erewrite (copy_into_fresh m v xs (increase_capacity v));
    [ | exact Hv | lia | reflexivity | reflexivity | exact Hc ].
  unfold set_size_. cbn [fst snd data_ size_ capacity_].
  destruct (pb val _) as [[] [tmp' m'] | e [tmp' m'] | |]; try reflexivity.
  unfold swap_local, swap. cbn [fst snd data_ size_ capacity_].
  destruct v, tmp'; reflexivity.
Qed.

Lemma copy_each_app xs ys w w2 :
  copy_each (xs ++ ys) w = Some w2 <->
  exists w1, copy_each xs w = Some w1 /\ copy_each ys w1 = Some w2.
Proof.
  revert w. induction xs as [|x xs IH]; intros w; simpl.
  - split; [intros H; exists w; auto | intros (w1 & [= <-] & H); exact H].
  - destruct (copy_constructor x w) as [w' [e|]].
    + split; [discriminate | intros (w1 & H & _); discriminate].
    + apply IH.
Qed.

Lemma infallible_copy_each P xs :
  infallible P -> forall w, P w -> exists w', copy_each xs w = Some w' /\ P w'.
Proof.
  intros HP. induction xs as [|x xs IH]; intros w Hw; simpl.
  - exists w. auto.
  - destruct (HP x w Hw) as ((w1 & Hx & Hw1) & _). rewrite Hx. apply IH, Hw1.
Qed.

Lemma increase_capacity_grows v :
  0 <= capacity_ v < 2 ^ size_bits ->
  capacity_ v < increase_capacity v ->
  increase_capacity v = (if capacity_ v =? 0 then 4 else capacity_ v * 3 / 2).
Proof.
  unfold increase_capacity, wrap, size_bits.
  destruct (capacity_ v =? 0) eqn:Hz; [reflexivity|].
  intros Hc Hlt. apply Z.eqb_neq in Hz.
  destruct (Z_lt_ge_dec (capacity_ v * 3) (2 ^ 64)) as [Hs|Hs].
  - rewrite Z.mod_small by lia. reflexivity.
  - exfalso.
    assert (H1 : (capacity_ v * 3) mod 2 ^ 64 <= capacity_ v * 3 - 2 ^ 64).
    { pose proof (Z.div_mod (capacity_ v * 3) (2 ^ 64) ltac:(lia)) as Hdm.
      assert (1 <= capacity_ v * 3 / 2 ^ 64) by (apply Z.div_le_lower_bound; lia).
      nia. }
    assert (H2 : (capacity_ v * 3) mod 2 ^ 64 / 2 <= (capacity_ v * 3 - 2 ^ 64) / 2)
      by (apply Z.div_le_mono; lia).
    assert (H3 : (capacity_ v * 3 - 2 ^ 64) / 2 < capacity_ v)
      by (apply Z.div_lt_upper_bound; lia).
    lia.
Qed.

(** Where the growth formula returns the current capacity, the call of
    [push_back] on the new buffer meets [size == capacity] again, and so
    does every later one. *)
Lemma push_back_stuck P x fuel :
  infallible P ->
  forall m v xs,
    P (world m) ->
    holds m v xs ->
    size_ v = capacity_ v ->
    increase_capacity v = capacity_ v ->
    push_back fuel (Value x) (v, m) = OutOfFuel.
Proof.
  intros HP. induction fuel as [|fuel IH]; intros m v xs Hw Hv Heq Hinc.
  - reflexivity.
  - cbn [push_back]. unfold bind at 1. unfold this at 1. cbn [fst snd].
    rewrite decide_False by lia.
    destruct (infallible_copy_each P xs HP _ Hw) as (w1 & Hc & Hw1).
    assert (Hfit : fits (increase_capacity v))
      by (rewrite Hinc; destruct Hv as (_ & _ & ? & _); assumption).
    rewrite (push_back_realloc_run _ _ m v xs w1);
      [ | exact Hv | lia | exact Hfit | exact Hc ].
    assert (Hcap : 0 <= capacity_ v < 2 ^ size_bits)
      by (destruct Hv as (? & ? & _); lia).
    assert (Hlen : size_ v = Z.of_nat (length xs)) by (destruct Hv; assumption).
    rewrite (IH _ _ xs); [reflexivity | exact Hw1 | | | ].
    + rewrite Hlen. apply holds_in_fresh; [lia | lia | exact Hfit | lia].
    + simpl. lia.
    + unfold increase_capacity in *. simpl. rewrite Hinc. exact Hinc.
Qed.

(** ** Rules for [wp] *)

Section Rules.

Context {S A : Type}.
Implicit Types (Q : A -> S -> Prop) (R : E -> S -> Prop).

Lemma wp_ret (a : A) (s : S) Q R : Q a s -> wp (ret a) s Q R.
Proof. intros H. exact H. Qed.

Lemma wp_fail (f : fault) (s : S) Q R : wp (fail f) s Q R.
Proof. exact I. Qed.

Lemma wp_mono (m : M S A) s Q Q' R R' :
  wp m s Q' R' ->
  (forall a s', Q' a s' -> Q a s') ->
  (forall e s', R' e s' -> R e s') ->
  wp m s Q R.
Proof.
  unfold wp. intros H HQ HR. destruct (m s); auto.
Qed.

Lemma wp_bind {B} (m : M S B) (k : B -> M S A) s Q R :
  wp m s (fun b s' => wp (k b) s' Q R) R -> wp (bind m k) s Q R.
Proof.
  unfold wp, bind. destruct (m s); auto.
Qed.

Lemma wp_eq (m : M S A) s Q R :
  (forall a s', m s = Ret a s' -> Q a s') ->
  (forall e s', m s = Throw e s' -> R e s') ->
  wp m s Q R.
Proof.
  unfold wp. intros HQ HR. destruct (m s); auto.
Qed.

Lemma wp_ret_inv (m : M S A) s Q R a s' :
  wp m s Q R -> m s = Ret a s' -> Q a s'.
Proof. unfold wp. intros H Heq. rewrite Heq in H. exact H. Qed.

Lemma wp_throw_inv (m : M S A) s Q R e s' :
  wp m s Q R -> m s = Throw e s' -> R e s'.
Proof. unfold wp. intros H Heq. rewrite Heq in H. exact H. Qed.

Lemma wp_under {X} (m : M S A) (xs : X * S) (Q : A -> X * S -> Prop)
    (R : E -> X * S -> Prop) :
  wp m (snd xs) (fun a s' => Q a (fst xs, s')) (fun e s' => R e (fst xs, s')) ->
  wp (under m) xs Q R.
Proof.
  unfold wp, under. destruct (m (snd xs)); auto.
Qed.

End Rules.

Lemma wp_and {S A} (op : M S A) s (Q1 Q2 : A -> S -> Prop) (R1 R2 : E -> S -> Prop) :
  wp op s Q1 R1 -> wp op s Q2 R2 ->
  wp op s (fun a s' => Q1 a s' /\ Q2 a s') (fun e s' => R1 e s' /\ R2 e s').
Proof.
  unfold wp. destruct (op s); auto.
Qed.

Lemma wp_trivial {S A} (op : M S A) s :
  wp op s (fun _ _ => True) (fun _ _ => True).
Proof. unfold wp. destruct (op s); exact I. Qed.

Lemma wp_assert {S} (b : bool) (s : S) (Q : unit -> S -> Prop) R :
  (b = true -> Q tt s) -> wp (assert b) s Q R.
Proof. destruct b; intros H; [apply H; reflexivity | exact I]. Qed.

Lemma wp_ptr_diff {S} (p q : iterator) (s : S) (Q : Z -> S -> Prop) R :
  (it_block p = it_block q -> Q (it_index p - it_index q) s) ->
  wp (ptr_diff p q) s Q R.
Proof.
  intros H. unfold ptr_diff. destruct (decide _) as [Heq|]; [apply H, Heq | exact I].
Qed.

Lemma wp_this (s : vector * memory T) (Q : vector -> vector * memory T -> Prop) R :
  Q (fst s) s -> wp this s Q R.
Proof. intros H. exact H. Qed.

Lemma wp_on_local {A} (m : M (vector * memory T) A)
    (s : vector * (vector * memory T)) Q R :
  wp m (fst s, snd (snd s))
     (fun a s' => Q a (fst s', (fst (snd s), snd s')))
     (fun e s' => R e (fst s', (fst (snd s), snd s'))) ->
  wp (on_local m) s Q R.
Proof.
  unfold wp, on_local. destruct (m _); auto.
Qed.

Lemma wp_with_local {A} (init : M (memory T) vector)
    (body : M (vector * (vector * memory T)) A) (s : vector * memory T) Q R :
  wp init (snd s)
     (fun tmp m1 =>
        wp body (tmp, (fst s, m1))
           (fun a s' =>
              wp (vector_dtor (fst s')) (snd (snd s'))
                 (fun _ m' => Q a (fst (snd s'), m'))
                 (fun e m' => R e (fst (snd s'), m')))
           (fun e s' =>
              wp (vector_dtor (fst s')) (snd (snd s'))
                 (fun _ m' => R e (fst (snd s'), m'))
                 (fun e' m' => R e' (fst (snd s'), m'))))
     (fun e m1 => R e (fst s, m1)) ->
  wp (with_local init body) s Q R.
Proof.
  unfold wp, with_local. destruct (init (snd s)) as [tmp m1|e m1| |]; auto.
  destruct (body _) as [a s'|e s'| |]; auto.
  - destruct (vector_dtor _ _); auto.
  - destruct (vector_dtor _ _); auto.
Qed.

(** ** What the operations leave untouched *)

Lemma kept_refl n p m : kept n p m m.
Proof. split; [lia | reflexivity]. Qed.

Lemma kept_trans n p m1 m2 m3 :
  kept n p m1 m2 -> kept n p m2 m3 -> kept n p m1 m3.
Proof.
  intros [H1 H1'] [H2 H2']. split; [lia|].
  intros b Hb Hp. rewrite H2', H1'; auto.
Qed.

Lemma kept_outside n p q m m' : outside n p -> kept n p m m' -> kept n q m m'.
Proof.
  intros Hp [H1 H2]. split; [exact H1|].
  intros b Hb _. apply H2; [exact Hb|].
  intros <-. simpl in Hp. lia.
Qed.

Lemma kept_world n p m m' w :
  kept n p m m' -> kept n p m (set_world m' w).
Proof. intros H. exact H. Qed.

Lemma kept_set_slot n m p c : kept n (it_block p) m (set_slot m p c).
Proof.
  unfold set_slot. destruct (it_block p) as [|b]; [apply kept_refl|].
  destruct (heap m !! b); [|apply kept_refl].
  split; simpl; [lia|]. intros b' _ Hb'.
  apply lookup_insert_ne. congruence.
Qed.

Lemma kept_same n p m m' :
  heap m' = heap m -> fresh m' = fresh m -> kept n p m m'.
Proof. intros Hh Hf. split; [lia|]. intros. rewrite Hh. reflexivity. Qed.

Lemma wp_load p m (Q : T -> memory T -> Prop) R :
  (forall x, slot m p = Some (Some x) -> Q x m) -> wp (load p) m Q R.
Proof.
  intros H. unfold wp, load. destruct (slot m p) as [[x|]|]; auto.
Qed.

Lemma wp_read r m (Q : T -> memory T -> Prop) R :
  (forall x, Q x m) -> wp (read r) m Q R.
Proof.
  intros H. destruct r as [x|p]; simpl; [apply H|].
  apply wp_load. intros x _. apply H.
Qed.

Lemma construct_at_kept n p src m :
  wp (construct_at p src) m
     (fun _ m' => kept n (it_block p) m m')
     (fun _ m' => kept n nullptr m m').
Proof.
  unfold construct_at. apply wp_bind, wp_read. intros x.
  unfold wp. destruct (slot m p); [|exact I].
  destruct (copy_constructor x (world m)) as [w [e|]].
  - apply kept_same; reflexivity.
  - apply (kept_set_slot n (set_world m w)).
Qed.

Lemma destroy_at_kept n p m :
  wp (destroy_at p) m (fun _ m' => kept n (it_block p) m m') (fun _ _ => False).
Proof.
  unfold destroy_at. apply wp_bind, wp_load. intros x _.
  apply (kept_set_slot n (set_world m _)).
Qed.

Lemma operator_new_kept n c m :
  (n <= fresh m)%nat ->
  wp (operator_new c) m
     (fun p m' => p = Block (fresh m) /\ kept n nullptr m m' /\
                  fresh m' = S (fresh m))
     (fun _ _ => False).
Proof.
  intros Hn. unfold wp, operator_new. split; [reflexivity | split; [|reflexivity]].
  split; simpl; [lia|]. intros b Hb _. apply lookup_insert_ne. lia.
Qed.

Lemma operator_delete_kept n p m :
  wp (operator_delete p) m (fun _ m' => kept n p m m') (fun _ _ => False).
Proof.
  unfold wp, operator_delete. destruct p as [|b]; [apply kept_refl|].
  destruct (heap m !! b); [|exact I].
  split; simpl; [lia|]. intros b' _ Hb'. apply lookup_delete_ne. congruence.
Qed.

Lemma destroy_from_kept n data k :
  forall i m,
    wp (destroy_from data i k) m (fun _ m' => kept n data m m') (fun _ _ => False).
Proof.
  induction k as [|k IH]; intros i m.
  - apply wp_ret, kept_refl.
  - cbn [destroy_from]. apply wp_bind.
    eapply wp_mono; [apply (destroy_at_kept n) | | auto].
    intros [] m1 H1. simpl in H1.
    eapply wp_mono; [apply IH | | auto].
    intros [] m2 H2. eapply kept_trans; eassumption.
Qed.

Lemma vector_dtor_kept n v m :
  wp (vector_dtor v) m (fun _ m' => kept n (data_ v) m m') (fun _ _ => False).
Proof.
  unfold vector_dtor. apply wp_bind.
  eapply wp_mono; [apply (destroy_from_kept n) | | auto].
  intros [] m1 H1.
  eapply wp_mono; [apply (operator_delete_kept n) | | auto].
  intros [] m2 H2. eapply kept_trans; eassumption.
Qed.

Lemma construct_from_kept n dst src k :
  forall i m,
    wp (construct_from dst src k) (i, m)
       (fun _ im => kept n (it_block dst) m (snd im))
       (fun _ im => kept n (it_block dst) m (snd im)).
Proof.
  induction k as [|k IH]; intros i m.
  - apply wp_ret, kept_refl.
  - unfold wp. cbn [construct_from fst snd].
    pose proof (construct_at_kept n (it_add dst i) (Elem (it_add src i)) m) as H.
    unfold wp in H.
    destruct (construct_at _ _ m) as [[] m1|e m1| |]; try exact I.
    + specialize (IH (i + 1) m1). unfold wp in IH.
      destruct (construct_from dst src k (i + 1, m1)) as [[] im|e im| |];
        try exact I; eapply kept_trans; eassumption.
    + simpl. eapply kept_outside; [|exact H]. exact I.
Qed.

Lemma unwind_kept n dst k :
  forall i m,
    wp (unwind dst i k) m (fun _ m' => kept n (it_block dst) m m') (fun _ _ => False).
Proof.
  induction k as [|k IH]; intros i m.
  - apply wp_ret, kept_refl.
  - cbn [unwind]. apply wp_bind.
    eapply wp_mono; [apply (destroy_at_kept n) | | auto].
    intros [] m1 H1. simpl in H1.
    eapply wp_mono; [apply IH | | auto].
    intros [] m2 H2. eapply kept_trans; eassumption.
Qed.

Lemma copy_construct_all_kept n dst src sz m :
  wp (copy_construct_all dst src sz) m
     (fun _ m' => kept n (it_block dst) m m')
     (fun _ m' => kept n (it_block dst) m m').
Proof.
  unfold wp, copy_construct_all.
  pose proof (construct_from_kept n dst src (Z.to_nat sz) 0 m) as H.
  unfold wp in H.
  destruct (construct_from _ _ _ _) as [[] im|e im| |]; try exact I; [exact H|].
  pose proof (unwind_kept n dst (Z.to_nat (fst im)) (fst im) (snd im)) as H'.
  unfold wp in H'.
  destruct (unwind _ _ _ _) as [[] m'|e' m'| |]; try exact I; [|contradiction].
  eapply kept_trans; eassumption.
Qed.

(** ** Strong exception safety *)

Lemma new_buffer_rebuilds n c v m :
  (n <= fresh m)%nat ->
  wp (new_buffer c) (v, m)
     (fun _ s' => kept n (data_ v) m (snd s') /\ data_ (fst s') = Block (fresh m))
     (fun _ s' => fst s' = v /\ kept n nullptr m (snd s')).
Proof.
  intros Hn. unfold new_buffer.
  apply wp_bind, wp_this. cbn [fst snd].
  apply wp_bind, wp_assert. intros _.
  apply wp_with_local, wp_ret. cbn [fst snd].
  apply wp_bind, wp_under, wp_under. cbn [fst snd].
  eapply wp_mono; [apply (operator_new_kept n); exact Hn | | contradiction].
  intros p m1 (-> & H1 & Hf1).
  apply wp_bind, wp_on_local. unfold wp at 1. cbn [set_data_ fst snd].
  apply wp_bind, wp_on_local. unfold wp at 1. cbn [set_capacity_ fst snd data_ size_ capacity_ vector_ctor].
  apply wp_bind, wp_on_local, wp_this. cbn [fst snd].
  apply wp_bind, wp_under, wp_this. cbn [fst snd data_ size_].
  apply wp_bind, wp_under, wp_under. cbn [fst snd].
  eapply wp_mono; [apply (copy_construct_all_kept n) | | ]; cbn [it_block fst snd].
  - intros [] m2 H2.
    apply wp_bind, wp_on_local. unfold wp at 1. cbn [set_size_ fst snd data_ size_ capacity_].
    unfold wp at 1. cbn [swap_local swap fst snd data_ size_ capacity_].
    eapply wp_mono; [apply (vector_dtor_kept n) | | contradiction ].
    intros [] m3 H3. cbn [data_] in H3. split.
    + eapply kept_trans; [|exact H3].
      eapply kept_outside with (p := nullptr); [exact I|].
      eapply kept_trans; [exact H1|].
      eapply kept_outside; [|exact H2]. exact Hn.
    + reflexivity.
  - intros e m2 H2.
    eapply wp_mono; [apply (vector_dtor_kept n) | | contradiction ].
    intros [] m3 H3. cbn [data_] in H3. split; [reflexivity|].
    eapply kept_trans; [exact H1|].
    eapply kept_trans; eapply kept_outside; try eassumption; exact Hn.
Qed.

Lemma new_buffer_safe n c v m :
  (n <= fresh m)%nat -> strongly_safe n (new_buffer c) v m.
Proof.
  intros Hn. unfold strongly_safe.
  eapply wp_mono; [apply (new_buffer_rebuilds n); exact Hn | | auto].
  intros [] s' [H1 H2]. split; [exact H1|].
  right. exists (fresh m). split; [exact H2 | lia].
Qed.

Lemma moved_block n n' v v' b :
  data_ v = Block b -> (n <= b)%nat -> (n <= n')%nat ->
  moved n' v v' -> exists b', data_ v' = Block b' /\ (n <= b')%nat.
Proof.
  intros Hb Hn Hn' [[Hd _]|(b' & Hd & Hb')].
  - exists b. rewrite Hd. auto.
  - exists b'. split; [exact Hd | lia].
Qed.

Lemma push_back_safe fuel val :
  forall n v m, (n <= fresh m)%nat -> strongly_safe n (push_back fuel val) v m.
Proof.
  induction fuel as [|fuel IH]; intros n v m Hn; [exact I|].
  unfold strongly_safe. cbn [push_back].
  apply wp_bind, wp_this. cbn [fst snd].
  destruct (decide (size_ v <> capacity_ v)) as [Hne|Heq].
  - apply wp_bind, wp_under. cbn [fst snd].
    eapply wp_mono; [apply (construct_at_kept n) | | ]; cbn [it_block].
    + intros [] m1 H1. unfold wp. cbn [set_size_ fst snd data_ capacity_].
      split; [exact H1 | left; auto].
    + intros e m1 H1. auto.
  - unfold push_back_realloc.
    apply wp_with_local, wp_ret. cbn [fst snd].
    apply wp_bind, wp_under, wp_this. cbn [fst snd].
    apply wp_bind, wp_on_local. cbn [fst snd].
    eapply wp_mono; [apply (new_buffer_rebuilds n); exact Hn | | ]; cbn [fst snd].
    + intros [] [tmp1 m1] [H1 Hd1]. cbn [fst snd data_ vector_ctor] in *.
      apply wp_bind, wp_on_local, wp_this. cbn [fst snd].
      apply wp_bind, wp_under, wp_under. cbn [fst snd].
      eapply wp_mono; [apply (copy_construct_all_kept n) | | ];
        cbn [it_block fst snd].
      * intros [] m2 H2. rewrite Hd1 in H2.
        apply wp_bind, wp_on_local. unfold wp at 1.
        cbn [set_size_ fst snd data_ size_ capacity_].
        assert (Hm2 : kept n nullptr m m2).
        { eapply kept_trans; [exact H1|].
          eapply kept_outside; [|exact H2]. exact Hn. }
        assert (Hf2 : (n <= fresh m2)%nat) by (destruct Hm2; lia).
        apply wp_bind, wp_on_local. cbn [fst snd].
        eapply wp_mono; [apply (IH n); exact Hf2 | | ]; cbn [fst snd data_].
        -- intros [] [tmp3 m3] [H3 Hmv]. cbn [fst snd] in *.
           destruct (moved_block (fresh m) (fresh m2) _ _ _ Hd1 (le_n _)
                       ltac:(destruct Hm2; lia) Hmv) as (b3 & Hd3 & Hb3).
           unfold wp at 1. cbn [swap_local swap fst snd data_ size_ capacity_].
           eapply wp_mono; [apply (vector_dtor_kept n) | | contradiction ].
           intros [] m4 H4. cbn [data_] in H4. split.
           ++ eapply kept_trans; [|exact H4].
              eapply kept_outside with (p := nullptr); [exact I|].
              eapply kept_trans; [exact Hm2|].
              eapply kept_outside; [|exact H3]. rewrite Hd1. exact Hn.
           ++ right. exists b3. split; [|exact Hb3].
              rewrite <- Hd3. destruct tmp3; reflexivity.
        -- intros e [tmp3 m3] [-> H3]. cbn [fst snd] in *.
           eapply wp_mono; [apply (vector_dtor_kept n) | | contradiction ].
           intros [] m4 H4. cbn [data_] in H4. split; [reflexivity|].
           eapply kept_trans; [exact Hm2|].
           eapply kept_trans; [exact H3|].
           eapply kept_outside; [|exact H4]. rewrite Hd1. exact Hn.
      * intros e m2 H2. rewrite Hd1 in H2.
        eapply wp_mono; [apply (vector_dtor_kept n) | | contradiction ].
        intros [] m3 H3. rewrite Hd1 in H3. split; [reflexivity|].
        eapply kept_trans; [exact H1|].
        eapply kept_trans; eapply kept_outside; try eassumption; exact Hn.
    + intros e [tmp1 m1] [-> H1]. cbn [fst snd] in *.
      eapply wp_mono; [apply (vector_dtor_kept n) | | contradiction ].
      intros [] m2 H2. cbn [data_ vector_ctor] in H2. split; [reflexivity|].
      eapply kept_trans; eassumption.
Qed.

Lemma insert_growth_safe fuel pos val n v m :
  size_ v = capacity_ v ->
  (n <= fresh m)%nat ->
  strongly_safe n (insert fuel pos val) v m.
Proof.
  intros Hfull Hn. unfold strongly_safe, insert.
  apply wp_bind, wp_this. cbn [fst snd].
  rewrite decide_True by exact Hfull.
  apply wp_with_local, wp_ret. cbn [fst snd].
  apply wp_bind, wp_under, wp_this. cbn [fst snd].
  apply wp_bind, wp_on_local. cbn [fst snd].
  eapply wp_mono; [apply (new_buffer_rebuilds n); exact Hn | | ]; cbn [fst snd].
  - intros [] [tmp1 m1] [H1 Hd1]. cbn [fst snd data_ vector_ctor] in *.
    apply wp_bind, wp_on_local, wp_this. cbn [fst snd].
    apply wp_bind, wp_ptr_diff. intros _.
    apply wp_bind, wp_under, wp_under. cbn [fst snd].
    eapply wp_mono; [apply (copy_construct_all_kept n) | | ];
      cbn [it_block fst snd].
    + intros [] m2 H2. rewrite Hd1 in H2.
      apply wp_bind, wp_on_local. unfold wp at 1.
      cbn [set_size_ fst snd data_ size_ capacity_].
      apply wp_bind, wp_on_local, wp_this. cbn [fst snd].
      assert (Hm2 : kept n nullptr m m2).
      { eapply kept_trans; [exact H1|].
        eapply kept_outside; [|exact H2]. exact Hn. }
      assert (Hf2 : (n <= fresh m2)%nat) by (destruct Hm2; lia).
      apply wp_bind, wp_on_local. cbn [fst snd].
      eapply wp_mono; [apply (push_back_safe fuel val n); exact Hf2 | | ];
        cbn [fst snd data_].
      * intros [] [tmp3 m3] [H3 Hmv]. cbn [fst snd] in *.
        destruct (moved_block (fresh m) (fresh m2) _ _ _ Hd1 (le_n _)
                    ltac:(destruct Hm2; lia) Hmv) as (b3 & Hd3 & Hb3).
        assert (Hm3 : kept n nullptr m m3).
        { eapply kept_trans; [exact Hm2|].
          eapply kept_outside; [|exact H3]. rewrite Hd1. exact Hn. }
        apply wp_bind, wp_on_local, wp_this. cbn [fst snd].
        apply wp_bind, wp_ptr_diff. intros _.
        apply wp_bind, wp_under, wp_under. cbn [fst snd].
        eapply wp_mono; [apply (copy_construct_all_kept n) | | ];
          cbn [it_block end_ fst snd].
        -- intros [] m4 H4. rewrite Hd3 in H4.
           apply wp_bind, wp_on_local. unfold wp at 1.
           cbn [set_size_ fst snd data_ size_ capacity_].
           apply wp_bind. unfold wp at 1.
           cbn [swap_local swap fst snd data_ size_ capacity_].
           apply wp_ret. cbn [fst snd].
           eapply wp_mono; [apply (vector_dtor_kept n) | | contradiction ].
           intros [] m5 H5. cbn [data_] in H5. split.
           ++ eapply kept_trans; [|exact H5].
              eapply kept_outside with (p := nullptr); [exact I|].
              eapply kept_trans; [exact Hm3|].
              eapply kept_outside; [|exact H4]. simpl. lia.
           ++ right. exists b3. auto.
        -- intros e m4 H4. rewrite Hd3 in H4.
           eapply wp_mono; [apply (vector_dtor_kept n) | | contradiction ].
           intros [] m5 H5. rewrite Hd3 in H5. split; [reflexivity|].
           eapply kept_trans; [exact Hm3|].
           eapply kept_trans; eapply kept_outside; try eassumption; simpl; lia.
      * intros e [tmp3 m3] [-> H3]. cbn [fst snd] in *.
        eapply wp_mono; [apply (vector_dtor_kept n) | | contradiction ].
        intros [] m4 H4. cbn [data_] in H4. split; [reflexivity|].
        eapply kept_trans; [exact Hm2|].
        eapply kept_trans; [exact H3|].
        eapply kept_outside; [|exact H4]. rewrite Hd1. exact Hn.
    + intros e m2 H2. rewrite Hd1 in H2.
      eapply wp_mono; [apply (vector_dtor_kept n) | | contradiction ].
      intros [] m3 H3. rewrite Hd1 in H3. split; [reflexivity|].
      eapply kept_trans; [exact H1|].
      eapply kept_trans; eapply kept_outside; try eassumption; exact Hn.
  - intros e [tmp1 m1] [-> H1]. cbn [fst snd] in *.
    eapply wp_mono; [apply (vector_dtor_kept n) | | contradiction ].
    intros [] m2 H2. cbn [data_ vector_ctor] in H2. split; [reflexivity|].
    eapply kept_trans; eassumption.
Qed.

Lemma holds_kept m m' v xs :
  kept (fresh m) nullptr m m' -> holds m v xs -> holds m' v xs.
Proof.
  intros [Hf Hk] (Hs & Hc & Hfit & Hd).
  split; [exact Hs | split; [exact Hc | split; [exact Hfit|]]].
  destruct (data_ v) as [|b]; [exact Hd|].
  destruct Hd as [Hb Hd]. split; [lia|].
  rewrite Hk; [exact Hd | exact Hb | discriminate].
Qed.

(** C1: if [reserve], [shrink_to_fit], a [push_back] that has to grow or an
    [insert] that has to grow throws (in this model only the copy
    constructor of an element throws on these paths), then the container has
    the [size_], [capacity_] and [data_] it had before the call, every
    buffer that existed before the call has the content it had, and so the
    container holds the same elements. *)
Theorem strong_exception_safety
    (fuel : nat) (c : call) (m : memory T) (v : vector) (e : E)
    (v' : vector) (m' : memory T) :
  capacity_changing v c ->
  run fuel c (v, m) = Throw e (v', m') ->
  v' = v /\
  (forall b, (b < fresh m)%nat -> heap m' !! b = heap m !! b) /\
  (forall xs, holds m v xs -> holds m' v xs).
Proof.
  intros Hc Hrun.
  assert (Hsafe : v' = v /\ kept (fresh m) nullptr m m').
  { destruct c; simpl in Hc; try contradiction; cbn [run] in Hrun.
    - unfold reserve, bind, this in Hrun. cbn [fst snd] in Hrun.
      destruct (decide _); [discriminate|].
      exact (wp_throw_inv _ _ _ _ _ _
               (new_buffer_safe (fresh m) _ v m (le_n _)) Hrun).
    - unfold shrink_to_fit, bind, this in Hrun. cbn [fst snd] in Hrun.
      destruct (decide _); [discriminate|].
      exact (wp_throw_inv _ _ _ _ _ _
               (new_buffer_safe (fresh m) _ v m (le_n _)) Hrun).
    - exact (wp_throw_inv _ _ _ _ _ _
               (push_back_safe fuel val (fresh m) v m (le_n _)) Hrun).
    - unfold bind in Hrun.
      destruct (insert fuel pos val (v, m)) as [a s|e' s| |] eqn:Hi;
        try discriminate.
      injection Hrun as -> ->.
      exact (wp_throw_inv _ _ _ _ _ _
               (insert_growth_safe fuel pos val (fresh m) v m Hc (le_n _)) Hi). }
  destruct Hsafe as [-> Hk]. split; [reflexivity | split].
  - intros b Hb. destruct Hk as [_ Hk]. apply Hk; [exact Hb | discriminate].
  - intros xs. apply holds_kept. exact Hk.
Qed.

(** ** The growth law *)

(** The fields of the container once [new_buffer] has returned. *)
Lemma new_buffer_fields c v m :
  wp (new_buffer c) (v, m)
     (fun _ s' => fst s' = Vec (Block (fresh m)) (size_ v) c)
     (fun _ _ => True).
Proof.
  unfold new_buffer.
  apply wp_bind, wp_this. cbn [fst snd].
  apply wp_bind, wp_assert. intros _.
  apply wp_with_local, wp_ret. cbn [fst snd].
  apply wp_bind, wp_under, wp_under. cbn [fst snd].
  unfold wp at 1, operator_new.
  apply wp_bind, wp_on_local. unfold wp at 1. cbn [set_data_ fst snd].
  apply wp_bind, wp_on_local. unfold wp at 1.
  cbn [set_capacity_ fst snd data_ size_ capacity_ vector_ctor].
  apply wp_bind, wp_on_local, wp_this. cbn [fst snd].
  apply wp_bind, wp_under, wp_this. cbn [fst snd data_ size_].
  apply wp_bind, wp_under, wp_under. cbn [fst snd].
  eapply wp_mono; [apply wp_trivial | | intros; apply wp_trivial].
  intros [] m2 _.
  apply wp_bind, wp_on_local. unfold wp at 1.
  cbn [set_size_ fst snd data_ size_ capacity_].
  unfold wp at 1. cbn [swap_local swap fst snd data_ size_ capacity_].
  eapply wp_mono; [apply wp_trivial | | auto].
  intros [] m3 _. reflexivity.
Qed.

(** Where the growth formula returns the current capacity, a call of
    [push_back] at [size == capacity] does not return, whatever its
    argument and the element kind: the call on the new buffer meets
    [size == capacity] again. *)
Lemma push_back_stalls fuel val :
  forall v m,
    size_ v = capacity_ v ->
    increase_capacity v = capacity_ v ->
    wp (push_back fuel val) (v, m) (fun _ _ => False) (fun _ _ => True).
Proof.
  induction fuel as [|fuel IH]; intros v m Hfull Hinc; [exact I|].
  cbn [push_back]. apply wp_bind, wp_this. cbn [fst snd].
  rewrite decide_False by (intros Hne; apply Hne; exact Hfull).
  unfold push_back_realloc.
  apply wp_with_local, wp_ret. cbn [fst snd].
  apply wp_bind, wp_under, wp_this. cbn [fst snd].
  apply wp_bind, wp_on_local. cbn [fst snd].
  eapply wp_mono; [apply new_buffer_fields | | intros; apply wp_trivial].
  intros [] [tmp1 m1] Htmp. cbn [fst snd size_ vector_ctor] in *. subst tmp1.
  apply wp_bind, wp_on_local, wp_this. cbn [fst snd].
  apply wp_bind, wp_under, wp_under. cbn [fst snd].
  eapply wp_mono; [apply wp_trivial | | intros; apply wp_trivial].
  intros [] m2 _.
  apply wp_bind, wp_on_local. unfold wp at 1.
  cbn [set_size_ fst snd data_ size_ capacity_].
  apply wp_bind, wp_on_local. cbn [fst snd].
  eapply wp_mono; [apply (IH _ m2) | | intros; apply wp_trivial].
  - cbn [size_ capacity_]. lia.
  - unfold increase_capacity in *. cbn [capacity_]. rewrite Hinc. exact Hinc.
  - intros [] s' [].
Qed.

(** Every return of a [push_back] that was called at [size == capacity]
    leaves the capacity that [increase_capacity] computed. *)
Lemma push_back_grows_to fuel val v m :
  size_ v = capacity_ v ->
  wp (push_back fuel val) (v, m)
     (fun _ s' => capacity_ (fst s') = increase_capacity v)
     (fun _ _ => True).
Proof.
  intros Hfull. destruct fuel as [|fuel]; [exact I|].
  cbn [push_back]. apply wp_bind, wp_this. cbn [fst snd].
  rewrite decide_False by (intros Hne; apply Hne; exact Hfull).
  unfold push_back_realloc.
  apply wp_with_local, wp_ret. cbn [fst snd].
  apply wp_bind, wp_under, wp_this. cbn [fst snd].
  apply wp_bind, wp_on_local. cbn [fst snd].
  eapply wp_mono; [apply new_buffer_fields | | intros; apply wp_trivial].
  intros [] [tmp1 m1] Htmp. cbn [fst snd size_ vector_ctor] in *. subst tmp1.
  apply wp_bind, wp_on_local, wp_this. cbn [fst snd].
  apply wp_bind, wp_under, wp_under. cbn [fst snd].
  eapply wp_mono; [apply wp_trivial | | intros; apply wp_trivial].
  intros [] m2 _.
  apply wp_bind, wp_on_local. unfold wp at 1.
  cbn [set_size_ fst snd data_ size_ capacity_].
  apply wp_bind, wp_on_local. cbn [fst snd].
  destruct (decide (size_ v = increase_capacity v)) as [Hstuck|Hroom].
  - eapply wp_mono;
      [ apply (push_back_stalls fuel val _ m2) | | intros; apply wp_trivial ].
    + cbn [size_ capacity_]. exact Hstuck.
    + unfold increase_capacity in *. cbn [capacity_].
      rewrite <- Hstuck, Hfull. rewrite Hfull in Hstuck. symmetry. exact Hstuck.
    + intros [] s' [].
  - destruct fuel as [|fuel]; [exact I|].
    cbn [push_back]. apply wp_bind, wp_this. cbn [fst snd size_ capacity_].
    rewrite decide_True by exact Hroom.
    apply wp_bind, wp_under. cbn [fst snd].
    eapply wp_mono; [apply wp_trivial | | intros; apply wp_trivial].
    intros [] m3 _. unfold wp at 1. cbn [set_size_ fst snd data_ size_ capacity_].
    unfold wp at 1. cbn [swap_local swap fst snd data_ size_ capacity_].
    eapply wp_mono; [apply wp_trivial | | auto].
    intros [] m4 _. reflexivity.
Qed.

(** C5: the growth law.  For every container state with
    [size == capacity], every argument and every element kind: whenever
    [push_back] returns, the capacity is exactly 4 if it was 0 and exactly
    [capacity * 3 / 2] otherwise, the product being taken in the machine
    word.  And the call does return, with the old elements followed by the
    new one in a buffer of that capacity, when the container is well
    formed, the formula yields more than the current capacity and a byte
    size that is a [size_t], and no copy throws. *)
Theorem push_back_growth_law (m : memory T) (v : vector) :
  size v = capacity v ->
  let grown := if capacity v =? 0 then 4 else wrap (capacity v * 3) / 2 in
  (forall fuel val v' m',
     push_back fuel val (v, m) = Ret tt (v', m') -> capacity v' = grown) /\
  (forall xs x w2 fuel,
     holds m v xs ->
     capacity v < grown ->
     fits grown ->
     copy_each (xs ++ [x]) (world m) = Some w2 ->
     (2 <= fuel)%nat ->
     exists v' m',
       push_back fuel (Value x) (v, m) = Ret tt (v', m') /\
       capacity v' = grown /\
       holds m' v' (xs ++ [x])).
Proof.
  intros Heq grown. unfold size, capacity in *.
  change grown with (increase_capacity v). clear grown. split.
  - intros fuel val v' m' Hrun.
    apply (wp_ret_inv _ _ _ _ _ _ (push_back_grows_to fuel val v m Heq) Hrun).
  - intros xs x w2 fuel Hv Hgrow Hfit Hc Hfuel.
    apply copy_each_app in Hc as (w1 & Hc1 & Hc2). simpl in Hc2.
    destruct (copy_constructor x w1) as [w2' [e|]] eqn:Hx; [discriminate|].
    injection Hc2 as ->.
    assert (Hcap : 0 <= capacity_ v < 2 ^ size_bits)
      by (destruct Hv as (? & ? & _); lia).
    pose proof (increase_capacity_bound v ltac:(lia)) as Hb.
    assert (Hlen : size_ v = Z.of_nat (length xs)) by (destruct Hv; assumption).
    destruct fuel as [|[|fuel]]; [lia | lia |].
    exists (Vec (Block (fresh m)) (size_ v + 1) (increase_capacity v)),
           (Mem (<[fresh m := buffer (xs ++ [x]) (increase_capacity v)]>
                   (without (data_ v) (heap m)))
                (S (fresh m)) (destroy_each xs w2)).
    split; [| split].
    + rewrite push_back_S. cbn [fst snd].
      rewrite decide_False by lia.
      rewrite (push_back_realloc_run _ _ m v xs w1);
        [ | exact Hv | lia | exact Hfit | exact Hc1 ].
      rewrite Hlen.
      erewrite (push_back_spare _ _ xs x w2 (fresh m));
        [ | apply holds_in_fresh; [lia | lia | exact Hfit | lia]
          | simpl; lia | reflexivity | exact Hx ].
      cbn [fst snd data_ size_ capacity_ heap fresh world].
      rewrite insert_insert_eq.
      erewrite (vector_dtor_ok _ v xs);
        [ | apply holds_fresh_insert; [exact Hv | simpl; lia | simpl; lia] ].
      cbn [heap fresh world].
      destruct (data_ v) as [|b] eqn:Hd; cbn [without]; [reflexivity|].
      rewrite delete_insert_ne; [reflexivity|].
      destruct Hv as (_ & _ & _ & Hv). rewrite Hd in Hv. lia.
    + reflexivity.
    + rewrite Hlen.
      replace (Z.of_nat (length xs) + 1) with (Z.of_nat (length (xs ++ [x])))
        by (rewrite length_app; simpl; lia).
      apply holds_in_fresh;
        [rewrite length_app; simpl; lia | lia | exact Hfit | lia].
Qed.

(** ** The fields after a call *)

Lemma moved_refl n v : moved n v v.
Proof. left. auto. Qed.

Lemma moved_weaken n n' v v' : (n' <= n)%nat -> moved n v v' -> moved n' v v'.
Proof.
  intros Hn [H|(b & Hb & Hle)]; [left; exact H|].
  right. exists b. split; [exact Hb | lia].
Qed.

Lemma moved_null_only_if_empty v v' :
  moved 0 v v' -> null_only_if_empty v -> null_only_if_empty v'.
Proof.
  unfold null_only_if_empty.
  intros [[Hd Hc]|(b & Hb & _)] Hv Hn.
  - rewrite Hc. apply Hv. rewrite <- Hd. exact Hn.
  - congruence.
Qed.

Lemma strongly_safe_moved {A} n (op : M (vector * memory T) A) v m :
  strongly_safe n op v m ->
  wp op (v, m) (fun _ s' => moved 0 v (fst s')) (fun _ s' => moved 0 v (fst s')).
Proof.
  intros H. eapply wp_mono; [exact H | | ].
  - intros a s' [_ Hm]. eapply moved_weaken; [|exact Hm]. lia.
  - intros e s' [-> _]. apply moved_refl.
Qed.

(** A statement that runs on the memory only leaves [*this] alone. *)
Lemma wp_under_this {A} (op : M (memory T) A) (v : vector) (m : memory T) :
  wp (under op) (v, m) (fun _ s' => fst s' = v) (fun _ s' => fst s' = v).
Proof.
  unfold wp, under. cbn [fst snd]. destruct (op m); auto.
Qed.

Lemma insert_shift_this fuel :
  forall i pos v m,
    wp (insert_shift fuel i pos) (v, m)
       (fun _ s' => fst s' = v) (fun _ s' => fst s' = v).
Proof.
  induction fuel as [|fuel IH]; intros i pos v m; [exact I|].
  cbn [insert_shift]. destruct (decide (i <> pos)); [|reflexivity].
  apply wp_bind.
  eapply wp_mono; [apply wp_under_this | | auto].
  intros [] [v1 m1] Hv. cbn [fst] in Hv. subst v1. apply IH.
Qed.

Lemma erase_shift_this fuel :
  forall first last v m,
    wp (erase_shift fuel first last) (v, m)
       (fun _ s' => fst s' = v) (fun _ s' => fst s' = v).
Proof.
  induction fuel as [|fuel IH]; intros first last v m; [exact I|].
  cbn [erase_shift]. apply wp_bind, wp_this. cbn [fst].
  destruct (decide (last <> end_ v)); [|reflexivity].
  apply wp_bind.
  eapply wp_mono; [apply wp_under_this | | auto].
  intros [] [v1 m1] Hv. cbn [fst] in Hv. subst v1. apply IH.
Qed.

Lemma erase_destroy_this fuel :
  forall first last v m,
    wp (erase_destroy fuel first last) (v, m)
       (fun _ s' => fst s' = v) (fun _ s' => fst s' = v).
Proof.
  induction fuel as [|fuel IH]; intros first last v m; [exact I|].
  cbn [erase_destroy]. destruct (decide (first <> last)); [|reflexivity].
  apply wp_bind.
  eapply wp_mono; [apply wp_under_this | | auto].
  intros [] [v1 m1] Hv. cbn [fst] in Hv. subst v1. apply IH.
Qed.

Lemma erase_moved fuel first last v m :
  wp (erase fuel first last) (v, m)
     (fun _ s' => moved 0 v (fst s')) (fun _ s' => moved 0 v (fst s')).
Proof.
  unfold erase. apply wp_bind.
  eapply wp_mono; [apply erase_shift_this | | ].
  - intros fl [v1 m1] Hv. cbn [fst] in Hv. subst v1.
    apply wp_bind, wp_this. cbn [fst].
    apply wp_bind, wp_ptr_diff. intros _.
    apply wp_bind. unfold wp at 1. cbn [set_size_ fst snd].
    apply wp_bind.
    eapply wp_mono; [apply erase_destroy_this | | ].
    + intros [] [v2 m2] Hv. cbn [fst] in Hv. subst v2.
      apply wp_ret. left. auto.
    + intros e [v2 m2] Hv. cbn [fst] in Hv. subst v2. left. auto.
  - intros e [v1 m1] Hv. cbn [fst] in Hv. subst v1. apply moved_refl.
Qed.

Lemma insert_moved fuel pos val v m :
  wp (insert fuel pos val) (v, m)
     (fun _ s' => moved 0 v (fst s')) (fun _ s' => moved 0 v (fst s')).
Proof.
  destruct (decide (size_ v = capacity_ v)) as [Hfull|Hspare].
  - apply (strongly_safe_moved (fresh m)).
    apply insert_growth_safe; [exact Hfull | lia].
  - unfold insert. apply wp_bind, wp_this. cbn [fst].
    rewrite decide_False by exact Hspare.
    apply wp_bind. unfold back. apply wp_bind, wp_this, wp_ret. cbn [fst].
    apply wp_bind.
    eapply wp_mono;
      [apply (strongly_safe_moved (fresh m)), push_back_safe; lia | | auto].
    intros [] [v1 m1] Hm1. cbn [fst] in Hm1.
    apply wp_bind, wp_this. cbn [fst].
    apply wp_bind.
    eapply wp_mono; [apply insert_shift_this | | ].
    + intros [] [v2 m2] Hv. cbn [fst] in Hv. subst v2.
      apply wp_bind.
      eapply wp_mono; [apply wp_under_this | | ].
      * intros [] [v3 m3] Hv. cbn [fst] in Hv. subst v3.
        apply wp_ret. exact Hm1.
      * intros e [v3 m3] Hv. cbn [fst] in Hv. subst v3. exact Hm1.
    + intros e [v2 m2] Hv. cbn [fst] in Hv. subst v2. exact Hm1.
Qed.

(** Whatever a call does, the container ends with the buffer and the
    capacity it had, or with a buffer. *)
Lemma run_moved fuel c v m :
  wp (run fuel c) (v, m)
     (fun _ s' => moved 0 v (fst s')) (fun _ s' => moved 0 v (fst s')).
Proof.
  destruct c; cbn [run].
  - unfold reserve. apply wp_bind, wp_this. cbn [fst].
    destruct (decide _); [apply wp_ret, moved_refl|].
    apply (strongly_safe_moved (fresh m)), new_buffer_safe. lia.
  - unfold shrink_to_fit. apply wp_bind, wp_this. cbn [fst].
    destruct (decide _); [apply wp_ret, moved_refl|].
    apply (strongly_safe_moved (fresh m)), new_buffer_safe. lia.
  - unfold clear. apply wp_bind, wp_this. cbn [fst].
    apply wp_bind.
    eapply wp_mono; [apply wp_under_this | | ].
    + intros [] [v1 m1] Hv. cbn [fst] in Hv. subst v1. left. auto.
    + intros e [v1 m1] Hv. cbn [fst] in Hv. subst v1. apply moved_refl.
  - apply (strongly_safe_moved (fresh m)), push_back_safe. lia.
  - unfold pop_back. apply wp_bind, wp_this. cbn [fst].
    apply wp_bind, wp_assert. intros _.
    apply wp_bind.
    eapply wp_mono; [apply wp_under_this | | ].
    + intros [] [v1 m1] Hv. cbn [fst] in Hv. subst v1. left. auto.
    + intros e [v1 m1] Hv. cbn [fst] in Hv. subst v1. apply moved_refl.
  - apply wp_bind.
    eapply wp_mono; [apply insert_moved | | auto].
    intros a s' H. exact H.
  - apply wp_bind. unfold erase_one.
    eapply wp_mono; [apply erase_moved | | auto].
    intros a s' H. exact H.
  - apply wp_bind.
    eapply wp_mono; [apply erase_moved | | auto].
    intros a s' H. exact H.
Qed.

Lemma vector_copy_ctor_block other m :
  wp (vector_copy_ctor other) m
     (fun v' _ => exists b, data_ v' = Block b) (fun _ _ => True).
Proof.
  assert (H : wp (bind (new_buffer (size other))
                    (fun _ => bind this (fun self =>
                       bind (under (copy_construct_all (Iter (data_ self) 0)
                                      (Iter (data_ other) 0) (size_ other)))
                            (fun _ => set_size_ (size_ other)))))
                 (vector_ctor, m)
                 (fun _ s' => exists b, data_ (fst s') = Block b)
                 (fun _ _ => True)).
  { apply wp_bind.
    eapply wp_mono; [apply (new_buffer_rebuilds 0); lia | | auto].
    intros [] [v1 m1] [_ Hd]. cbn [fst] in Hd.
    apply wp_bind, wp_this. cbn [fst].
    apply wp_bind.
    eapply wp_mono; [apply wp_under_this | | auto].
    intros [] [v2 m2] Hv. cbn [fst] in Hv. subst v2.
    unfold wp. cbn [set_size_ fst data_]. eauto. }
  unfold wp in *. unfold vector_copy_ctor.
  destruct (bind _ _ _) as [[] s|e s| |]; auto.
  destruct (vector_dtor _ _); auto.
Qed.

Lemma operator_assign_moved other v m :
  wp (operator_assign other) (v, m)
     (fun _ s' => moved 0 v (fst s')) (fun _ s' => moved 0 v (fst s')).
Proof.
  unfold operator_assign. apply wp_with_local. cbn [fst snd].
  eapply wp_mono; [apply vector_copy_ctor_block | | ].
  - intros tmp m1 (b & Hb). unfold wp at 1.
    cbn [swap_local swap fst snd data_ size_ capacity_].
    eapply wp_mono; [apply (vector_dtor_kept 0) | | contradiction].
    intros [] m2 _. right. exists b. split; [exact Hb | lia].
  - intros e m1 _. apply moved_refl.
Qed.

Lemma step_null_only_if_empty vs m vs' m' :
  step (vs, m) (vs', m') ->
  Forall null_only_if_empty vs -> Forall null_only_if_empty vs'.
Proof.
  intros Hstep Hall.
  inversion Hstep as
    [ vs0 m0
    | vs0 m0 i v v1 m1 Hi Hrun
    | vs0 m0 i v e m1 Hi Hrun
    | vs0 m0 i v fuel c v1 m1 Hi Hrun
    | vs0 m0 i v fuel c e v1 m1 Hi Hrun
    | vs0 m0 i j v u v1 m1 Hi Hj Hrun
    | vs0 m0 i j v u e v1 m1 Hi Hj Hrun
    | vs0 m0 i j v u Hi Hj ]; subst.
  - apply Forall_app. split; [exact Hall|].
    constructor; [|constructor]. intros _. reflexivity.
  - apply Forall_app. split; [exact Hall|].
    constructor; [|constructor].
    destruct (wp_ret_inv _ _ _ _ _ _ (vector_copy_ctor_block v m) Hrun) as (b & Hb).
    intros Hn. congruence.
  - exact Hall.
  - apply Forall_insert; [exact Hall|].
    eapply moved_null_only_if_empty;
      [exact (wp_ret_inv _ _ _ _ _ _ (run_moved fuel c v m) Hrun)|].
    eapply Forall_lookup_1; eassumption.
  - apply Forall_insert; [exact Hall|].
    eapply moved_null_only_if_empty;
      [exact (wp_throw_inv _ _ _ _ _ _ (run_moved fuel c v m) Hrun)|].
    eapply Forall_lookup_1; eassumption.
  - apply Forall_insert; [exact Hall|].
    eapply moved_null_only_if_empty;
      [exact (wp_ret_inv _ _ _ _ _ _ (operator_assign_moved u v m) Hrun)|].
    eapply Forall_lookup_1; eassumption.
  - apply Forall_insert; [exact Hall|].
    eapply moved_null_only_if_empty;
      [exact (wp_throw_inv _ _ _ _ _ _ (operator_assign_moved u v m) Hrun)|].
    eapply Forall_lookup_1; eassumption.
  - pose proof (Forall_lookup_1 _ _ _ _ Hall Hi) as Hv.
    pose proof (Forall_lookup_1 _ _ _ _ Hall Hj) as Hu.
    apply Forall_insert; [apply Forall_insert; [exact Hall|]|].
    + exact Hu.
    + exact Hv.
Qed.

(** C3 (amended): in every reachable state, a container whose data pointer
    is null has capacity 0. *)
Theorem null_data_has_zero_capacity
    (w0 : W) (vs : list vector) (m : memory T) (v : vector) :
  reachable w0 (vs, m) ->
  v ∈ vs ->
  data v = nullptr ->
  capacity v = 0.
Proof.
  intros Hreach Hin.
  assert (Hall : Forall null_only_if_empty (fst (vs, m))).
  { unfold reachable in Hreach.
    apply (rtc_ind_r (R := step) (fun s => Forall null_only_if_empty (fst s))
             ([], Mem ∅ 0%nat w0)); [constructor | | exact Hreach].
    intros [vs1 m1] [vs2 m2] _ Hstep IH.
    eapply step_null_only_if_empty; [exact Hstep | exact IH]. }
  exact (proj1 (Forall_forall _ _) Hall v Hin).
Qed.

(** ** [erase] *)

Lemma length_list_swap i j xs : length (list_swap i j xs) = length xs.
Proof.
  unfold list_swap. destruct (xs !! i), (xs !! j); try reflexivity.
  rewrite !length_insert. reflexivity.
Qed.

Lemma lookup_list_swap i j xs n :
  (i < length xs)%nat -> (j < length xs)%nat ->
  list_swap i j xs !! n =
  if decide (n = j) then xs !! i else if decide (n = i) then xs !! j else xs !! n.
Proof.
  intros Hi Hj. unfold list_swap.
  destruct (lookup_lt_is_Some_2 xs i Hi) as [a Ha].
  destruct (lookup_lt_is_Some_2 xs j Hj) as [c Hc].
  rewrite Ha, Hc.
  destruct (decide (n = j)) as [->|Hnj].
  - rewrite list_lookup_insert_eq by (rewrite length_insert; lia). reflexivity.
  - rewrite list_lookup_insert_ne by congruence.
    destruct (decide (n = i)) as [->|Hni].
    + rewrite list_lookup_insert_eq by lia. reflexivity.
    + rewrite list_lookup_insert_ne by congruence. reflexivity.
Qed.

Lemma length_shifted k : forall f l xs, length (shifted k f l xs) = length xs.
Proof.
  induction k as [|k IH]; intros f l xs; simpl; [reflexivity|].
  rewrite IH. apply length_list_swap.
Qed.

Lemma lookup_shifted k :
  forall f l xs j,
    (f <= l)%nat -> (l + k = length xs)%nat -> (j < f + k)%nat ->
    shifted k f l xs !! j =
    if decide (j < f)%nat then xs !! j else xs !! (j + (l - f))%nat.
Proof.
  induction k as [|k IH]; intros f l xs j Hfl Hlen Hj; simpl.
  - rewrite decide_True by lia. reflexivity.
  - rewrite IH by (rewrite ?length_list_swap; lia).
    rewrite !lookup_list_swap by lia.
    destruct (decide (j < S f)%nat) as [H1|H1].
    + destruct (decide (j = l)) as [->|H2].
      * assert (l = f) as -> by lia.
        rewrite decide_False by lia. f_equal; lia.
      * destruct (decide (j = f)) as [->|H3].
        -- rewrite decide_False by lia. f_equal; lia.
        -- rewrite decide_True by lia. reflexivity.
    + rewrite decide_False by lia.
      rewrite decide_False by lia. rewrite decide_False by lia.
      f_equal; lia.
Qed.

(** The first loop of [erase] moves the elements after the range onto the
    range and what follows it, in order. *)
Lemma take_shifted k f l xs :
  (f <= l)%nat -> (l + k = length xs)%nat ->
  take (f + k) (shifted k f l xs) = take f xs ++ drop l xs.
Proof.
  intros Hfl Hlen. apply list_eq. intros j.
  destruct (decide (j < f + k)%nat) as [Hj|Hj].
  - rewrite lookup_take_lt by exact Hj.
    rewrite lookup_shifted by assumption.
    destruct (decide (j < f)%nat) as [H1|H1].
    + rewrite lookup_app_l by (rewrite length_take; lia).
      rewrite lookup_take_lt by exact H1. reflexivity.
    + rewrite lookup_app_r by (rewrite length_take; lia).
      rewrite length_take, lookup_drop. f_equal. lia.
  - rewrite lookup_take_ge by lia. symmetry.
    apply lookup_ge_None. rewrite length_app, length_take, length_drop. lia.
Qed.

Lemma slot_lookup m b cells i c :
  heap m !! b = Some cells -> cells !! i = Some c ->
  slot m (Iter (Block b) (Z.of_nat i)) = Some c.
Proof.
  intros Hb Hi. unfold slot. simpl. rewrite Hb.
  rewrite decide_True by (apply lookup_lt_Some in Hi; lia).
  rewrite Nat2Z.id. exact Hi.
Qed.

Lemma set_slot_lookup m b cells i c :
  heap m !! b = Some cells ->
  set_slot m (Iter (Block b) (Z.of_nat i)) c =
  Mem (<[b := <[i := c]> cells]> (heap m)) (fresh m) (world m).
Proof.
  intros Hb. unfold set_slot. simpl. rewrite Hb, Nat2Z.id. reflexivity.
Qed.

(** [std::swap] on two live elements of a buffer, when nothing throws. *)
Lemma std_swap_ok P h f w b cells i j a c :
  infallible P -> P w ->
  h !! b = Some cells ->
  cells !! i = Some (Some a) ->
  cells !! j = Some (Some c) ->
  exists w',
    std_swap (Iter (Block b) (Z.of_nat i)) (Iter (Block b) (Z.of_nat j)) (Mem h f w) =
    Ret tt (Mem (<[b := <[j := Some a]> (<[i := Some c]> cells)]> h) f w') /\
    P w'.
Proof.
  intros HP Hw Hb Hi Hj.
  destruct (HP a w Hw) as ((w1 & Hc1 & Hw1) & _).
  destruct (HP c w1 Hw1) as (_ & (w2 & Hc2 & Hw2) & _).
  destruct (HP a w2 Hw2) as (_ & (w3 & Hc3 & Hw3) & _).
  destruct (HP a w3 Hw3) as (_ & _ & Hw4).
  exists (destructor a w3). split; [|exact Hw4].
  unfold std_swap, bind at 1, load at 1.
  rewrite (slot_lookup (Mem h f w) b cells i (Some a) Hb Hi).
  unfold with_temporary. cbn [world]. rewrite Hc1.
  unfold bind at 1. unfold assign at 1. unfold bind at 1. unfold load at 1.
  rewrite (slot_lookup (set_world (Mem h f w) w1) b cells i (Some a) Hb Hi).
  unfold bind at 1. cbn [read]. unfold load at 1.
  rewrite (slot_lookup (set_world (Mem h f w) w1) b cells j (Some c) Hb Hj).
  unfold set_world. cbn [world heap fresh]. rewrite Hc2.
  unfold set_world. cbn [world heap fresh].
  rewrite (set_slot_lookup (Mem h f w2) b cells i (Some c) Hb).
  cbn [world heap fresh].
  assert (Hj' : exists c', <[i := Some c]> cells !! j = Some (Some c')).
  { destruct (decide (i = j)) as [->|Hne].
    - exists c. apply list_lookup_insert_eq. apply lookup_lt_Some in Hj. exact Hj.
    - exists c. rewrite list_lookup_insert_ne by exact Hne. exact Hj. }
  destruct Hj' as (c' & Hj').
  unfold assign, bind at 1, load at 1.
  rewrite (slot_lookup _ b _ j (Some c') (lookup_insert_eq _ _ _) Hj').
  unfold bind at 1. cbn [read ret world heap fresh]. rewrite Hc3.
  unfold set_world. cbn [world heap fresh].
  rewrite (set_slot_lookup _ b _ j (Some a) (lookup_insert_eq _ _ _)).
  cbn [world heap fresh].
  rewrite insert_insert_eq. reflexivity.
Qed.

Lemma lookup_buffer xs cap i x :
  xs !! i = Some x -> buffer xs cap !! i = Some (Some x).
Proof.
  intros Hi. unfold buffer. apply lookup_app_l_Some.
  rewrite list_lookup_fmap, Hi. reflexivity.
Qed.

Lemma buffer_insert xs cap i y :
  (i < length xs)%nat ->
  <[i := Some y]> (buffer xs cap) = buffer (<[i := y]> xs) cap.
Proof.
  intros Hi. unfold buffer.
  rewrite insert_app_l by (rewrite length_fmap; exact Hi).
  rewrite list_fmap_insert, length_insert. reflexivity.
Qed.

Lemma buffer_list_swap xs cap i j a c :
  xs !! i = Some a -> xs !! j = Some c ->
  <[j := Some a]> (<[i := Some c]> (buffer xs cap)) = buffer (list_swap i j xs) cap.
Proof.
  intros Hi Hj. unfold list_swap. rewrite Hi, Hj.
  rewrite buffer_insert by (apply lookup_lt_Some in Hi; exact Hi).
  rewrite buffer_insert
    by (rewrite length_insert; apply lookup_lt_Some in Hj; exact Hj).
  reflexivity.
Qed.

Lemma erase_shift_S fuel first last (s : vector * memory T) :
  erase_shift (S fuel) first last s =
  (if decide (last <> end_ (fst s)) then
     bind (under (std_swap first last))
          (fun _ => erase_shift fuel (it_add first 1) (it_add last 1))
   else ret (first, last)) s.
Proof. reflexivity. Qed.

Lemma erase_destroy_S fuel first last (s : vector * memory T) :
  erase_destroy (S fuel) first last s =
  (if decide (first <> last) then
     bind (under (destroy_at first))
          (fun _ => erase_destroy fuel (it_add first 1) last)
   else ret tt) s.
Proof. reflexivity. Qed.

Lemma erase_shift_ok P b cap :
  infallible P ->
  forall k fuel f l xs h fr w sz,
    P w ->
    h !! b = Some (buffer xs cap) ->
    sz = Z.of_nat (length xs) ->
    (f <= l)%nat -> (l + k = length xs)%nat -> (k < fuel)%nat ->
    exists w',
      erase_shift fuel (Iter (Block b) (Z.of_nat f)) (Iter (Block b) (Z.of_nat l))
                  (Vec (Block b) sz cap, Mem h fr w) =
      Ret (Iter (Block b) (Z.of_nat (f + k)), Iter (Block b) (Z.of_nat (l + k)))
          (Vec (Block b) sz cap,
           Mem (<[b := buffer (shifted k f l xs) cap]> h) fr w') /\
      P w'.
Proof.
  intros HP. induction k as [|k IH];
    intros fuel f l xs h fr w sz Hw Hb Hsz Hfl Hlen Hfuel;
    (destruct fuel as [|fuel]; [lia|]); rewrite erase_shift_S;
    unfold end_; cbn [fst data_ size_].
  - exists w. split; [|exact Hw].
    rewrite decide_False by (intros Hne; apply Hne; f_equal; lia).
    unfold ret. rewrite !Nat.add_0_r. cbn [shifted].
    rewrite insert_id by exact Hb. reflexivity.
  - rewrite decide_True by (intros [= Heq]; lia).
    destruct (lookup_lt_is_Some_2 xs f ltac:(lia)) as [a Ha].
    destruct (lookup_lt_is_Some_2 xs l ltac:(lia)) as [c Hc].
    destruct (std_swap_ok P h fr w b (buffer xs cap) f l a c HP Hw Hb
                (lookup_buffer _ _ _ _ Ha) (lookup_buffer _ _ _ _ Hc))
      as (w1 & Hswap & Hw1).
    unfold bind, under. cbn [fst snd]. rewrite Hswap.
    rewrite (buffer_list_swap _ _ _ _ _ _ Ha Hc).
    unfold it_add. cbn [it_block it_index fst snd].
    replace (Z.of_nat f + 1) with (Z.of_nat (S f)) by lia.
    replace (Z.of_nat l + 1) with (Z.of_nat (S l)) by lia.
    destruct (IH fuel (S f) (S l) (list_swap f l xs)
                (<[b := buffer (list_swap f l xs) cap]> h) fr w1 sz)
      as (w2 & Hrec & Hw2);
      [ exact Hw1 | apply lookup_insert_eq | rewrite length_list_swap; exact Hsz
      | lia | rewrite length_list_swap; lia | lia | ].
    exists w2. split; [|exact Hw2].
    rewrite Hrec, insert_insert_eq. cbn [shifted].
    replace (S f + k)%nat with (f + S k)%nat by lia.
    replace (S l + k)%nat with (l + S k)%nat by lia.
    reflexivity.
Qed.

Lemma erase_destroy_ok b v :
  forall ys fuel (l1 l2 : list (option T)) h fr w,
    h !! b = Some (l1 ++ (Some <$> ys) ++ l2) ->
    (length ys < fuel)%nat ->
    erase_destroy fuel (Iter (Block b) (Z.of_nat (length l1)))
                  (Iter (Block b) (Z.of_nat (length l1 + length ys)))
                  (v, Mem h fr w) =
    Ret tt (v, Mem (<[b := l1 ++ replicate (length ys) None ++ l2]> h) fr
                   (destroy_each ys w)).
Proof.
  induction ys as [|y ys IH]; intros fuel l1 l2 h fr w Hb Hfuel;
    (destruct fuel as [|fuel]; [simpl in Hfuel; lia|]); rewrite erase_destroy_S.
  - rewrite decide_False by (intros Hne; apply Hne; f_equal; simpl; lia).
    unfold ret. simpl. rewrite insert_id by exact Hb. reflexivity.
  - rewrite decide_True by (intros [= Heq]; simpl in Heq; lia).
    simpl in Hb. unfold bind, under. cbn [fst snd].
    erewrite destroy_at_middle; [| exact Hb | reflexivity ].
    cbn [heap fresh world]. unfold it_add. cbn [it_block it_index].
    replace (Z.of_nat (length l1) + 1) with (Z.of_nat (length (l1 ++ [None])))
      by (rewrite length_app; simpl; lia).
    replace (length l1 + length (y :: ys))%nat
      with (length (l1 ++ [None]) + length ys)%nat
      by (rewrite length_app; simpl; lia).
    rewrite (IH fuel (l1 ++ [None]) l2).
    + rewrite insert_insert_eq, <- app_assoc. reflexivity.
    + rewrite lookup_insert_eq, <- app_assoc. reflexivity.
    + simpl in Hfuel. lia.
Qed.

(** C9 (amended): for a well-formed container holding [xs] and a range
    [[first, last)] inside [[begin, end]], when no element operation
    throws, [erase(first, last)] returns; afterwards the container holds the
    elements before the range followed by the elements after it, in order,
    its size has decreased by the length of the range, its capacity and its
    data pointer are unchanged, and the position returned is the start of
    the removed range in the same buffer, which is [end()] when the range
    reached the end. *)
Theorem erase_removes_range
    (P : W -> Prop) (m : memory T) (v : vector) (xs : list T) (f l fuel : nat) :
  infallible P ->
  P (world m) ->
  holds m v xs ->
  (f <= l <= length xs)%nat ->
  (length xs < fuel)%nat ->
  let first := it_add (begin_ v) (Z.of_nat f) in
  let last := it_add (begin_ v) (Z.of_nat l) in
  let v' := Vec (data_ v) (size_ v - Z.of_nat (l - f)) (capacity_ v) in
  exists m',
    erase fuel first last (v, m) = Ret first (v', m') /\
    holds m' v' (take f xs ++ drop l xs) /\
    P (world m') /\
    first = it_add (begin_ v') (Z.of_nat f) /\
    (l = length xs -> first = end_ v').
Proof.
  intros HP Hw Hv Hfl Hfuel first last v'.
  pose proof (holds_nullptr _ _ _ Hv) as Hnil.
  destruct Hv as (Hs & Hcap & Hfit & Hd).
  destruct m as [h fr w]. destruct v as [p sz cap].
  cbn [data_ size_ capacity_ world] in *.
  unfold first, last, v', begin_, it_add. cbn [data_ size_ capacity_ it_block it_index].
  rewrite !Z.add_0_l.
  assert (Hlen' : length (take f xs ++ drop l xs) = (length xs - (l - f))%nat)
    by (rewrite length_app, length_take, length_drop; lia).
  destruct p as [|b].
  - rewrite (Hnil eq_refl) in *. simpl in Hfl, Hs.
    assert (f = 0%nat) as -> by lia. assert (l = 0%nat) as -> by lia. subst sz.
    destruct fuel as [|fuel]; [lia|].
    exists (Mem h fr w). split; [reflexivity|].
    split; [| split; [exact Hw | split; [reflexivity | intros _; reflexivity]]].
    unfold holds. simpl.
    split; [lia | split; [lia | split; [exact Hfit | lia]]].
  - destruct Hd as [Hb Hd].
    destruct (erase_shift_ok P b cap HP (length xs - l) fuel f l xs h fr w sz)
      as (w1 & Hshift & Hw1); [exact Hw | exact Hd | exact Hs | lia | lia | lia |].
    set (xs1 := shifted (length xs - l) f l xs) in *.
    assert (Hlen1 : length xs1 = length xs) by apply length_shifted.
    assert (Htake : take (f + (length xs - l)) xs1 = take f xs ++ drop l xs)
      by (apply take_shifted; lia).
    assert (Hsplit : buffer xs1 cap =
              (Some <$> (take f xs ++ drop l xs)) ++
              (Some <$> drop (f + (length xs - l)) xs1) ++
              replicate (Z.to_nat cap - length xs) None).
    { unfold buffer. rewrite Hlen1, app_assoc, <- fmap_app, <- Htake.
      rewrite take_drop. reflexivity. }
    eexists. split; [| split; [| split; [| split]]].
    + unfold erase, bind at 1. rewrite Hshift.
      unfold bind at 1, this at 1. cbn [fst snd data_].
      unfold bind at 1, ptr_diff. cbn [it_block it_index].
      rewrite decide_True by reflexivity. unfold ret at 1.
      unfold bind at 1, set_size_ at 1. cbn [fst snd data_ size_ capacity_].
      unfold bind at 1.
      replace (Z.of_nat (f + (length xs - l)))
        with (Z.of_nat (length (Some <$> (take f xs ++ drop l xs))))
        by (rewrite length_fmap, Hlen'; lia).
      replace (Z.of_nat (l + (length xs - l)))
        with (Z.of_nat (length (Some <$> (take f xs ++ drop l xs)) +
                        length (drop (f + (length xs - l)) xs1)))
        by (rewrite length_fmap, Hlen', length_drop, Hlen1; lia).
      erewrite erase_destroy_ok;
        [ | rewrite lookup_insert_eq, Hsplit; reflexivity
          | rewrite length_drop, Hlen1; lia ].
      unfold ret. cbn [fst snd]. rewrite insert_insert_eq.
      rewrite length_fmap, Hlen', Z.sub_0_r.
      rewrite wrap_small by lia.
      replace (Z.of_nat (length xs - (l - f))) with (sz - Z.of_nat (l - f)) by lia.
      reflexivity.
    + unfold holds. cbn [data_ size_ capacity_ heap fresh].
      split; [rewrite Hlen'; lia | split; [lia | split; [exact Hfit | split; [exact Hb|]]]].
      rewrite lookup_insert_eq. f_equal. unfold buffer. f_equal.
      rewrite <- replicate_add. f_equal.
      rewrite length_drop, Hlen1, Hlen'. lia.
    + simpl. clear Hshift Hsplit.
      generalize (drop (f + (length xs - l)) xs1). intros ys. revert w1 Hw1.
      induction ys as [|y ys IH]; intros w1 Hw1; [exact Hw1|].
      simpl. apply IH. apply (HP y w1 Hw1).
    + reflexivity.
    + intros ->. unfold end_. cbn [data_ size_]. f_equal. lia.
Qed.

(** ** [reserve] *)

Lemma reserve_below n v m :
  n < capacity_ v -> reserve n (v, m) = Ret tt (v, m).
Proof.
  intros Hn. unfold reserve, bind, this. cbn [fst snd].
  rewrite decide_True by exact Hn. reflexivity.
Qed.

(** A request that is not below the capacity, the current capacity
    included, moves the elements to a new buffer of the requested size. *)
Lemma reserve_at_least n m v xs w1 :
  holds m v xs ->
  capacity_ v <= n < 2 ^ size_bits ->
  fits n ->
  copy_each xs (world m) = Some w1 ->
  let v' := Vec (Block (fresh m)) (size_ v) n in
  let m' := Mem (<[fresh m := buffer xs n]> (without (data_ v) (heap m)))
                (S (fresh m)) (destroy_each xs w1) in
  reserve n (v, m) = Ret tt (v', m') /\ holds m' v' xs /\ data_ v' <> data_ v.
Proof.
  intros Hv Hn Hfn Hc v' m'.
  assert (Hsz : size_ v <= capacity_ v) by (destruct Hv as (_ & ? & _); lia).
  split; [| split].
  - unfold reserve, bind, this. cbn [fst snd].
    rewrite decide_False by lia.
    apply new_buffer_ok; [exact Hv | lia | exact Hfn | exact Hc].
  - unfold v', m'. destruct Hv as (Hs & _). rewrite Hs.
    apply holds_in_fresh; first [lia | assumption].
  - unfold v'. cbn [data_]. destruct Hv as (_ & _ & _ & Hd).
    destruct (data_ v) as [|b]; [discriminate|].
    intros [= Heq]. lia.
Qed.

(** ** [insert] on an empty container with spare capacity *)

(** The no-growth path starts with [push_back(back())]; on an empty
    container [back()] is the element at index [size_ - 1], which wraps
    around to the largest [size_t], outside the buffer. *)
Lemma insert_empty_spare fuel pos val m v :
  holds m v [] ->
  0 < capacity_ v ->
  insert (S fuel) pos val (v, m) = Fault UndefinedBehaviour.
Proof.
  intros (Hs & Hcap & Hfit & Hd) Hpos. simpl in Hs.
  unfold insert, bind at 1, this at 1. cbn [fst snd].
  rewrite decide_False by lia.
  unfold bind at 1. unfold back at 1, bind at 1, this at 1, ret at 1. cbn [fst snd].
  unfold bind at 1. rewrite push_back_S. cbn [fst snd].
  rewrite decide_True by lia.
  unfold bind at 1, under at 1. cbn [fst snd].
  unfold construct_at, bind at 1. cbn [read]. unfold load, slot. cbn [it_block it_index].
  destruct (data_ v) as [|b]; [reflexivity|].
  destruct Hd as [_ Hd]. rewrite Hd.
  rewrite decide_False; [reflexivity|].
  rewrite length_buffer by (simpl; lia).
  rewrite Hs. unfold wrap, size_bits in *.
  change ((Z.of_nat 0 - 1) mod 2 ^ 64) with (2 ^ 64 - 1). lia.
Qed.

(** ** [insert] where it works *)

Lemma construct_at_lookup m b bs cells scells i j c y w1 :
  heap m !! b = Some cells -> cells !! i = Some c ->
  heap m !! bs = Some scells -> scells !! j = Some (Some y) ->
  copy_constructor y (world m) = (w1, None) ->
  construct_at (Iter (Block b) (Z.of_nat i)) (Elem (Iter (Block bs) (Z.of_nat j))) m =
  Ret tt (Mem (<[b := <[i := Some y]> cells]> (heap m)) (fresh m) w1).
Proof.
  intros Hb Hi Hs Hj Hc. unfold construct_at, bind. cbn [read]. unfold load.
  rewrite (slot_lookup m bs scells j (Some y) Hs Hj).
  rewrite (slot_lookup m b cells i c Hb Hi). rewrite Hc.
  rewrite (set_slot_lookup (set_world m w1) b cells i (Some y) Hb). reflexivity.
Qed.

Lemma assign_value m b cells i c x w1 :
  heap m !! b = Some cells -> cells !! i = Some (Some c) ->
  copy_assignment x (world m) = (w1, None) ->
  assign (Iter (Block b) (Z.of_nat i)) (Value x) m =
  Ret tt (Mem (<[b := <[i := Some x]> cells]> (heap m)) (fresh m) w1).
Proof.
  intros Hb Hi Hc. unfold assign, bind at 1, load.
  rewrite (slot_lookup m b cells i (Some c) Hb Hi).
  unfold bind. cbn [read ret]. rewrite Hc.
  rewrite (set_slot_lookup (set_world m w1) b cells i (Some x) Hb). reflexivity.
Qed.

Lemma buffer_push xs cap y :
  (length xs < Z.to_nat cap)%nat ->
  <[length xs := Some y]> (buffer xs cap) = buffer (xs ++ [y]) cap.
Proof.
  intros Hlt. rewrite buffer_next by exact Hlt.
  rewrite <- buffer_snoc.
  replace (length xs) with (length (Some <$> xs) + 0)%nat at 1
    by (rewrite length_fmap; lia).
  rewrite insert_app_r. reflexivity.
Qed.

Lemma lookup_buffer_raw xs cap i :
  (length xs <= i < Z.to_nat cap)%nat -> buffer xs cap !! i = Some None.
Proof.
  intros Hi. unfold buffer.
  rewrite lookup_app_r by (rewrite length_fmap; lia).
  apply lookup_replicate_2. rewrite length_fmap. lia.
Qed.

(** [push_back(back())] with spare capacity. *)
Lemma push_back_spare_elem m v xs j y w1 b fuel :
  holds m v xs ->
  size_ v < capacity_ v ->
  data_ v = Block b ->
  xs !! j = Some y ->
  copy_constructor y (world m) = (w1, None) ->
  push_back (S fuel) (Elem (Iter (Block b) (Z.of_nat j))) (v, m) =
  Ret tt (Vec (Block b) (size_ v + 1) (capacity_ v),
          Mem (<[b := buffer (xs ++ [y]) (capacity_ v)]> (heap m)) (fresh m) w1).
Proof.
  intros (Hs & Hcap & Hfit & Hd) Hlt Hb Hj Hx. rewrite Hb in Hd. destruct Hd as [Hbf Hd].
  rewrite push_back_S. cbn [fst snd].
  rewrite decide_True by lia.
  unfold bind, under. cbn [fst snd]. rewrite Hb, Hs.
  erewrite construct_at_lookup;
    [ | exact Hd | apply lookup_buffer_raw; lia | exact Hd
      | apply lookup_buffer; exact Hj | exact Hx ].
  unfold set_size_. cbn [fst snd size_ capacity_ data_].
  rewrite wrap_small by lia. rewrite buffer_push by lia.
  rewrite Hb. reflexivity.
Qed.

Lemma insert_shift_S fuel i pos (s : vector * memory T) :
  insert_shift (S fuel) i pos s =
  (if decide (i <> pos) then
     bind (under (std_swap i (it_add i (-1))))
          (fun _ => insert_shift fuel (it_add i (-1)) pos)
   else ret tt) s.
Proof. reflexivity. Qed.

Lemma swap_adjacent (l1 l2 : list T) y z :
  <[length l1 := z]> (<[S (length l1) := y]> (l1 ++ y :: z :: l2)) =
  l1 ++ z :: y :: l2.
Proof.
  replace (S (length l1)) with (length l1 + 1)%nat by lia.
  rewrite insert_app_r. simpl.
  replace (length l1) with (length l1 + 0)%nat at 1 by lia.
  rewrite insert_app_r. reflexivity.
Qed.

(** The loop of [insert] carries the new last element [z] down to [pos],
    past the elements [mid]. *)
Lemma insert_shift_ok P b cap v :
  infallible P ->
  forall mid fuel (l1 l2 : list T) z h fr w,
    P w ->
    h !! b = Some (buffer (l1 ++ mid ++ z :: l2) cap) ->
    (length mid < fuel)%nat ->
    exists w',
      insert_shift fuel (Iter (Block b) (Z.of_nat (length l1 + length mid)))
                   (Iter (Block b) (Z.of_nat (length l1))) (v, Mem h fr w) =
      Ret tt (v, Mem (<[b := buffer (l1 ++ z :: mid ++ l2) cap]> h) fr w') /\
      P w'.
Proof.
  intros HP. induction mid as [|y mid IH] using rev_ind;
    intros fuel l1 l2 z h fr w Hw Hb Hfuel;
    (destruct fuel as [|fuel]; [simpl in Hfuel; lia|]); rewrite insert_shift_S.
  - exists w. split; [|exact Hw].
    rewrite decide_False by (intros Hne; apply Hne; f_equal; simpl; lia).
    unfold ret. simpl. simpl in Hb. rewrite insert_id by exact Hb. reflexivity.
  - rewrite length_app in *. simpl in Hfuel.
    rewrite decide_True by (intros [= Heq]; simpl in Heq; lia).
    rewrite <- app_assoc in Hb. simpl in Hb. rewrite app_assoc in Hb.
    assert (Hz : ((l1 ++ mid) ++ y :: z :: l2) !! S (length (l1 ++ mid)) = Some z).
    { rewrite lookup_app_r by lia.
      replace (S (length (l1 ++ mid)) - length (l1 ++ mid))%nat with 1%nat by lia.
      reflexivity. }
    assert (Hy : ((l1 ++ mid) ++ y :: z :: l2) !! length (l1 ++ mid) = Some y)
      by (apply list_lookup_middle; reflexivity).
    destruct (std_swap_ok P h fr w b _ (S (length (l1 ++ mid))) (length (l1 ++ mid))
                z y HP Hw Hb (lookup_buffer _ _ _ _ Hz) (lookup_buffer _ _ _ _ Hy))
      as (w1 & Hswap & Hw1).
    unfold bind, under. cbn [fst snd].
    unfold it_add. cbn [it_block it_index].
    replace (Z.of_nat (length l1 + (length mid + length [y])))
      with (Z.of_nat (S (length (l1 ++ mid))))
      by (rewrite length_app; simpl; lia).
    replace (Z.of_nat (S (length (l1 ++ mid))) + -1)
      with (Z.of_nat (length (l1 ++ mid))) by lia.
    rewrite Hswap.
    rewrite buffer_insert by (rewrite !length_app; simpl; lia).
    rewrite buffer_insert by (rewrite length_insert, !length_app; simpl; lia).
    rewrite swap_adjacent.
    destruct (IH fuel l1 (y :: l2) z
                (<[b := buffer ((l1 ++ mid) ++ z :: y :: l2) cap]> h) fr w1 Hw1)
      as (w2 & Hrec & Hw2);
      [ rewrite lookup_insert_eq, <- app_assoc; reflexivity | lia | ].
    exists w2. split; [|exact Hw2].
    rewrite length_app. rewrite Hrec, insert_insert_eq.
    rewrite <- !app_assoc. reflexivity.
Qed.

Ltac list_length :=
  repeat (rewrite ?length_app, ?length_take, ?length_drop, ?length_fmap,
            ?length_insert, ?length_replicate; cbn [length]);
  lia.

(** The no-growth path on a container that is not empty. *)
Lemma insert_spare P m v xs (k : nat) x fuel :
  infallible P ->
  P (world m) ->
  holds m v xs ->
  (0 < length xs)%nat ->
  size_ v < capacity_ v ->
  (k <= length xs)%nat ->
  (length xs + 1 < fuel)%nat ->
  let pos := it_add (begin_ v) (Z.of_nat k) in
  let v' := Vec (data_ v) (size_ v + 1) (capacity_ v) in
  exists m',
    insert fuel pos (Value x) (v, m) = Ret pos (v', m') /\
    holds m' v' (take k xs ++ x :: drop k xs) /\
    P (world m').
Proof.
  intros HP Hw Hv Hne Hlt Hk Hfuel pos v'.
  pose proof Hv as (Hs & Hcap & Hfit & Hd).
  destruct (data_ v) as [|b] eqn:Hdata; [lia|]. destruct Hd as [Hbf Hd].
  destruct (lookup_lt_is_Some_2 xs (length xs - 1) ltac:(lia)) as [y Hy].
  destruct (HP y (world m) Hw) as ((w1 & Hc1 & Hw1) & _).
  destruct fuel as [|fuel]; [lia|].
  assert (Hpush := push_back_spare_elem m v xs (length xs - 1) y w1 b fuel
                     Hv Hlt Hdata Hy Hc1).
  assert (Hsplit : xs ++ [y] = take k xs ++ drop k xs ++ y :: [])
    by (rewrite app_assoc, take_drop; reflexivity).
  assert (Hlk : length (take k xs) = k) by (apply length_take_le; exact Hk).
  destruct (insert_shift_ok P b (capacity_ v)
              (Vec (Block b) (size_ v + 1) (capacity_ v)) HP
              (drop k xs) (S fuel) (take k xs) [] y
              (<[b := buffer (xs ++ [y]) (capacity_ v)]> (heap m)) (fresh m) w1 Hw1)
    as (w2 & Hshift & Hw2);
    [ rewrite lookup_insert_eq, Hsplit; reflexivity
    | rewrite length_drop; lia | ].
  destruct (HP x w2 Hw2) as (_ & (w3 & Hc3 & Hw3) & _).
  exists (Mem (<[b := buffer (take k xs ++ x :: drop k xs) (capacity_ v)]> (heap m))
              (fresh m) w3).
  split; [| split; [| exact Hw3]].
  - unfold insert, bind at 1, this at 1. cbn [fst snd].
    rewrite decide_False by lia.
    unfold bind at 1. unfold back at 1, bind at 1, this at 1, ret at 1.
    cbn [fst snd]. rewrite Hdata.
    replace (wrap (size_ v - 1)) with (Z.of_nat (length xs - 1))
      by (rewrite wrap_small by lia; lia).
    unfold bind at 1. rewrite Hpush.
    unfold bind at 1, this at 1. cbn [fst snd].
    unfold bind at 1, end_, it_add. cbn [data_ size_ it_block it_index].
    unfold pos, begin_, it_add. cbn [data_ it_block it_index].
    rewrite Hdata, Z.add_0_l.
    replace (size_ v + 1 + -1) with (Z.of_nat (k + length (drop k xs)))
      by (rewrite length_drop; lia).
    rewrite Hlk in Hshift. rewrite Hshift, insert_insert_eq.
    unfold bind at 1, under. cbn [fst snd].
    erewrite assign_value;
      [ | apply lookup_insert_eq
        | apply lookup_buffer; rewrite <- Hlk at 1;
          apply list_lookup_middle; reflexivity
        | exact Hc3 ].
    cbn [heap fresh world]. rewrite insert_insert_eq.
    rewrite buffer_insert by list_length.
    assert (Hins : <[k := x]> (take k xs ++ y :: drop k xs ++ []) =
                   take k xs ++ x :: drop k xs).
    { rewrite app_nil_r.
      replace k with (length (take k xs) + 0)%nat at 1 by lia.
      rewrite insert_app_r. reflexivity. }
    rewrite Hins. reflexivity.
  - unfold v'. unfold holds. cbn [data_ size_ capacity_ heap fresh].
    split; [| split; [lia | split; [exact Hfit | split; [exact Hbf | apply lookup_insert_eq]]]].
    list_length.
Qed.

(** The growth path where the growth formula does grow. *)
Lemma insert_growth P m v xs (k : nat) x fuel :
  infallible P ->
  P (world m) ->
  holds m v xs ->
  size_ v = capacity_ v ->
  capacity_ v < increase_capacity v ->
  fits (increase_capacity v) ->
  (k <= length xs)%nat ->
  (0 < fuel)%nat ->
  let pos := it_add (begin_ v) (Z.of_nat k) in
  let v' := Vec (Block (fresh m)) (size_ v + 1) (increase_capacity v) in
  exists m',
    insert fuel pos (Value x) (v, m) = Ret (it_add (begin_ v') (Z.of_nat k)) (v', m') /\
    holds m' v' (take k xs ++ x :: drop k xs) /\
    P (world m').
Proof.
  intros HP Hw Hv Hfull Hgrow Hfinc Hk Hfuel pos v'.
  unfold pos, begin_, it_add. cbn [it_block it_index]. rewrite Z.add_0_l.
  clear pos.
  pose proof Hv as (Hs & Hcap & Hfit & Hd).
  pose proof (holds_nullptr _ _ _ Hv) as Hnil.
  assert (Hcap0 : 0 <= capacity_ v) by lia.
  pose proof (increase_capacity_bound v Hcap0) as Hinc.
  set (inc := increase_capacity v) in *.
  set (f := fresh m) in *.
  assert (Hlk : length (take k xs) = k) by (apply length_take_le; exact Hk).
  destruct (infallible_copy_each P (take k xs) HP _ Hw) as (w1 & Hc1 & Hw1).
  destruct (HP x w1 Hw1) as ((w2 & Hc2 & Hw2) & _).
  destruct (infallible_copy_each P (drop k xs) HP _ Hw2) as (w3 & Hc3 & Hw3).
  destruct fuel as [|fuel]; [lia|].
  (* the first copy: the prefix *)
  assert (Hcopy1 :
    copy_construct_all (Iter (Block f) 0) (Iter (data_ v) 0) (wrap (Z.of_nat k))
      (Mem (<[f := buffer [] inc]> (heap m)) (S f) (world m)) =
    Ret tt (Mem (<[f := buffer (take k xs) inc]> (heap m)) (S f) w1)).
  { rewrite wrap_small by lia.
    destruct (data_ v) as [|b] eqn:Hdata.
    - rewrite (Hnil eq_refl) in *. simpl in Hk.
      assert (k = 0%nat) as -> by lia. simpl in Hc1. injection Hc1 as <-.
      rewrite copy_construct_all_nil. reflexivity.
    - destruct Hd as [Hbf Hd].
      rewrite (copy_construct_all_ok f b [] (replicate (Z.to_nat inc - k) None)
                 [] ((Some <$> drop k xs) ++
                     replicate (Z.to_nat (capacity_ v) - length xs) None)
                 (take k xs) _ (S f) (world m) w1);
        [ | unfold f; lia | | | exact Hc1 | rewrite Hlk; reflexivity ].
      + rewrite insert_insert_eq. unfold buffer. rewrite Hlk. reflexivity.
      + rewrite lookup_insert_eq, buffer_nil, Hlk. simpl.
        rewrite <- replicate_add. do 2 f_equal. lia.
      + rewrite lookup_insert_ne by (unfold f; lia). rewrite Hd.
        unfold buffer. simpl. rewrite app_assoc, <- fmap_app, take_drop.
        reflexivity. }
  (* the call of [push_back] on the new buffer *)
  assert (Hpush :
    push_back (S fuel) (Value x)
      (Vec (Block f) (Z.of_nat k) inc,
       Mem (<[f := buffer (take k xs) inc]> (heap m)) (S f) w1) =
    Ret tt (Vec (Block f) (Z.of_nat k + 1) inc,
            Mem (<[f := buffer (take k xs ++ [x]) inc]> (heap m)) (S f) w2)).
  { pose proof (holds_in_fresh (take k xs) inc f (S f) w1 (heap m)) as Hh.
    rewrite Hlk in Hh.
    rewrite (push_back_spare _ _ (take k xs) x w2 f fuel
               (Hh ltac:(lia) ltac:(lia) Hfinc ltac:(lia)));
      [ | simpl; lia | reflexivity | exact Hc2 ].
    cbn [size_ capacity_ heap fresh]. rewrite insert_insert_eq. reflexivity. }
  (* the second copy: the suffix *)
  assert (Hcopy2 :
    copy_construct_all (Iter (Block f) (Z.of_nat k + 1))
      (Iter (data_ v) (Z.of_nat k)) (wrap (size_ v - Z.of_nat k))
      (Mem (<[f := buffer (take k xs ++ [x]) inc]> (heap m)) (S f) w2) =
    Ret tt (Mem (<[f := buffer (take k xs ++ x :: drop k xs) inc]> (heap m))
                (S f) w3)).
  { rewrite wrap_small by lia.
    destruct (data_ v) as [|b] eqn:Hdata.
    - rewrite (Hnil eq_refl) in *. simpl in Hk, Hs.
      assert (k = 0%nat) as -> by lia. simpl in Hc3. injection Hc3 as <-.
      rewrite Hs. simpl. rewrite copy_construct_all_nil. reflexivity.
    - destruct Hd as [Hbf Hd].
      replace (Z.of_nat k + 1) with (Z.of_nat (length (Some <$> (take k xs ++ [x]))))
        by (rewrite length_fmap, length_app, Hlk; simpl; lia).
      replace (Z.of_nat k) with (Z.of_nat (length (Some <$> take k xs))) at 1
        by (rewrite length_fmap, Hlk; reflexivity).
      rewrite (copy_construct_all_ok f b (Some <$> (take k xs ++ [x]))
                 (replicate (Z.to_nat inc - length xs - 1) None)
                 (Some <$> take k xs)
                 (replicate (Z.to_nat (capacity_ v) - length xs) None)
                 (drop k xs) _ (S f) w2 w3);
        [ | unfold f; lia | | | exact Hc3 | rewrite length_drop; lia ].
      + rewrite insert_insert_eq. unfold buffer.
        rewrite app_assoc, <- fmap_app, <- app_assoc. cbn [app].
        do 4 f_equal. f_equal. list_length.
      + rewrite lookup_insert_eq. unfold buffer.
        rewrite length_app, Hlk, length_drop. simpl.
        rewrite <- replicate_add. do 3 f_equal. lia.
      + rewrite lookup_insert_ne by (unfold f; lia). rewrite Hd.
        unfold buffer. rewrite app_assoc, <- fmap_app, take_drop. reflexivity. }
  exists (Mem (<[f := buffer (take k xs ++ x :: drop k xs) inc]>
                 (without (data_ v) (heap m))) (S f) (destroy_each xs w3)).
  split; [| split].
  - unfold insert, bind at 1, this at 1. cbn [fst snd].
    rewrite decide_True by exact Hfull.
    unfold with_local, ret at 1. cbn [fst snd].
    unfold bind at 1, under at 1, this at 1. cbn [fst snd].
    unfold bind at 1, on_local at 1. cbn [fst snd]. fold inc.
    rewrite (new_buffer_ok m vector_ctor [] inc (world m));
      [ | apply holds_vector_ctor | simpl; lia | exact Hfinc | reflexivity ].
    cbn [fst snd data_ size_ capacity_ vector_ctor without destroy_each fold_left].
    fold f.
    unfold bind at 1, on_local at 1, this at 1. cbn [fst snd].
    unfold bind at 1, ptr_diff at 1, begin_. cbn [it_block it_index data_].
    rewrite decide_True by reflexivity. unfold ret at 1.
    rewrite Z.sub_0_r.
    unfold bind at 1, under at 1. cbn [fst snd]. unfold under at 1. cbn [fst snd].
    rewrite Hcopy1.
    unfold bind at 1, on_local at 1, set_size_ at 1.
    cbn [fst snd data_ size_ capacity_].
    rewrite wrap_small by lia.
    unfold bind at 1, on_local at 1, this at 1. cbn [fst snd].
    unfold bind at 1, on_local at 1. cbn [fst snd]. rewrite Hpush.
    cbn [fst snd].
    unfold bind at 1, on_local at 1, this at 1. cbn [fst snd].
    unfold bind at 1, ptr_diff at 1, end_.
    cbn [it_block it_index data_ size_].
    rewrite decide_True by reflexivity. unfold ret at 1.
    unfold bind at 1, under at 1. cbn [fst snd]. unfold under at 1. cbn [fst snd].
    rewrite Hcopy2.
    unfold bind at 1, on_local at 1, set_size_ at 1.
    cbn [fst snd data_ size_ capacity_].
    unfold bind at 1, swap_local at 1, swap. cbn [fst snd data_ size_ capacity_].
    unfold ret at 1. cbn [fst snd].
    erewrite (vector_dtor_ok _ _ xs);
      [ | destruct v; apply holds_fresh_insert;
          [exact Hv | fold f; simpl; lia | fold f; simpl; lia] ].
    cbn [heap fresh world data_].
    rewrite (wrap_small (size_ v - Z.of_nat k)) by lia.
    rewrite wrap_small by lia.
    unfold v', begin_, it_add. cbn [data_ size_ it_block it_index].
    replace (Z.of_nat k + 1 + (size_ v - Z.of_nat k)) with (size_ v + 1) by lia.
    destruct (data_ v) as [|b] eqn:Hdata; cbn [without]; [reflexivity|].
    rewrite delete_insert_ne by (destruct Hd; unfold f; intros ->; lia).
    reflexivity.
  - unfold v'. rewrite Hs.
    replace (Z.of_nat (length xs) + 1)
      with (Z.of_nat (length (take k xs ++ x :: drop k xs)))
      by (rewrite length_app, Hlk; simpl; rewrite length_drop; lia).
    apply holds_in_fresh;
      [ rewrite length_app, Hlk; simpl; rewrite length_drop; lia | lia
      | exact Hfinc | lia ].
  - simpl. clear -HP Hw3. revert w3 Hw3.
    induction xs as [|y ys IH]; intros w3 Hw3; [exact Hw3|].
    simpl. apply IH. apply (HP y w3 Hw3).
Qed.

(** ** Element access *)

Lemma load_element m v xs z :
  holds m v xs ->
  load (Iter (data_ v) z) m =
  match (if decide (0 <= z) then xs !! Z.to_nat z else None) with
  | Some x => Ret x m
  | None => Fault UndefinedBehaviour
  end.
Proof.
  intros Hv. pose proof (holds_le _ _ _ Hv) as Hle.
  pose proof (holds_nullptr _ _ _ Hv) as Hnil.
  destruct Hv as (Hs & Hcap & Hfit & Hd).
  unfold load, slot. cbn [it_block it_index].
  destruct (data_ v) as [|b].
  - rewrite (Hnil eq_refl). destruct (decide (0 <= z)); reflexivity.
  - destruct Hd as [_ Hd]. rewrite Hd, length_buffer by exact Hle.
    destruct (decide (0 <= z)) as [Hz|Hz].
    + destruct (xs !! Z.to_nat z) as [x|] eqn:Hx.
      * pose proof (lookup_lt_Some _ _ _ Hx) as Hlt.
        rewrite decide_True by lia.
        rewrite (lookup_buffer _ _ _ _ Hx). reflexivity.
      * apply lookup_ge_None in Hx.
        destruct (decide (0 <= z < Z.of_nat (Z.to_nat (capacity_ v)))); [|reflexivity].
        rewrite lookup_buffer_raw by lia. reflexivity.
    + rewrite decide_False by lia. reflexivity.
Qed.

(** X1: on a well-formed container holding [xs], reading [a[i]] gives the
    element number [i] of [xs] and changes nothing when [i < size()]; for
    every other index the read is undefined behaviour (a raw slot, or a slot
    outside the buffer): [operator[]] checks no bounds. *)
Theorem subscript_reads_element m v xs (i : nat) :
  holds m v xs ->
  deref (subscript (Z.of_nat i)) (v, m) =
  match xs !! i with
  | Some x => Ret x (v, m)
  | None => Fault UndefinedBehaviour
  end.
Proof.
  intros Hv. unfold deref, subscript, bind, this, ret, under. cbn [fst snd].
  rewrite (load_element m v xs _ Hv).
  rewrite decide_True by lia. rewrite Nat2Z.id.
  destruct (xs !! i); reflexivity.
Qed.

(** X2: on a well-formed container holding [xs], [front()] reads the first
    element and [back()] the last one; on an empty container both reads
    are undefined behaviour ([back()] then refers to [data_[SIZE_MAX]]). *)
Theorem front_and_back_read_the_ends m v xs :
  holds m v xs ->
  deref front (v, m) =
    match head xs with
    | Some x => Ret x (v, m)
    | None => Fault UndefinedBehaviour
    end /\
  deref back (v, m) =
    match last xs with
    | Some x => Ret x (v, m)
    | None => Fault UndefinedBehaviour
    end.
Proof.
  intros Hv. pose proof Hv as (Hs & Hcap & _). split.
  - unfold deref, front, bind, this, ret, under. cbn [fst snd].
    rewrite (load_element m v xs _ Hv). rewrite decide_True by lia.
    change (Z.to_nat 0) with 0%nat. rewrite <- head_lookup.
    destruct (head xs); reflexivity.
  - unfold deref, back, bind, this, ret, under. cbn [fst snd].
    rewrite (load_element m v xs _ Hv). rewrite last_lookup.
    destruct xs as [|x xs].
    + rewrite !lookup_nil. destruct (decide _); reflexivity.
    + rewrite wrap_small by (simpl in Hs; lia). rewrite decide_True by (simpl in Hs; lia).
      replace (Z.to_nat (size_ v - 1)) with (pred (length (x :: xs))) by (simpl in *; lia).
      destruct ((x :: xs) !! pred (length (x :: xs))); reflexivity.
Qed.

(** ** [clear] and [pop_back] *)

(** X3: [clear()] on a well-formed container always returns: every element
    is destroyed, first to last, the container is empty, and its buffer and
    capacity are the ones it had (no memory is released); the other buffers
    are untouched. *)
Theorem clear_destroys_elements m v xs :
  holds m v xs ->
  let v' := Vec (data_ v) 0 (capacity_ v) in
  exists m',
    clear (v, m) = Ret tt (v', m') /\
    holds m' v' [] /\
    world m' = destroy_each xs (world m) /\
    fresh m' = fresh m /\
    (forall b, Block b <> data_ v -> heap m' !! b = heap m !! b).
Proof.
  intros Hv v'. pose proof (holds_size _ _ _ Hv) as Hsz.
  pose proof (holds_le _ _ _ Hv) as Hle.
  pose proof (holds_nullptr _ _ _ Hv) as Hnil.
  destruct Hv as (Hs & Hcap & Hfit & Hd). destruct m as [h f w].
  unfold clear, bind, this, under, destroy_all, set_size_. cbn [fst snd].
  rewrite Hsz. subst v'.
  destruct (data_ v) as [|b] eqn:Hdata.
  - rewrite (Hnil eq_refl). cbn [destroy_from length]. unfold ret.
    cbn [fst snd]. rewrite Hdata. eexists. split; [reflexivity|].
    split; [| split; [reflexivity | split; [reflexivity | reflexivity]]].
    unfold holds. cbn [size_ capacity_ data_ length].
    split; [lia | split; [lia | split; [exact Hfit | lia]]].
  - destruct Hd as [Hb Hd].
    rewrite (destroy_from_ok xs [] (replicate (Z.to_nat (capacity_ v) - length xs) None)
               h f w b 0); [| exact Hd | reflexivity ].
    cbn [fst snd data_ size_ capacity_ app]. rewrite Hdata.
    eexists. split; [reflexivity|].
    split; [| split; [reflexivity | split; [reflexivity |]]].
    + unfold holds. cbn [size_ capacity_ data_ length heap fresh].
      split; [reflexivity | split; [lia | split; [exact Hfit | split; [exact Hb|]]]].
      rewrite lookup_insert_eq, buffer_nil, <- buffer_split by exact Hle.
      reflexivity.
    + intros b' Hb'. cbn [heap].
      rewrite lookup_insert_ne by congruence. reflexivity.
Qed.

Lemma pop_back_ok m v ys x b :
  holds m v (ys ++ [x]) ->
  data_ v = Block b ->
  pop_back (v, m) =
  Ret tt (Vec (Block b) (size_ v - 1) (capacity_ v),
          Mem (<[b := buffer ys (capacity_ v)]> (heap m)) (fresh m)
              (destructor x (world m))).
Proof.
  intros (Hs & Hcap & Hfit & Hd) Hdata. destruct m as [h f w].
  rewrite length_app in Hs. simpl in Hs.
  rewrite Hdata in Hd. destruct Hd as [Hb Hd].
  unfold pop_back, bind, this, assert. cbn [fst snd].
  replace (size_ v =? 0) with false by (symmetry; apply Z.eqb_neq; lia).
  cbn [negb]. unfold ret, under. cbn [fst snd].
  rewrite wrap_small by lia.
  rewrite <- buffer_snoc in Hd. rewrite Hdata.
  erewrite destroy_at_middle; [| exact Hd | rewrite length_fmap; lia ].
  unfold set_size_. cbn [fst snd data_ size_ capacity_ heap fresh world].
  rewrite Hdata, <- buffer_next by lia. reflexivity.
Qed.

(** X4: [pop_back()] on a well-formed container: when the container is
    empty the assertion [size_ != 0] fails; otherwise the call returns, the
    last element has been destroyed, the others are in place, and the buffer
    and the capacity are unchanged. *)
Theorem pop_back_removes_last m v xs :
  holds m v xs ->
  match last xs with
  | None => pop_back (v, m) = Fault AssertionFailed
  | Some x =>
      let v' := Vec (data_ v) (size_ v - 1) (capacity_ v) in
      exists m',
        pop_back (v, m) = Ret tt (v', m') /\
        holds m' v' (removelast xs) /\
        world m' = destructor x (world m) /\
        fresh m' = fresh m
  end.
Proof.
  intros Hv. pose proof (holds_nullptr _ _ _ Hv) as Hnil.
  pose proof Hv as (Hs & Hcap & Hfit & Hd).
  destruct (decide (xs = [])) as [->|Hne].
  - simpl in *. unfold pop_back, bind, this. cbn [fst snd]. rewrite Hs. reflexivity.
  - destruct (exists_last Hne) as (ys & x & ->).
    rewrite last_snoc, removelast_last. intros v'.
    rewrite length_app in Hs. simpl in Hs.
    destruct (data_ v) as [|b] eqn:Hdata.
    { specialize (Hnil eq_refl). destruct ys; discriminate. }
    destruct Hd as [Hb Hd].
    eexists. split; [apply (pop_back_ok m v ys x b Hv Hdata)|].
    split; [| split; reflexivity].
    unfold holds, v'. cbn [size_ capacity_ data_ heap fresh].
    split; [lia | split; [lia | split; [exact Hfit | split; [exact Hb|]]]].
    apply lookup_insert_eq.
Qed.

(** ** [reserve] and [shrink_to_fit] on a well-formed container *)

Lemma infallible_destroy_each P xs :
  infallible P -> forall w, P w -> P (destroy_each xs w).
Proof.
  intros HP. unfold destroy_each.
  induction xs as [|x xs IH]; intros w Hw; [exact Hw|].
  simpl. apply IH. apply (HP x w Hw).
Qed.

Lemma holds_new_buffer m v xs n w1 :
  holds m v xs ->
  size_ v <= n < 2 ^ size_bits ->
  fits n ->
  holds (Mem (<[fresh m := buffer xs n]> (without (data_ v) (heap m)))
             (S (fresh m)) w1)
        (Vec (Block (fresh m)) (size_ v) n) xs.
Proof.
  intros (Hs & Hcap & Hfit & Hd) Hn Hfn. unfold holds.
  cbn [size_ capacity_ data_ heap fresh].
  split; [exact Hs | split; [lia | split; [exact Hfn | split; [lia|]]]].
  rewrite lookup_insert_eq. reflexivity.
Qed.

Lemma holds_fits_size m v xs : holds m v xs -> fits (size_ v).
Proof.
  intros (Hs & Hcap & Hfit & _).
  apply (fits_le _ (capacity_ v)); [lia | exact Hfit].
Qed.

(** X5: [reserve(n)] on a well-formed container whose element operations do
    not throw, for a request [n] whose byte size [n * sizeof(T)] is a
    [size_t], always returns; the elements are the same, in order, and the
    capacity afterwards is the larger of the old capacity and [n]:
    [reserve] never shrinks and never allocates more than it was asked. *)
Theorem reserve_keeps_elements P m v xs n :
  infallible P ->
  P (world m) ->
  holds m v xs ->
  0 <= n ->
  fits n ->
  exists v' m',
    reserve n (v, m) = Ret tt (v', m') /\
    holds m' v' xs /\
    capacity_ v' = Z.max (capacity_ v) n /\
    P (world m').
Proof.
  intros HP Hw Hv Hn Hfn. pose proof (fits_word n Hn Hfn) as Hword.
  destruct (Z_lt_le_dec n (capacity_ v)) as [Hlt|Hge].
  - exists v, m. rewrite reserve_below by exact Hlt.
    split; [reflexivity | split; [exact Hv | split; [lia | exact Hw]]].
  - destruct (infallible_copy_each P xs HP _ Hw) as (w1 & Hc & Hw1).
    pose proof Hv as (Hs & Hcap & _).
    destruct (reserve_at_least n m v xs w1 Hv) as (Hrun & Hv' & _);
      [lia | exact Hfn | exact Hc |].
    eexists _, _. split; [exact Hrun|].
    split; [exact Hv' | split; [cbn [capacity_]; lia|]].
    cbn [world]. apply infallible_destroy_each; assumption.
Qed.

(** X6: [shrink_to_fit()] on a well-formed container whose element
    operations do not throw always returns with the same elements and with
    [capacity() == size()]; when the capacity already equals the size the
    call changes nothing at all (the buffer is the same one). *)
Theorem shrink_to_fit_tightens P m v xs :
  infallible P ->
  P (world m) ->
  holds m v xs ->
  exists v' m',
    shrink_to_fit (v, m) = Ret tt (v', m') /\
    holds m' v' xs /\
    capacity_ v' = size_ v /\
    size_ v' = size_ v /\
    (capacity_ v = size_ v -> v' = v /\ m' = m) /\
    P (world m').
Proof.
  intros HP Hw Hv. pose proof Hv as (Hs & Hcap & _).
  unfold shrink_to_fit, bind, this. cbn [fst snd].
  destruct (decide (capacity_ v = size_ v)) as [Heq|Hne].
  - exists v, m. unfold ret.
    split; [reflexivity | split; [exact Hv | split; [exact Heq|]]].
    split; [reflexivity | split; [intros _; split; reflexivity | exact Hw]].
  - destruct (infallible_copy_each P xs HP _ Hw) as (w1 & Hc & Hw1).
    pose proof (holds_fits_size _ _ _ Hv) as Hfs.
    rewrite (new_buffer_ok m v xs (size_ v) w1 Hv) by (lia || assumption).
    eexists _, _. split; [reflexivity|].
    split; [apply holds_new_buffer; [exact Hv | lia | exact Hfs]|].
    split; [reflexivity | split; [reflexivity | split; [intros; contradiction|]]].
    cbn [world]. apply infallible_destroy_each; assumption.
Qed.

(** ** A request whose byte size wraps *)

(** X31: [reserve(n)] does not check the product [n * sizeof(T)] that it
    passes to [operator new].  When the product wraps, the buffer is
    shorter than [n] elements; as long as it has room for the current
    elements and no copy throws, the call returns all the same, with
    [capacity() == n]: the container claims more room than its buffer has
    and is no longer well formed, and once the elements fill the buffer the
    next [push_back] constructs behind its end, which is undefined
    behaviour. *)
Theorem reserve_wraps_the_byte_size P m v xs n :
  infallible P ->
  P (world m) ->
  holds m v xs ->
  capacity_ v <= n < 2 ^ size_bits ->
  ~ fits n ->
  let slots := wrap (n * sizeof) / sizeof in
  size_ v <= slots ->
  exists v' m' cells,
    reserve n (v, m) = Ret tt (v', m') /\
    capacity_ v' = n /\
    size_ v' = size_ v /\
    data_ v' = Block (fresh m) /\
    heap m' !! fresh m = Some cells /\
    Z.of_nat (length cells) = slots /\
    slots < n /\
    ~ well_formed m' v' /\
    (size_ v = slots ->
     forall fuel x,
       push_back (S fuel) (Value x) (v', m') = Fault UndefinedBehaviour).
Proof.
  intros HP Hw Hv Hn Hwraps slots Hroom.
  pose proof sizeof_positive as Hpos.
  pose proof (holds_le _ _ _ Hv) as Hle.
  pose proof Hv as (Hs & Hcap & Hfit & Hd).
  destruct (infallible_copy_each P xs HP _ Hw) as (w1 & Hc & Hw1).
  assert (Hslots : 0 <= slots < n).
  { unfold slots, wrap, fits in *.
    pose proof (Z.mod_pos_bound (n * sizeof) (2 ^ size_bits)
                  ltac:(unfold size_bits; lia)) as Hm.
    split; [apply Z.div_pos; lia|].
    apply Z.div_lt_upper_bound; lia. }
  assert (Hlen : Z.of_nat (length (buffer xs slots)) = slots)
    by (rewrite length_buffer by lia; lia).
  exists (Vec (Block (fresh m)) (size_ v) n),
         (Mem (<[fresh m := buffer xs slots]> (without (data_ v) (heap m)))
              (S (fresh m)) (destroy_each xs w1)),
         (buffer xs slots).
  split; [| split; [reflexivity | split; [reflexivity | split; [reflexivity|]]]].
  { unfold reserve, bind, this. cbn [fst snd].
    rewrite decide_False by lia.
    apply (new_buffer_run m v xs n w1 Hv); [lia | exact Hroom | exact Hc]. }
  cbn [heap]. rewrite lookup_insert_eq.
  split; [reflexivity | split; [exact Hlen | split; [lia | split]]].
  - intros (_ & _ & _ & Hwd). cbn [data_ capacity_ heap] in Hwd.
    destruct Hwd as (_ & cells & Hcells & Hcap' & _).
    rewrite lookup_insert_eq in Hcells. injection Hcells as <-. lia.
  - intros Hfull fuel x. rewrite push_back_S. cbn [fst snd size_ capacity_ data_].
    rewrite decide_True by lia.
    unfold bind, under, construct_at, bind, read, ret. cbn [fst snd].
    unfold slot. cbn [it_block it_index heap]. rewrite lookup_insert_eq.
    rewrite decide_False by lia. reflexivity.
Qed.

(** ** A copy that throws during a reallocation *)

Lemma copy_construct_all_throw m bd bs (pre post spre spost : list (option T))
    xs k x wk wf e :
  bd <> bs ->
  heap m !! bd = Some (pre ++ replicate (length xs) None ++ post) ->
  heap m !! bs = Some (spre ++ (Some <$> xs) ++ spost) ->
  xs !! k = Some x ->
  copy_each (take k xs) (world m) = Some wk ->
  copy_constructor x wk = (wf, Some e) ->
  copy_construct_all (Iter (Block bd) (Z.of_nat (length pre)))
                     (Iter (Block bs) (Z.of_nat (length spre)))
                     (Z.of_nat (length xs)) m =
  Throw e (Mem (heap m) (fresh m) (fold_right destructor wf (take k xs))).
Proof.
  intros Hne Hd Hs Hx Hc He.
  destruct m as [h f w]. cbn [heap fresh world] in *.
  unfold copy_construct_all. rewrite Nat2Z.id.
  erewrite construct_from_throw; eauto; try lia.
  cbn [fst snd]. rewrite Z.add_0_l, Nat2Z.id.
  assert (Hlen : length (take k xs) = k).
  { apply length_take_le. apply lookup_lt_Some in Hx. lia. }
  rewrite <- Hlen at 1 2.
  rewrite unwind_ok with (bs := bs) (ys := take k xs) (l1 := pre)
                         (l2 := replicate (length xs - k) None ++ post);
    [| exact Hne | apply lookup_insert_eq | reflexivity ].
  rewrite insert_insert_eq, Hlen.
  rewrite (app_assoc (replicate k None)), <- replicate_add.
  replace (k + (length xs - k))%nat with (length xs)
    by (apply lookup_lt_Some in Hx; lia).
  rewrite insert_id by exact Hd. reflexivity.
Qed.

Lemma copy_into_fresh_throw m v xs n h1 f1 w b1 k x wk wf e :
  holds m v xs ->
  (length xs <= Z.to_nat n)%nat ->
  (fresh m <= b1)%nat ->
  h1 = <[b1 := buffer [] n]> (heap m) ->
  xs !! k = Some x ->
  copy_each (take k xs) w = Some wk ->
  copy_constructor x wk = (wf, Some e) ->
  copy_construct_all (Iter (Block b1) 0) (Iter (data_ v) 0) (size_ v) (Mem h1 f1 w) =
  Throw e (Mem h1 f1 (fold_right destructor wf (take k xs))).
Proof.
  intros Hv Hle Hb1 -> Hx Hc He.
  pose proof (holds_nullptr _ _ _ Hv) as Hnil.
  destruct Hv as (Hs & Hcap & Hfit & Hd).
  destruct (data_ v) as [|b].
  - rewrite (Hnil eq_refl) in Hx. discriminate.
  - destruct Hd as [Hb Hd]. rewrite Hs.
    pose proof (copy_construct_all_throw
             (Mem (<[b1 := buffer [] n]> (heap m)) f1 w) b1 b
             [] (replicate (Z.to_nat n - length xs) None)
             [] (replicate (Z.to_nat (capacity_ v) - length xs) None)
             xs k x wk wf e) as Hthrow.
    cbn [length Z.of_nat heap fresh world app] in Hthrow.
    apply Hthrow; [lia | | | exact Hx | exact Hc | exact He].
    + cbn [heap]. rewrite lookup_insert_eq, buffer_nil. simpl.
      rewrite <- buffer_split by lia. reflexivity.
    + cbn [heap]. rewrite lookup_insert_ne by lia. exact Hd.
Qed.

Lemma new_buffer_throw m v xs n k x wk wf e :
  holds m v xs ->
  size_ v <= n < 2 ^ size_bits ->
  fits n ->
  heap m !! fresh m = None ->
  xs !! k = Some x ->
  copy_each (take k xs) (world m) = Some wk ->
  copy_constructor x wk = (wf, Some e) ->
  new_buffer n (v, m) =
  Throw e (v, Mem (heap m) (S (fresh m)) (fold_right destructor wf (take k xs))).
Proof.
  intros Hv Hn Hfn Hfresh Hx Hc He.
  pose proof (holds_le _ _ _ Hv) as Hle.
  pose proof Hv as (Hs & Hcap & Hfit & Hd).
  destruct m as [h f w]. destruct v as [p sz cap].
  cbn [heap fresh world size_ capacity_ data_] in *.
  unfold new_buffer, bind, this, assert. cbn [fst snd size_].
  replace (n >=? sz) with true by (symmetry; apply Z.geb_le; lia).
  unfold ret, with_local, under, swap_local, on_local, operator_new,
    set_data_, set_capacity_, bind.
  cbn [fst snd fresh heap world size_ data_ capacity_ vector_ctor swap].
  rewrite (slots_of_bytes n) by (lia || assumption).
  rewrite <- buffer_nil.
  erewrite (copy_into_fresh_throw (Mem h f w) (Vec p sz cap) xs n _ (S f) w f);
    [ | exact Hv | lia | cbn [fresh]; lia | reflexivity | exact Hx | exact Hc | exact He ].
  cbn [fst snd]. unfold vector_dtor, bind, destroy_all, operator_delete.
  cbn [data_ size_]. change (Z.to_nat 0) with 0%nat. cbn [destroy_from].
  unfold ret. cbn [heap fresh world].
  rewrite lookup_insert_eq, delete_insert_eq, delete_id by exact Hfresh.
  reflexivity.
Qed.

(** X7: when the copy of element [k] throws during [reserve(n)] (with
    [n >= capacity()] and a byte size [n * sizeof(T)] that is a [size_t])
    on a well-formed container, the call throws the same
    exception, the container is untouched and still holds its elements, and
    the heap is exactly the one before the call: the new buffer has been
    released again, and the [k] copies made so far have been destroyed, last
    one first.  [shrink_to_fit()] behaves the same when it has to
    reallocate. *)
Theorem reserve_failure_restores_memory m v xs n k x wk wf e :
  holds m v xs ->
  capacity_ v <= n ->
  fits n ->
  heap m !! fresh m = None ->
  xs !! k = Some x ->
  copy_each (take k xs) (world m) = Some wk ->
  copy_constructor x wk = (wf, Some e) ->
  let m' := Mem (heap m) (S (fresh m)) (fold_right destructor wf (take k xs)) in
  reserve n (v, m) = Throw e (v, m') /\
  (capacity_ v <> size_ v -> shrink_to_fit (v, m) = Throw e (v, m')) /\
  holds m' v xs.
Proof.
  intros Hv Hn Hfn Hfresh Hx Hc He m'. pose proof Hv as (Hs & Hcap & Hfit & Hd).
  assert (Hword : n < 2 ^ size_bits) by (apply fits_word; [lia | exact Hfn]).
  pose proof (holds_fits_size _ _ _ Hv) as Hfs.
  split; [| split].
  - unfold reserve, bind, this. cbn [fst snd].
    rewrite decide_False by lia.
    apply (new_buffer_throw m v xs n k x wk wf e); try assumption. lia.
  - intros Hne. unfold shrink_to_fit, bind, this. cbn [fst snd].
    rewrite decide_False by exact Hne.
    apply (new_buffer_throw m v xs (size_ v) k x wk wf e); try assumption. lia.
  - unfold holds, m'. cbn [heap fresh].
    split; [exact Hs | split; [exact Hcap | split; [exact Hfit|]]].
    destruct (data_ v) as [|b]; [exact Hd|].
    destruct Hd as [Hb Hd]. split; [lia | exact Hd].
Qed.

Lemma push_back_spare_throw m v xs x w1 e fuel :
  holds m v xs ->
  size_ v < capacity_ v ->
  copy_constructor x (world m) = (w1, Some e) ->
  push_back (S fuel) (Value x) (v, m) = Throw e (v, set_world m w1).
Proof.
  intros (Hs & Hcap & Hfit & Hd) Hlt Hx.
  destruct (data_ v) as [|b] eqn:Hb; [lia|]. destruct Hd as [Hbf Hd].
  rewrite push_back_S. cbn [fst snd].
  rewrite decide_True by lia.
  unfold bind, under. cbn [fst snd]. rewrite Hb.
  rewrite buffer_next in Hd by lia.
  erewrite construct_at_value; [| exact Hd | rewrite length_fmap; lia ].
  rewrite Hx. reflexivity.
Qed.

(** X8: [push_back(x)] on a well-formed container with spare capacity never
    reallocates.  When the copy of [x] succeeds, [x] is the new last
    element, and the buffer, the capacity and the other buffers are the
    same; when the copy throws, the container and the heap are unchanged. *)
Theorem push_back_within_capacity m v xs x fuel :
  holds m v xs ->
  size_ v < capacity_ v ->
  match copy_constructor x (world m) with
  | (w1, None) =>
      let v' := Vec (data_ v) (size_ v + 1) (capacity_ v) in
      exists m',
        push_back (S fuel) (Value x) (v, m) = Ret tt (v', m') /\
        holds m' v' (xs ++ [x]) /\
        world m' = w1 /\ fresh m' = fresh m /\
        (forall b, Block b <> data_ v -> heap m' !! b = heap m !! b)
  | (w1, Some e) =>
      push_back (S fuel) (Value x) (v, m) = Throw e (v, set_world m w1)
  end.
Proof.
  intros Hv Hlt. destruct (copy_constructor x (world m)) as [w1 [e|]] eqn:Hx.
  - apply (push_back_spare_throw m v xs x w1 e fuel Hv Hlt Hx).
  - pose proof Hv as (Hs & Hcap & Hfit & Hd).
    destruct (data_ v) as [|b] eqn:Hb; [lia|]. destruct Hd as [Hbf Hd].
    intros v'. eexists. split; [| split; [| split; [| split]]].
    + apply (push_back_spare m v xs x w1 b fuel Hv Hlt Hb Hx).
    + unfold holds, v'. cbn [size_ capacity_ data_ heap fresh].
      split; [rewrite length_app; simpl; lia | split; [lia | split; [exact Hfit | split; [exact Hbf|]]]].
      apply lookup_insert_eq.
    + reflexivity.
    + reflexivity.
    + intros b' Hb'. cbn [heap]. rewrite lookup_insert_ne by congruence.
      reflexivity.
Qed.

Lemma push_back_grow_throw m v xs x k y wk wf e fuel :
  holds m v xs ->
  size_ v = capacity_ v ->
  capacity_ v < increase_capacity v ->
  fits (increase_capacity v) ->
  heap m !! fresh m = None ->
  (xs ++ [x]) !! k = Some y ->
  copy_each (take k (xs ++ [x])) (world m) = Some wk ->
  copy_constructor y wk = (wf, Some e) ->
  push_back (S (S fuel)) (Value x) (v, m) =
  Throw e (v, Mem (heap m) (S (fresh m))
                  (if decide (k < length xs)%nat
                   then fold_right destructor wf (take k xs)
                   else destroy_each xs wf)).
Proof.
  intros Hv Heq Hgrow Hfinc Hfresh Hy Hc He.
  assert (Hcap : 0 <= capacity_ v < 2 ^ size_bits)
    by (destruct Hv as (? & ? & _); lia).
  pose proof (increase_capacity_bound v ltac:(lia)) as Hb.
  pose proof (holds_size _ _ _ Hv) as Hsz.
  assert (Hlen : size_ v = Z.of_nat (length xs)) by (destruct Hv; assumption).
  rewrite push_back_S. cbn [fst snd]. rewrite decide_False by lia.
  destruct (decide (k < length xs)%nat) as [Hk|Hk].
  - rewrite lookup_app_l in Hy by exact Hk.
    rewrite take_app_le in Hc by lia.
    unfold push_back_realloc, with_local, bind, under, ret, this, on_local.
    cbn [fst snd].
    rewrite (new_buffer_ok m vector_ctor [] (increase_capacity v) (world m));
      [ | apply holds_vector_ctor | simpl; lia | exact Hfinc | reflexivity ].
    cbn [fst snd data_ size_ capacity_ vector_ctor without fresh heap world
         destroy_each fold_left].
    erewrite (copy_into_fresh_throw m v xs (increase_capacity v));
      [ | exact Hv | lia | reflexivity | reflexivity | exact Hy | exact Hc | exact He ].
    cbn [fst snd]. unfold vector_dtor, bind, destroy_all, operator_delete.
    cbn [data_ size_]. change (Z.to_nat 0) with 0%nat. cbn [destroy_from].
    unfold ret. cbn [heap fresh world].
    rewrite lookup_insert_eq, delete_insert_eq, delete_id by exact Hfresh.
    destruct m; reflexivity.
  - apply lookup_lt_Some in Hy as Hk'. rewrite length_app in Hk'. simpl in Hk'.
    assert (k = length xs) as -> by lia.
    rewrite list_lookup_middle in Hy by reflexivity. injection Hy as <-.
    rewrite take_app_length in Hc.
    rewrite (push_back_realloc_run _ _ m v xs wk);
      [ | exact Hv | lia | exact Hfinc | exact Hc ].
    rewrite Hlen.
    erewrite (push_back_spare_throw _ _ xs x wf e);
      [ | apply holds_in_fresh; first [lia | assumption] | simpl; lia | exact He ].
    cbn [fst snd]. unfold set_world. cbn [heap fresh world].
    erewrite (vector_dtor_ok _ _ xs); [ | apply holds_in_fresh; first [lia | assumption] ].
    cbn [heap fresh world data_ without].
    rewrite delete_insert_eq, delete_id by exact Hfresh.
    destruct m; reflexivity.
Qed.

(** X9: when a copy throws during a [push_back(x)] that has to grow (the
    copy of the old element [k], or the copy of [x] itself for
    [k = size()]), to a capacity whose byte size is a [size_t], the call
    throws the same exception, the container is
    untouched, and the heap is exactly the one before the call: the new
    buffer is released and every copy made so far is destroyed (last one
    first by [copy_construct_all] when an old element failed; first to last
    by the destructor of [tmp] when [x] failed). *)
Theorem push_back_failure_restores_memory m v xs x k y wk wf e fuel :
  holds m v xs ->
  size_ v = capacity_ v ->
  capacity_ v < increase_capacity v ->
  fits (increase_capacity v) ->
  heap m !! fresh m = None ->
  (xs ++ [x]) !! k = Some y ->
  copy_each (take k (xs ++ [x])) (world m) = Some wk ->
  copy_constructor y wk = (wf, Some e) ->
  let w' := if decide (k < length xs)%nat
            then fold_right destructor wf (take k xs)
            else destroy_each xs wf in
  let m' := Mem (heap m) (S (fresh m)) w' in
  push_back (S (S fuel)) (Value x) (v, m) = Throw e (v, m') /\
  holds m' v xs.
Proof.
  intros Hv Heq Hgrow Hfinc Hfresh Hy Hc He w' m'. split.
  - apply (push_back_grow_throw m v xs x k y wk wf e fuel); assumption.
  - destruct Hv as (Hs & Hc' & Hfit & Hd). unfold holds, m'. cbn [heap fresh].
    split; [exact Hs | split; [exact Hc' | split; [exact Hfit|]]].
    destruct (data_ v) as [|b]; [exact Hd|].
    destruct Hd as [Hb' Hd]. split; [lia | exact Hd].
Qed.

(** ** [push_back] in sequence *)

Lemma push_back_spare_from m v xs bs scells j y w1 b fuel :
  holds m v xs ->
  size_ v < capacity_ v ->
  data_ v = Block b ->
  heap m !! bs = Some scells ->
  scells !! j = Some (Some y) ->
  copy_constructor y (world m) = (w1, None) ->
  push_back (S fuel) (Elem (Iter (Block bs) (Z.of_nat j))) (v, m) =
  Ret tt (Vec (Block b) (size_ v + 1) (capacity_ v),
          Mem (<[b := buffer (xs ++ [y]) (capacity_ v)]> (heap m)) (fresh m) w1).
Proof.
  intros (Hs & Hcap & Hfit & Hd) Hlt Hb Hbs Hj Hx. rewrite Hb in Hd. destruct Hd as [Hbf Hd].
  rewrite push_back_S. cbn [fst snd].
  rewrite decide_True by lia.
  unfold bind, under. cbn [fst snd]. rewrite Hb, Hs.
  erewrite construct_at_lookup;
    [ | exact Hd | apply lookup_buffer_raw; lia | exact Hbs | exact Hj | exact Hx ].
  unfold set_size_. cbn [fst snd size_ capacity_ data_].
  rewrite wrap_small by lia. rewrite buffer_push by lia.
  rewrite Hb. reflexivity.
Qed.

(** The growth path of [push_back], for an argument that is a temporary of
    the caller or an element of the container itself. *)
Lemma push_back_grow m v xs val y w1 w2 fuel :
  holds m v xs ->
  size_ v = capacity_ v ->
  capacity_ v < increase_capacity v ->
  fits (increase_capacity v) ->
  val = Value y \/
    (exists b j, val = Elem (Iter (Block b) (Z.of_nat j)) /\
                 data_ v = Block b /\ xs !! j = Some y) ->
  copy_each xs (world m) = Some w1 ->
  copy_constructor y w1 = (w2, None) ->
  push_back (S (S fuel)) val (v, m) =
  Ret tt (Vec (Block (fresh m)) (size_ v + 1) (increase_capacity v),
          Mem (<[fresh m := buffer (xs ++ [y]) (increase_capacity v)]>
                 (without (data_ v) (heap m)))
              (S (fresh m)) (destroy_each xs w2)).
Proof.
  intros Hv Heq Hgrow Hfinc Hval Hc1 Hx.
  assert (Hcap : 0 <= capacity_ v < 2 ^ size_bits)
    by (destruct Hv as (? & ? & _); lia).
  pose proof (increase_capacity_bound v ltac:(lia)) as Hb.
  pose proof (holds_size _ _ _ Hv) as Hsz.
  assert (Hlen : size_ v = Z.of_nat (length xs)) by (destruct Hv; assumption).
  rewrite push_back_S. cbn [fst snd].
  rewrite decide_False by lia.
  rewrite (push_back_realloc_run _ _ m v xs w1);
    [ | exact Hv | lia | exact Hfinc | exact Hc1 ].
  rewrite Hlen.
  assert (Hpush :
    push_back (S fuel) val
      (Vec (Block (fresh m)) (Z.of_nat (length xs)) (increase_capacity v),
       Mem (<[fresh m := buffer xs (increase_capacity v)]> (heap m))
           (S (fresh m)) w1) =
    Ret tt (Vec (Block (fresh m)) (Z.of_nat (length xs) + 1) (increase_capacity v),
            Mem (<[fresh m := buffer (xs ++ [y]) (increase_capacity v)]>
                   (<[fresh m := buffer xs (increase_capacity v)]> (heap m)))
                (S (fresh m)) w2)).
  { set (tmp := Vec (Block (fresh m)) (Z.of_nat (length xs)) (increase_capacity v)).
    set (m1 := Mem (<[fresh m := buffer xs (increase_capacity v)]> (heap m))
                   (S (fresh m)) w1).
    assert (Htmp : holds m1 tmp xs) by (apply holds_in_fresh; first [lia | assumption]).
    destruct Hval as [-> | (b & j & -> & Hdata & Hj)].
    - apply (push_back_spare m1 tmp xs y w2 (fresh m) fuel Htmp);
        [ simpl; lia | reflexivity | exact Hx ].
    - destruct Hv as (_ & _ & _ & Hd). rewrite Hdata in Hd. destruct Hd as [Hbf Hd].
      apply (push_back_spare_from m1 tmp xs b (buffer xs (capacity_ v)) j y w2
               (fresh m) fuel Htmp);
        [ simpl; lia | reflexivity | | | exact Hx ].
      + cbn [heap m1]. rewrite lookup_insert_ne by lia. exact Hd.
      + apply lookup_buffer. exact Hj. }
  rewrite Hpush.
  cbn [fst snd data_ size_ capacity_ heap fresh world].
  rewrite insert_insert_eq.
  erewrite (vector_dtor_ok _ v xs);
    [ | apply holds_fresh_insert; [exact Hv | simpl; lia | simpl; lia] ].
  cbn [heap fresh world].
  destruct (data_ v) as [|b] eqn:Hd; cbn [without]; [reflexivity|].
  rewrite delete_insert_ne; [reflexivity|].
  destruct Hv as (_ & _ & _ & Hv). rewrite Hd in Hv. lia.
Qed.

Lemma holds_grown m v xs y w :
  holds m v xs ->
  capacity_ v < increase_capacity v ->
  fits (increase_capacity v) ->
  holds (Mem (<[fresh m := buffer (xs ++ [y]) (increase_capacity v)]>
                (without (data_ v) (heap m)))
             (S (fresh m)) w)
        (Vec (Block (fresh m)) (size_ v + 1) (increase_capacity v)) (xs ++ [y]).
Proof.
  intros (Hs & Hcap & Hfit & Hd) Hgrow Hfinc.
  pose proof (increase_capacity_bound v ltac:(lia)) as Hb.
  rewrite Hs.
  replace (Z.of_nat (length xs) + 1) with (Z.of_nat (length (xs ++ [y])))
    by (rewrite length_app; simpl; lia).
  apply holds_in_fresh; [rewrite length_app; simpl; lia | lia | exact Hfinc | lia].
Qed.

(** [push_back] on a well-formed container whose element operations do not
    throw, on either path. *)
Lemma push_back_run P m v xs x fuel :
  infallible P ->
  P (world m) ->
  holds m v xs ->
  size_ v < capacity_ v \/
    (capacity_ v < increase_capacity v /\ fits (increase_capacity v)) ->
  exists v' m',
    push_back (S (S fuel)) (Value x) (v, m) = Ret tt (v', m') /\
    holds m' v' (xs ++ [x]) /\
    P (world m') /\
    size_ v' = size_ v + 1 /\
    capacity_ v' =
      (if decide (size_ v = capacity_ v) then increase_capacity v
       else capacity_ v).
Proof.
  intros HP Hw Hv Hroom. pose proof Hv as (Hs & Hcap & Hfit & Hd).
  destruct (decide (size_ v = capacity_ v)) as [Heq|Hne].
  - destruct Hroom as [Hlt|[Hgrow Hfinc]]; [lia|].
    destruct (infallible_copy_each P xs HP _ Hw) as (w1 & Hc & Hw1).
    destruct (HP x w1 Hw1) as ((w2 & Hx & Hw2) & _).
    eexists _, _. split; [| split; [| split; [| split]]].
    + apply (push_back_grow m v xs (Value x) x w1 w2 fuel); auto.
    + apply holds_grown; assumption.
    + cbn [world]. apply infallible_destroy_each; assumption.
    + reflexivity.
    + reflexivity.
  - destruct (HP x _ Hw) as ((w1 & Hx & Hw1) & _).
    destruct (data_ v) as [|b] eqn:Hb; [lia|]. destruct Hd as [Hbf Hd].
    eexists _, _. split; [| split; [| split; [| split]]].
    + apply (push_back_spare m v xs x w1 b (S fuel) Hv); [lia | exact Hb | exact Hx].
    + unfold holds. cbn [size_ capacity_ data_ heap fresh].
      split; [rewrite length_app; simpl; lia | split; [lia | split; [exact Hfit | split; [exact Hbf|]]]].
      apply lookup_insert_eq.
    + exact Hw1.
    + reflexivity.
    + reflexivity.
Qed.

(** X10: [a.push_back(a[j])], the argument being a reference to an element
    of the container itself, appends a copy of that element, also when the
    call has to reallocate (to a capacity whose byte size is a [size_t]):
    the new buffer is filled before the old one is
    released, so the reference is read while it is still valid. *)
Theorem push_back_of_own_element P m v xs (j : nat) y fuel :
  infallible P ->
  P (world m) ->
  holds m v xs ->
  xs !! j = Some y ->
  size_ v < capacity_ v \/
    (capacity_ v < increase_capacity v /\ fits (increase_capacity v)) ->
  exists v' m',
    bind (subscript (Z.of_nat j)) (fun p => push_back (S (S fuel)) (Elem p))
         (v, m) = Ret tt (v', m') /\
    holds m' v' (xs ++ [y]) /\
    P (world m').
Proof.
  intros HP Hw Hv Hj Hroom. pose proof Hv as (Hs & Hcap & Hfit & Hd).
  pose proof (holds_nullptr _ _ _ Hv) as Hnil.
  destruct (data_ v) as [|b] eqn:Hb.
  { rewrite (Hnil eq_refl) in Hj. discriminate. }
  destruct Hd as [Hbf Hd].
  unfold subscript, bind at 1, bind at 1, this, ret. cbn [fst snd]. rewrite Hb.
  destruct (decide (size_ v = capacity_ v)) as [Heq|Hne].
  - destruct Hroom as [Hlt|[Hgrow Hfinc]]; [lia|].
    destruct (infallible_copy_each P xs HP _ Hw) as (w1 & Hc & Hw1).
    destruct (HP y w1 Hw1) as ((w2 & Hx & Hw2) & _).
    eexists _, _. split; [| split].
    + apply (push_back_grow m v xs _ y w1 w2 fuel); auto.
      right. exists b, j. auto.
    + apply holds_grown; assumption.
    + cbn [world]. apply infallible_destroy_each; assumption.
  - destruct (HP y _ Hw) as ((w1 & Hx & Hw1) & _).
    eexists _, _. split; [| split].
    + apply (push_back_spare_elem m v xs j y w1 b (S fuel) Hv);
        [lia | exact Hb | exact Hj | exact Hx].
    + unfold holds. cbn [size_ capacity_ data_ heap fresh].
      split; [rewrite length_app; simpl; lia | split; [lia | split; [exact Hfit | split; [exact Hbf|]]]].
      apply lookup_insert_eq.
    + exact Hw1.
Qed.

(** The capacities that a container filled by [push_back] alone goes
    through: 0, or at least 4 and at most one and a half times the size,
    rounded up generously. *)
Lemma push_back_each_run P fuel :
  infallible P ->
  forall xs m v ys,
    P (world m) ->
    holds m v ys ->
    capacity_ v = 0 \/ (4 <= capacity_ v /\ 2 * capacity_ v <= 3 * size_ v + 8) ->
    fits (5 * Z.of_nat (length ys + length xs) + 20) ->
    exists v' m',
      push_back_each (S (S fuel)) xs (v, m) = Ret tt (v', m') /\
      holds m' v' (ys ++ xs) /\
      P (world m').
Proof.
  intros HP. induction xs as [|x xs IH]; intros m v ys Hw Hv Hinv Hfits.
  - exists v, m. rewrite app_nil_r. split; [reflexivity | split; assumption].
  - pose proof Hv as (Hs & Hcap & _).
    assert (Hbound : 5 * Z.of_nat (length ys + length (x :: xs)) + 20 < 2 ^ size_bits)
      by (apply fits_word; [lia | exact Hfits]).
    assert (Hgrow : capacity_ v < increase_capacity v).
    { unfold increase_capacity. destruct (Z.eqb_spec (capacity_ v) 0) as [->|Hc0]; [lia|].
      destruct Hinv as [?|[H4 Hle]]; [lia|].
      unfold size_bits in *. rewrite wrap_small by (unfold size_bits; simpl in *; lia).
      assert (capacity_ v + 1 <= capacity_ v * 3 / 2)
        by (apply Z.div_le_lower_bound; lia).
      lia. }
    assert (Hinc : increase_capacity v =
                   if capacity_ v =? 0 then 4 else capacity_ v * 3 / 2).
    { apply increase_capacity_grows; [lia | exact Hgrow]. }
    assert (Hfinc : fits (increase_capacity v)).
    { apply (fits_le _ (5 * Z.of_nat (length ys + length (x :: xs)) + 20));
        [| exact Hfits].
      rewrite Hinc. destruct (Z.eqb_spec (capacity_ v) 0) as [H0|H0]; [lia|].
      destruct Hinv as [?|[H4 Hle]]; [lia|].
      assert (capacity_ v * 3 / 2 * 2 <= capacity_ v * 3)
        by (rewrite Z.mul_comm; apply Z.mul_div_le; lia).
      assert (0 <= capacity_ v * 3 / 2) by (apply Z.div_pos; lia).
      simpl in *. lia. }
    destruct (push_back_run P m v ys x fuel HP Hw Hv (or_intror (conj Hgrow Hfinc)))
      as (v1 & m1 & Hrun & Hv1 & Hw1 & Hsz1 & Hcap1).
    destruct (IH m1 v1 (ys ++ [x]) Hw1 Hv1) as (v' & m' & Hrest & Hv' & Hw').
    + rewrite Hcap1, Hsz1. destruct (decide (size_ v = capacity_ v)) as [Heq|Hne].
      * right. rewrite Hinc. destruct (Z.eqb_spec (capacity_ v) 0) as [H0|H0]; [lia|].
        destruct Hinv as [?|[H4 Hle]]; [lia|].
        assert (capacity_ v * 3 / 2 * 2 <= capacity_ v * 3)
          by (rewrite Z.mul_comm; apply Z.mul_div_le; lia).
        assert (capacity_ v + 1 <= capacity_ v * 3 / 2)
          by (apply Z.div_le_lower_bound; lia).
        lia.
      * destruct Hinv as [H0|[H4 Hle]]; [lia|]. right. lia.
    + rewrite length_app. simpl in *.
      replace (5 * Z.of_nat (length ys + 1 + length xs) + 20)
        with (5 * Z.of_nat (length ys + S (length xs)) + 20) by lia.
      exact Hfits.
    + exists v', m'. split; [| split; [| exact Hw']].
      * cbn [push_back_each]. unfold bind at 1. rewrite Hrun. exact Hrest.
      * rewrite <- app_assoc in Hv'. exact Hv'.
Qed.

(** X11: starting from a default-constructed container, the loop
    [for (...) a.push_back(x)] over any values [xs] (as long as the byte
    size of [5 * n + 20] elements is a [size_t], for their number [n]) runs
    to its end when the element operations do not throw, and the
    container then holds exactly [xs]: the growth steps from capacity 0 go
    through 4, 6, 9, ... and never meet the capacity 1 at which the growth
    formula stalls. *)
Theorem push_back_each_from_empty P xs h f w0 fuel :
  infallible P ->
  P w0 ->
  fits (5 * Z.of_nat (length xs) + 20) ->
  exists v m,
    push_back_each (S (S fuel)) xs (vector_ctor, Mem h f w0) = Ret tt (v, m) /\
    holds m v xs /\
    P (world m).
Proof.
  intros HP Hw Hbound.
  apply (push_back_each_run P fuel HP xs (Mem h f w0) vector_ctor []);
    [ exact Hw | apply holds_vector_ctor | left; reflexivity | exact Hbound ].
Qed.

(** X12: [a.push_back(x); a.pop_back();] on a well-formed container whose
    element operations do not throw (with spare capacity, or able to grow to
    a capacity whose byte size is a [size_t]) leaves the elements as they
    were; when
    there was spare capacity the container and the heap are exactly the ones
    before the two calls (when the container had to grow, the larger buffer
    stays). *)
Theorem push_back_then_pop_back P m v xs x fuel :
  infallible P ->
  P (world m) ->
  holds m v xs ->
  size_ v < capacity_ v \/
    (capacity_ v < increase_capacity v /\ fits (increase_capacity v)) ->
  exists v' m',
    bind (push_back (S (S fuel)) (Value x)) (fun _ => pop_back) (v, m) =
      Ret tt (v', m') /\
    holds m' v' xs /\
    size_ v' = size_ v /\
    (size_ v < capacity_ v -> v' = v /\ heap m' = heap m /\ fresh m' = fresh m) /\
    P (world m').
Proof.
  intros HP Hw Hv Hroom. pose proof Hv as (Hs & Hcap & Hfit & Hd).
  destruct (decide (size_ v = capacity_ v)) as [Heq|Hne].
  - destruct (push_back_run P m v xs x fuel HP Hw Hv Hroom)
      as (v1 & m1 & Hrun & Hv1 & Hw1 & Hsz1 & Hcap1).
    pose proof (holds_nullptr _ _ _ Hv1) as Hnil1.
    destruct (data_ v1) as [|b1] eqn:Hb1.
    { specialize (Hnil1 eq_refl). destruct xs; discriminate. }
    pose proof Hv1 as (Hs1 & Hc1 & Hfit1 & Hd1). rewrite Hb1 in Hd1. destruct Hd1 as [Hbf1 Hd1].
    eexists _, _. split; [| split; [| split; [| split]]].
    + unfold bind. rewrite Hrun. apply (pop_back_ok m1 v1 xs x b1 Hv1 Hb1).
    + unfold holds. cbn [size_ capacity_ data_ heap fresh].
      split; [lia | split; [lia | split; [exact Hfit1 | split; [exact Hbf1|]]]].
      apply lookup_insert_eq.
    + cbn [size_]. lia.
    + intros Hlt. lia.
    + cbn [world]. apply (HP x _ Hw1).
  - destruct (HP x _ Hw) as ((w1 & Hx & Hw1) & _).
    destruct (data_ v) as [|b] eqn:Hb; [lia|]. destruct Hd as [Hbf Hd].
    assert (Hv1 : holds (Mem (<[b := buffer (xs ++ [x]) (capacity_ v)]> (heap m))
                             (fresh m) w1)
                        (Vec (Block b) (size_ v + 1) (capacity_ v)) (xs ++ [x])).
    { unfold holds. cbn [size_ capacity_ data_ heap fresh].
      split; [rewrite length_app; simpl; lia | split; [lia | split; [exact Hfit | split; [exact Hbf|]]]].
      apply lookup_insert_eq. }
    eexists _, _. split; [| split; [| split; [| split]]].
    + unfold bind.
      rewrite (push_back_spare m v xs x w1 b (S fuel) Hv) by (lia || assumption).
      apply (pop_back_ok _ _ xs x b Hv1 eq_refl).
    + unfold holds. cbn [size_ capacity_ data_ heap fresh].
      split; [lia | split; [lia | split; [exact Hfit | split; [exact Hbf|]]]].
      apply lookup_insert_eq.
    + cbn [size_]. lia.
    + intros _. cbn [size_ capacity_ heap fresh].
      split; [| split; [| reflexivity]].
      * destruct v as [p sz cap]. cbn [data_ size_ capacity_] in *. subst p.
        f_equal. lia.
      * rewrite insert_insert_eq. apply insert_id. exact Hd.
    + cbn [world]. apply (HP x _ Hw1).
Qed.

(** ** [erase] and [insert] composed *)

(** [erase(first, last)] on a well-formed container, for the uses below. *)
Lemma erase_run
    (P : W -> Prop) (m : memory T) (v : vector) (xs : list T) (f l fuel : nat) :
  infallible P ->
  P (world m) ->
  holds m v xs ->
  (f <= l <= length xs)%nat ->
  (length xs < fuel)%nat ->
  let first := it_add (begin_ v) (Z.of_nat f) in
  let last := it_add (begin_ v) (Z.of_nat l) in
  let v' := Vec (data_ v) (size_ v - Z.of_nat (l - f)) (capacity_ v) in
  exists m',
    erase fuel first last (v, m) = Ret first (v', m') /\
    holds m' v' (take f xs ++ drop l xs) /\
    P (world m') /\
    first = it_add (begin_ v') (Z.of_nat f) /\
    (l = length xs -> first = end_ v').
Proof.
  intros HP Hw Hv Hfl Hfuel first last v'.
  pose proof (holds_nullptr _ _ _ Hv) as Hnil.
  destruct Hv as (Hs & Hcap & Hfit & Hd).
  destruct m as [h fr w]. destruct v as [p sz cap].
  cbn [data_ size_ capacity_ world] in *.
  unfold first, last, v', begin_, it_add. cbn [data_ size_ capacity_ it_block it_index].
  rewrite !Z.add_0_l.
  assert (Hlen' : length (take f xs ++ drop l xs) = (length xs - (l - f))%nat)
    by (rewrite length_app, length_take, length_drop; lia).
  destruct p as [|b].
  - rewrite (Hnil eq_refl) in *. simpl in Hfl, Hs.
    assert (f = 0%nat) as -> by lia. assert (l = 0%nat) as -> by lia. subst sz.
    destruct fuel as [|fuel]; [lia|].
    exists (Mem h fr w). split; [reflexivity|].
    split; [| split; [exact Hw | split; [reflexivity | intros _; reflexivity]]].
    unfold holds. simpl.
    split; [lia | split; [lia | split; [exact Hfit | lia]]].
  - destruct Hd as [Hb Hd].
    destruct (erase_shift_ok P b cap HP (length xs - l) fuel f l xs h fr w sz)
      as (w1 & Hshift & Hw1); [exact Hw | exact Hd | exact Hs | lia | lia | lia |].
    set (xs1 := shifted (length xs - l) f l xs) in *.
    assert (Hlen1 : length xs1 = length xs) by apply length_shifted.
    assert (Htake : take (f + (length xs - l)) xs1 = take f xs ++ drop l xs)
      by (apply take_shifted; lia).
    assert (Hsplit : buffer xs1 cap =
              (Some <$> (take f xs ++ drop l xs)) ++
              (Some <$> drop (f + (length xs - l)) xs1) ++
              replicate (Z.to_nat cap - length xs) None).
    { unfold buffer. rewrite Hlen1, app_assoc, <- fmap_app, <- Htake.
      rewrite take_drop. reflexivity. }
    eexists. split; [| split; [| split; [| split]]].
    + unfold erase, bind at 1. rewrite Hshift.
      unfold bind at 1, this at 1. cbn [fst snd data_].
      unfold bind at 1, ptr_diff. cbn [it_block it_index].
      rewrite decide_True by reflexivity. unfold ret at 1.
      unfold bind at 1, set_size_ at 1. cbn [fst snd data_ size_ capacity_].
      unfold bind at 1.
      replace (Z.of_nat (f + (length xs - l)))
        with (Z.of_nat (length (Some <$> (take f xs ++ drop l xs))))
        by (rewrite length_fmap, Hlen'; lia).
      replace (Z.of_nat (l + (length xs - l)))
        with (Z.of_nat (length (Some <$> (take f xs ++ drop l xs)) +
                        length (drop (f + (length xs - l)) xs1)))
        by (rewrite length_fmap, Hlen', length_drop, Hlen1; lia).
      erewrite erase_destroy_ok;
        [ | rewrite lookup_insert_eq, Hsplit; reflexivity
          | rewrite length_drop, Hlen1; lia ].
      unfold ret. cbn [fst snd]. rewrite insert_insert_eq.
      rewrite length_fmap, Hlen', Z.sub_0_r.
      rewrite wrap_small by lia.
      replace (Z.of_nat (length xs - (l - f))) with (sz - Z.of_nat (l - f)) by lia.
      reflexivity.
    + unfold holds. cbn [data_ size_ capacity_ heap fresh].
      split; [rewrite Hlen'; lia | split; [lia | split; [exact Hfit | split; [exact Hb|]]]].
      rewrite lookup_insert_eq. f_equal. unfold buffer. f_equal.
      rewrite <- replicate_add. f_equal.
      rewrite length_drop, Hlen1, Hlen'. lia.
    + simpl. clear Hshift Hsplit.
      generalize (drop (f + (length xs - l)) xs1). intros ys. revert w1 Hw1.
      induction ys as [|y ys IH]; intros w1 Hw1; [exact Hw1|].
      simpl. apply IH. apply (HP y w1 Hw1).
    + reflexivity.
    + intros ->. unfold end_. cbn [data_ size_]. f_equal. lia.
Qed.

(** X13: [erase(pos)] with [pos] pointing at element [k] of a well-formed
    container whose element operations do not throw removes exactly that
    element: the elements after it move down by one, size drops by one, the
    buffer and capacity stay, and the result is [pos] again (now the
    position of the element that followed, or [end()]). *)
Theorem erase_one_removes_element P m v xs (k : nat) fuel :
  infallible P ->
  P (world m) ->
  holds m v xs ->
  (k < length xs)%nat ->
  (length xs < fuel)%nat ->
  let pos := it_add (begin_ v) (Z.of_nat k) in
  let v' := Vec (data_ v) (size_ v - 1) (capacity_ v) in
  exists m',
    erase_one fuel pos (v, m) = Ret pos (v', m') /\
    holds m' v' (delete k xs) /\
    P (world m').
Proof.
  intros HP Hw Hv Hk Hfuel pos v'.
  destruct (erase_run P m v xs k (S k) fuel HP Hw Hv ltac:(lia) Hfuel)
    as (m' & Hrun & Hv' & Hw' & _).
  exists m'. split; [| split; [| exact Hw']].
  - unfold erase_one, pos. unfold it_add in *. unfold begin_ in *.
    cbn [it_block it_index] in *.
    replace (0 + Z.of_nat k + 1) with (0 + Z.of_nat (S k)) by lia.
    replace (size_ v - Z.of_nat (S k - k)) with (size_ v - 1) in Hrun by lia.
    exact Hrun.
  - rewrite delete_take_drop.
    replace (size_ v - Z.of_nat (S k - k)) with (size_ v - 1) in Hv' by lia.
    exact Hv'.
Qed.

(** X14: [erase(end())] on a well-formed container is undefined behaviour:
    the single-element overload calls [erase(pos, pos + 1)], whose first loop
    starts by swapping [*end()] with [*(end() + 1)]. *)
Theorem erase_at_end_is_undefined m v xs fuel :
  holds m v xs ->
  erase_one (S fuel) (end_ v) (v, m) = Fault UndefinedBehaviour.
Proof.
  intros Hv. pose proof (holds_le _ _ _ Hv) as Hle.
  pose proof Hv as (Hs & Hcap & Hfit & Hd).
  unfold erase_one, erase, bind at 1. rewrite erase_shift_S. cbn [fst snd].
  rewrite decide_True
    by (unfold it_add, end_; cbn [it_block it_index]; intros [=]; lia).
  unfold bind at 1, under, std_swap, bind at 1. cbn [fst snd].
  unfold end_ at 1. rewrite (load_element m v xs _ Hv).
  rewrite decide_True by lia.
  rewrite (proj2 (lookup_ge_None xs (Z.to_nat (size_ v)))) by lia.
  reflexivity.
Qed.

(** [insert(pos, x)] on either path, for a temporary [x]. *)
Lemma insert_run P m v xs (k : nat) x fuel :
  infallible P ->
  P (world m) ->
  holds m v xs ->
  (k <= length xs)%nat ->
  (size_ v = capacity_ v /\ capacity_ v < increase_capacity v /\
     fits (increase_capacity v)) \/
    (size_ v < capacity_ v /\ xs <> []) ->
  (length xs + 1 < fuel)%nat ->
  exists v' m',
    insert fuel (it_add (begin_ v) (Z.of_nat k)) (Value x) (v, m) =
      Ret (it_add (begin_ v') (Z.of_nat k)) (v', m') /\
    holds m' v' (take k xs ++ x :: drop k xs) /\
    capacity_ v' =
      (if decide (size_ v = capacity_ v) then increase_capacity v
       else capacity_ v) /\
    P (world m').
Proof.
  intros HP Hw Hv Hk Hroom Hfuel.
  destruct Hroom as [(Heq & Hgrow & Hfinc) | [Hlt Hne]].
  - destruct (insert_growth P m v xs k x fuel HP Hw Hv Heq Hgrow Hfinc Hk ltac:(lia))
      as (m' & Hrun & Hv' & Hw').
    exists (Vec (Block (fresh m)) (size_ v + 1) (increase_capacity v)), m'.
    split; [exact Hrun | split; [exact Hv' | split; [| exact Hw']]].
    rewrite decide_True by exact Heq. reflexivity.
  - assert (Hlen : (0 < length xs)%nat) by (destruct xs; [congruence | simpl; lia]).
    destruct (insert_spare P m v xs k x fuel HP Hw Hv Hlen Hlt Hk Hfuel)
      as (m' & Hrun & Hv' & Hw').
    exists (Vec (data_ v) (size_ v + 1) (capacity_ v)), m'.
    split; [exact Hrun | split; [exact Hv' | split; [| exact Hw']]].
    rewrite decide_False by lia. reflexivity.
Qed.

(** X15: [insert(pos, x)] with [pos] at offset [k] of a well-formed,
    non-empty container (or a full one that can grow, to a capacity whose
    byte size is a [size_t]) whose element operations do not throw, and [x]
    a temporary: the call returns an
    iterator at offset [k] of the container as it is afterwards, reading it
    gives [x], the elements before [pos] are in place and those from [pos]
    on follow [x]; the capacity changes only when the container was full. *)
Theorem insert_places_value P m v xs (k : nat) x fuel :
  infallible P ->
  P (world m) ->
  holds m v xs ->
  (k <= length xs)%nat ->
  (size_ v = capacity_ v /\ capacity_ v < increase_capacity v /\
     fits (increase_capacity v)) \/
    (size_ v < capacity_ v /\ xs <> []) ->
  (length xs + 1 < fuel)%nat ->
  exists v' m',
    insert fuel (it_add (begin_ v) (Z.of_nat k)) (Value x) (v, m) =
      Ret (it_add (begin_ v') (Z.of_nat k)) (v', m') /\
    holds m' v' (take k xs ++ x :: drop k xs) /\
    load (it_add (begin_ v') (Z.of_nat k)) m' = Ret x m' /\
    capacity_ v' =
      (if decide (size_ v = capacity_ v) then increase_capacity v
       else capacity_ v) /\
    P (world m').
Proof.
  intros HP Hw Hv Hk Hroom Hfuel.
  destruct (insert_run P m v xs k x fuel HP Hw Hv Hk Hroom Hfuel)
    as (v' & m' & Hrun & Hv' & Hcap' & Hw').
  exists v', m'. split; [exact Hrun | split; [exact Hv' | split; [| split; assumption]]].
  unfold it_add, begin_. cbn [it_block it_index].
  rewrite (load_element m' v' _ _ Hv'). rewrite decide_True by lia.
  replace (Z.to_nat (0 + Z.of_nat k)) with (length (take k xs) + 0)%nat
    by (rewrite length_take; lia).
  rewrite lookup_app_r, Nat.add_comm, Nat.add_sub by lia. reflexivity.
Qed.

(** X16: [a.erase(a.insert(pos, x))] gives back the elements the container
    had, under the conditions of X15: erasing at the iterator that [insert]
    returned removes the inserted value, also when [insert] reallocated. *)
Theorem insert_then_erase P m v xs (k : nat) x fuel :
  infallible P ->
  P (world m) ->
  holds m v xs ->
  (k <= length xs)%nat ->
  (size_ v = capacity_ v /\ capacity_ v < increase_capacity v /\
     fits (increase_capacity v)) \/
    (size_ v < capacity_ v /\ xs <> []) ->
  (length xs + 1 < fuel)%nat ->
  exists p v' m',
    bind (insert fuel (it_add (begin_ v) (Z.of_nat k)) (Value x))
         (fun q => erase_one fuel q) (v, m) = Ret p (v', m') /\
    p = it_add (begin_ v') (Z.of_nat k) /\
    holds m' v' xs /\
    P (world m').
Proof.
  intros HP Hw Hv Hk Hroom Hfuel.
  destruct (insert_run P m v xs k x fuel HP Hw Hv Hk Hroom Hfuel)
    as (v1 & m1 & Hrun & Hv1 & _ & Hw1).
  assert (Hlen1 : length (take k xs ++ x :: drop k xs) = S (length xs))
    by list_length.
  destruct (erase_run P m1 v1 _ k (S k) fuel HP Hw1 Hv1 ltac:(lia) ltac:(lia))
    as (m' & Herase & Hv' & Hw' & _).
  eexists _, _, m'. split; [| split; [| split; [| exact Hw']]].
  - unfold bind. rewrite Hrun. unfold erase_one.
    unfold it_add in *. unfold begin_ in *. cbn [it_block it_index] in *.
    replace (0 + Z.of_nat k + 1) with (0 + Z.of_nat (S k)) by lia.
    exact Herase.
  - reflexivity.
  - replace (take k (take k xs ++ x :: drop k xs) ++
             drop (S k) (take k xs ++ x :: drop k xs)) with xs in Hv'; [exact Hv'|].
    assert (Hlk : length (take k xs) = k) by (apply length_take_le; exact Hk).
    rewrite take_app_le, take_take, Nat.min_id by lia.
    rewrite drop_app_ge by lia. rewrite Hlk.
    replace (S k - k)%nat with 1%nat by lia. cbn [drop].
    rewrite drop_0, take_drop. reflexivity.
Qed.

Lemma assign_elem m b cells i j c z w1 :
  heap m !! b = Some cells ->
  cells !! i = Some (Some c) ->
  cells !! j = Some (Some z) ->
  copy_assignment z (world m) = (w1, None) ->
  assign (Iter (Block b) (Z.of_nat i)) (Elem (Iter (Block b) (Z.of_nat j))) m =
  Ret tt (Mem (<[b := <[i := Some z]> cells]> (heap m)) (fresh m) w1).
Proof.
  intros Hb Hi Hj Hc. unfold assign, bind at 1, load.
  rewrite (slot_lookup m b cells i (Some c) Hb Hi).
  unfold bind. cbn [read]. unfold load.
  rewrite (slot_lookup m b cells j (Some z) Hb Hj). rewrite Hc.
  rewrite (set_slot_lookup (set_world m w1) b cells i (Some z) Hb). reflexivity.
Qed.

(** X17: [a.insert(pos, a[j])] without growth, the argument being a
    reference to an element of the container itself.  [insert] reads the
    argument only after it has appended a copy of the last element [y] and
    moved it down to [pos], so the value inserted is the element found at
    index [j] of [take k xs ++ y :: drop k xs], the elements as they are
    after that shift: [xs[j]] when [j] lies before [pos], but [y] when
    [j] is the offset of [pos], and [xs[j - 1]] when [j] lies after it. *)
Theorem insert_of_own_element_reads_after_shift P m v xs (k j : nat) y z fuel :
  infallible P ->
  P (world m) ->
  holds m v xs ->
  size_ v < capacity_ v ->
  (k <= length xs)%nat ->
  (j < length xs)%nat ->
  last xs = Some y ->
  (take k xs ++ y :: drop k xs) !! j = Some z ->
  (length xs + 1 < fuel)%nat ->
  let pos := it_add (begin_ v) (Z.of_nat k) in
  let v' := Vec (data_ v) (size_ v + 1) (capacity_ v) in
  exists m',
    insert fuel pos (Elem (it_add (begin_ v) (Z.of_nat j))) (v, m) =
      Ret pos (v', m') /\
    holds m' v' (take k xs ++ z :: drop k xs) /\
    P (world m').
Proof.
  intros HP Hw Hv Hlt Hk Hj Hlast Hz Hfuel pos v'.
  pose proof Hv as (Hs & Hcap & Hfit & Hd).
  destruct (data_ v) as [|b] eqn:Hdata; [lia|]. destruct Hd as [Hbf Hd].
  rewrite last_lookup in Hlast.
  replace (pred (length xs)) with (length xs - 1)%nat in Hlast by lia.
  destruct (HP y (world m) Hw) as ((w1 & Hc1 & Hw1) & _).
  destruct fuel as [|fuel]; [lia|].
  assert (Hpush := push_back_spare_elem m v xs (length xs - 1) y w1 b fuel
                     Hv Hlt Hdata Hlast Hc1).
  assert (Hsplit : xs ++ [y] = take k xs ++ drop k xs ++ y :: [])
    by (rewrite app_assoc, take_drop; reflexivity).
  assert (Hlk : length (take k xs) = k) by (apply length_take_le; exact Hk).
  destruct (insert_shift_ok P b (capacity_ v)
              (Vec (Block b) (size_ v + 1) (capacity_ v)) HP
              (drop k xs) (S fuel) (take k xs) [] y
              (<[b := buffer (xs ++ [y]) (capacity_ v)]> (heap m)) (fresh m) w1 Hw1)
    as (w2 & Hshift & Hw2);
    [ rewrite lookup_insert_eq, Hsplit; reflexivity
    | rewrite length_drop; lia | ].
  destruct (HP z w2 Hw2) as (_ & (w3 & Hc3 & Hw3) & _).
  exists (Mem (<[b := buffer (take k xs ++ z :: drop k xs) (capacity_ v)]> (heap m))
              (fresh m) w3).
  split; [| split; [| exact Hw3]].
  - unfold insert, bind at 1, this at 1. cbn [fst snd].
    rewrite decide_False by lia.
    unfold bind at 1. unfold back at 1, bind at 1, this at 1, ret at 1.
    cbn [fst snd]. rewrite Hdata.
    replace (wrap (size_ v - 1)) with (Z.of_nat (length xs - 1))
      by (rewrite wrap_small by lia; lia).
    unfold bind at 1. rewrite Hpush.
    unfold bind at 1, this at 1. cbn [fst snd].
    unfold bind at 1, end_, it_add. cbn [data_ size_ it_block it_index].
    unfold pos, begin_, it_add. cbn [data_ it_block it_index].
    rewrite Hdata, !Z.add_0_l.
    replace (size_ v + 1 + -1) with (Z.of_nat (k + length (drop k xs)))
      by (rewrite length_drop; lia).
    rewrite Hlk in Hshift. rewrite Hshift, insert_insert_eq.
    unfold bind at 1, under. cbn [fst snd].
    erewrite assign_elem;
      [ | apply lookup_insert_eq
        | apply lookup_buffer; rewrite <- Hlk at 1;
          apply list_lookup_middle; reflexivity
        | apply lookup_buffer; rewrite app_nil_r; exact Hz
        | exact Hc3 ].
    cbn [heap fresh world]. rewrite insert_insert_eq.
    rewrite buffer_insert by list_length.
    assert (Hins : <[k := z]> (take k xs ++ y :: drop k xs ++ []) =
                   take k xs ++ z :: drop k xs).
    { rewrite app_nil_r.
      replace k with (length (take k xs) + 0)%nat at 1 by lia.
      rewrite insert_app_r. reflexivity. }
    rewrite Hins. reflexivity.
  - unfold v'. unfold holds. cbn [data_ size_ capacity_ heap fresh].
    split; [| split; [lia | split; [exact Hfit | split; [exact Hbf | apply lookup_insert_eq]]]].
    list_length.
Qed.

(** ** Copy assignment and destruction *)

Lemma vector_copy_ctor_ok m other ys w1 :
  holds m other ys ->
  copy_each ys (world m) = Some w1 ->
  vector_copy_ctor other m =
  Ret (Vec (Block (fresh m)) (size_ other) (size_ other))
      (Mem (<[fresh m := buffer ys (size_ other)]> (heap m)) (S (fresh m)) w1).
Proof.
  intros Hv Hc.
  pose proof (holds_size _ _ _ Hv) as Hsz.
  assert (Hn : 0 <= size_ other < 2 ^ size_bits) by (destruct Hv as (? & ? & _); lia).
  unfold vector_copy_ctor, bind, size.
  rewrite (new_buffer_ok m vector_ctor [] (size_ other) (world m));
    [ | apply holds_vector_ctor | simpl; lia
      | apply (holds_fits_size _ _ _ Hv) | reflexivity ].
  unfold this, under, set_size_. cbn [fst snd data_ size_ capacity_ vector_ctor without].
  erewrite (copy_into_fresh m other ys (size_ other));
    [ | exact Hv | lia | reflexivity | reflexivity | exact Hc ].
  reflexivity.
Qed.

Lemma vector_copy_ctor_throw m other ys k y wk wf e :
  holds m other ys ->
  heap m !! fresh m = None ->
  ys !! k = Some y ->
  copy_each (take k ys) (world m) = Some wk ->
  copy_constructor y wk = (wf, Some e) ->
  vector_copy_ctor other m =
  Throw e (Mem (heap m) (S (fresh m)) (fold_right destructor wf (take k ys))).
Proof.
  intros Hv Hfresh Hy Hc He.
  pose proof (holds_size _ _ _ Hv) as Hsz.
  assert (Hn : 0 <= size_ other < 2 ^ size_bits) by (destruct Hv as (? & ? & _); lia).
  unfold vector_copy_ctor, bind, size.
  rewrite (new_buffer_ok m vector_ctor [] (size_ other) (world m));
    [ | apply holds_vector_ctor | simpl; lia
      | apply (holds_fits_size _ _ _ Hv) | reflexivity ].
  unfold this, under, set_size_. cbn [fst snd data_ size_ capacity_ vector_ctor without].
  erewrite (copy_into_fresh_throw m other ys (size_ other));
    [ | exact Hv | lia | reflexivity | reflexivity | exact Hy | exact Hc | exact He ].
  cbn [fst snd]. unfold vector_dtor, bind, destroy_all, operator_delete.
  cbn [data_ size_]. change (Z.to_nat 0) with 0%nat. cbn [destroy_from].
  unfold ret. cbn [heap fresh world destroy_each fold_left].
  rewrite lookup_insert_eq, delete_insert_eq, delete_id by exact Hfresh.
  reflexivity.
Qed.

(** X18: [a = b] on well-formed containers, when no copy throws: [a] gets a
    new buffer with copies of the elements of [b], in order, and a capacity
    equal to [b.size()]; the old elements of [a] are destroyed and its old
    buffer is released; [b] is untouched.  The statement includes the
    self-assignment [a = a], which keeps the elements and makes the capacity
    tight. *)
Theorem operator_assign_copies m v u xs ys w1 :
  holds m v xs ->
  holds m u ys ->
  copy_each ys (world m) = Some w1 ->
  let v' := Vec (Block (fresh m)) (size_ u) (size_ u) in
  let m' := Mem (<[fresh m := buffer ys (size_ u)]> (without (data_ v) (heap m)))
                (S (fresh m)) (destroy_each xs w1) in
  operator_assign u (v, m) = Ret tt (v', m') /\
  holds m' v' ys /\
  (data_ u <> data_ v -> holds m' u ys).
Proof.
  intros Hv Hu Hc v' m'.
  assert (Hn : 0 <= size_ u < 2 ^ size_bits) by (destruct Hu as (? & ? & _); lia).
  pose proof (holds_fits_size _ _ _ Hu) as Hfu.
  split; [| split].
  - unfold operator_assign, with_local. cbn [fst snd].
    rewrite (vector_copy_ctor_ok m u ys w1 Hu Hc).
    unfold swap_local, swap. cbn [fst snd data_ size_ capacity_].
    erewrite (vector_dtor_ok _ _ xs).
    + cbn [heap fresh world data_]. unfold v', m'.
      destruct Hv as (_ & _ & _ & Hd).
      destruct (data_ v) as [|b]; cbn [without]; [reflexivity|].
      rewrite delete_insert_ne by lia. reflexivity.
    + destruct v as [p sz cap].
      apply (holds_fresh_insert m (Vec p sz cap) xs); [exact Hv | simpl; lia | simpl; lia].
  - unfold v', m'. destruct Hu as (Hs & _). rewrite Hs in *.
    apply holds_in_fresh; first [lia | assumption].
  - intros Hne. destruct Hu as (Hs & Hcap & Hfit & Hd). unfold holds, m'.
    cbn [heap fresh].
    split; [exact Hs | split; [exact Hcap | split; [exact Hfit|]]].
    destruct (data_ u) as [|b]; [exact Hd|]. destruct Hd as [Hb Hd].
    split; [lia|]. rewrite lookup_insert_ne by lia.
    destruct (data_ v) as [|b']; cbn [without]; [exact Hd|].
    rewrite lookup_delete_ne by congruence. exact Hd.
Qed.

(** X19: when the copy of element [k] of [b] throws during [a = b] (or
    during the copy construction of a container from [b]), the same
    exception leaves the call, [a] is untouched and still holds its
    elements, and the heap is exactly the one before: the buffer of the
    half-built copy has been released (its destructor runs because the
    copy constructor delegates to [vector()]), and the [k] elements copied
    so far have been destroyed. *)
Theorem operator_assign_failure_restores_memory m v u xs ys k y wk wf e :
  holds m v xs ->
  holds m u ys ->
  heap m !! fresh m = None ->
  ys !! k = Some y ->
  copy_each (take k ys) (world m) = Some wk ->
  copy_constructor y wk = (wf, Some e) ->
  let m' := Mem (heap m) (S (fresh m)) (fold_right destructor wf (take k ys)) in
  vector_copy_ctor u m = Throw e m' /\
  operator_assign u (v, m) = Throw e (v, m') /\
  holds m' v xs.
Proof.
  intros Hv Hu Hfresh Hy Hc He m'.
  pose proof (vector_copy_ctor_throw m u ys k y wk wf e Hu Hfresh Hy Hc He) as Hthrow.
  split; [exact Hthrow | split].
  - unfold operator_assign, with_local. cbn [fst snd]. rewrite Hthrow. reflexivity.
  - destruct Hv as (Hs & Hcap & Hfit & Hd). unfold holds, m'. cbn [heap fresh].
    split; [exact Hs | split; [exact Hcap | split; [exact Hfit|]]].
    destruct (data_ v) as [|b]; [exact Hd|].
    destruct Hd as [Hb Hd]. split; [lia | exact Hd].
Qed.

(** X20: [~vector] on a well-formed container destroys its elements, first
    to last, and releases its buffer and nothing else; consequently a scope
    that copy-constructs a container from another and leaves, as in
    [{ vector b = a; }], gives back the heap it started from. *)
Theorem destructor_releases_buffer m v xs w1 :
  holds m v xs ->
  heap m !! fresh m = None ->
  copy_each xs (world m) = Some w1 ->
  (exists m',
     vector_dtor v m = Ret tt m' /\
     world m' = destroy_each xs (world m) /\
     forall b, heap m' !! b = if decide (Block b = data_ v) then None
                              else heap m !! b) /\
  bind (vector_copy_ctor v) (fun c => vector_dtor c) m =
    Ret tt (Mem (heap m) (S (fresh m)) (destroy_each xs w1)).
Proof.
  intros Hv Hfresh Hc. split.
  - eexists. split; [apply (vector_dtor_ok m v xs Hv) | split; [reflexivity|]].
    intros b. cbn [heap]. destruct (decide (Block b = data_ v)) as [Heq|Hne].
    + rewrite <- Heq. cbn [without]. apply lookup_delete_eq.
    + destruct (data_ v) as [|b']; cbn [without]; [reflexivity|].
      rewrite lookup_delete_ne by congruence. reflexivity.
  - assert (Hn : 0 <= size_ v < 2 ^ size_bits) by (destruct Hv as (? & ? & _); lia).
    unfold bind. rewrite (vector_copy_ctor_ok m v xs w1 Hv Hc).
    erewrite (vector_dtor_ok _ _ xs).
    + cbn [heap fresh world data_ without].
      rewrite delete_insert_eq, delete_id by exact Hfresh. reflexivity.
    + pose proof (holds_fits_size _ _ _ Hv) as Hfs.
      destruct Hv as (Hs & _). rewrite Hs in *.
      apply holds_in_fresh; first [lia | assumption].
Qed.

(** ** The overloads for trivial element types *)

Lemma copies_freely_copy_each xs w :
  copies_freely -> copy_each xs w = Some w.
Proof.
  intros Hfree. induction xs as [|x xs IH]; [reflexivity|].
  cbn [copy_each]. rewrite Hfree. exact IH.
Qed.

(** X26: for an element kind whose copy constructor has no effect and never
    throws, the [memcpy] overload of [copy_construct_all] and the
    placement-new loop agree: copying [n] live elements onto [n] raw slots of
    another buffer, both leave the same memory, the destination holding the
    copies.  With [size == 0] the [memcpy] overload returns without looking
    at its pointers, which is what lets [vector] call it with a null
    source, where [memcpy] itself would be undefined. *)
Theorem trivial_overload_agrees m bd bs (l1 l2 s1 s2 : list (option T)) xs :
  copies_freely ->
  bd <> bs ->
  heap m !! bd = Some (l1 ++ replicate (length xs) None ++ l2) ->
  heap m !! bs = Some (s1 ++ (Some <$> xs) ++ s2) ->
  let dst := Iter (Block bd) (Z.of_nat (length l1)) in
  let src := Iter (Block bs) (Z.of_nat (length s1)) in
  let m' := Mem (<[bd := l1 ++ (Some <$> xs) ++ l2]> (heap m)) (fresh m) (world m) in
  copy_construct_all_trivial dst src (Z.of_nat (length xs)) m = Ret tt m' /\
  copy_construct_all dst src (Z.of_nat (length xs)) m = Ret tt m' /\
  forall p,
    copy_construct_all_trivial p (Iter nullptr 0) 0 m = Ret tt m /\
    memcpy p (Iter nullptr 0) 0 m = Fault UndefinedBehaviour.
Proof.
  intros Hfree Hne Hd Hs dst src m'. split; [| split].
  - unfold copy_construct_all_trivial.
    destruct (decide (Z.of_nat (length xs) <> 0)) as [Hn|Hn].
    + unfold memcpy, dst, src. cbn [it_block it_index]. rewrite Hd, Hs.
      rewrite decide_True.
      * rewrite !Nat2Z.id.
        rewrite take_app_length.
        rewrite drop_app_length.
        replace (Z.to_nat (Z.of_nat (length l1) + Z.of_nat (length xs)))
          with (length l1 + length xs)%nat by lia.
        rewrite <- (length_fmap Some xs) at 1. rewrite take_app_length.
        rewrite drop_app_ge by lia.
        replace (length l1 + length xs - length l1)%nat
          with (length (replicate (length xs) (@None T)))
          by (rewrite length_replicate; lia).
        rewrite drop_app_length. reflexivity.
      * rewrite !length_app, length_replicate, length_fmap.
        repeat split; lia.
    + assert (xs = []) as -> by (destruct xs; [reflexivity | simpl in Hn; lia]).
      unfold ret, m'. simpl in *. rewrite insert_id by exact Hd.
      destruct m; reflexivity.
  - destruct m as [h f w]. cbn [heap fresh world] in *.
    apply (copy_construct_all_ok bd bs l1 l2 s1 s2 xs h f w w (Z.of_nat (length xs)));
      [exact Hne | exact Hd | exact Hs | apply copies_freely_copy_each; exact Hfree
       | reflexivity].
  - intros p. split; [reflexivity|].
    unfold memcpy. cbn [it_block]. destruct (it_block p); reflexivity.
Qed.

(** ** The class invariant *)

Lemma holds_well_formed m v xs : holds m v xs -> well_formed m v.
Proof.
  intros Hv. pose proof (holds_le _ _ _ Hv) as Hle.
  destruct Hv as (Hs & Hcap & Hfit & Hd). unfold well_formed.
  split; [lia | split; [lia | split; [exact Hfit|]]].
  destruct (data_ v) as [|b]; [exact Hd|]. destruct Hd as [Hb Hd].
  split; [exact Hb|]. exists (buffer xs (capacity_ v)).
  split; [exact Hd | split; [rewrite length_buffer by exact Hle; lia|]].
  intros i Hi. destruct (lookup_lt_is_Some_2 xs i) as [x Hx]; [lia|].
  exists x. apply lookup_buffer. exact Hx.
Qed.

Lemma live_insert_some cells i j x :
  live cells j -> live (<[i := Some x]> cells) j.
Proof.
  intros [y Hy]. destruct (decide (i = j)) as [->|Hne].
  - exists x. apply list_lookup_insert_eq. apply lookup_lt_Some in Hy. exact Hy.
  - exists y. rewrite list_lookup_insert_ne by exact Hne. exact Hy.
Qed.

Lemma live_insert_ne cells i j c :
  i <> j -> live cells j -> live (<[i := c]> cells) j.
Proof.
  intros Hne [y Hy]. exists y. rewrite list_lookup_insert_ne by exact Hne. exact Hy.
Qed.

Lemma survives_refl keep m : survives keep m m.
Proof.
  split; [lia|]. intros b cells Hb. exists cells. auto.
Qed.

Lemma survives_trans keep m1 m2 m3 :
  survives keep m1 m2 -> survives keep m2 m3 -> survives keep m1 m3.
Proof.
  intros [Hf1 H1] [Hf2 H2]. split; [lia|]. intros b cells Hb.
  destruct (H1 b cells Hb) as (cells2 & Hb2 & Hl2 & Hk2).
  destruct (H2 b cells2 Hb2) as (cells3 & Hb3 & Hl3 & Hk3).
  exists cells3. split; [exact Hb3 | split; [congruence|]].
  intros i Hi Hlive. apply Hk3; [exact Hi|]. apply Hk2; assumption.
Qed.

Lemma survives_weaken (keep keep' : nat -> nat -> Prop) m m' :
  (forall b i, keep' b i -> keep b i) ->
  survives keep m m' -> survives keep' m m'.
Proof.
  intros Hsub [Hf H]. split; [exact Hf|]. intros b cells Hb.
  destruct (H b cells Hb) as (cells' & Hb' & Hl & Hk).
  exists cells'. split; [exact Hb' | split; [exact Hl|]].
  intros i Hi. apply Hk, Hsub, Hi.
Qed.

Lemma survives_same keep m m' :
  heap m' = heap m -> fresh m' = fresh m -> survives keep m m'.
Proof.
  intros Hh Hf. split; [lia|]. intros b cells Hb. exists cells.
  rewrite Hh. auto.
Qed.

(** The slot [p] of [m], as an index into its buffer. *)
Lemma slot_inv m p c :
  slot m p = Some c ->
  exists b cells,
    it_block p = Block b /\ heap m !! b = Some cells /\
    0 <= it_index p /\ cells !! Z.to_nat (it_index p) = Some c.
Proof.
  unfold slot. destruct (it_block p) as [|b]; [discriminate|].
  destruct (heap m !! b) as [cells|] eqn:Hcells; [|discriminate].
  destruct (decide _) as [Hr|]; [|discriminate].
  intros H. exists b, cells.
  split; [reflexivity | split; [exact Hcells | split; [lia | exact H]]].
Qed.

Lemma survives_set_slot_some keep m p c x :
  slot m p = Some c -> survives keep m (set_slot m p (Some x)).
Proof.
  intros Hp. destruct (slot_inv m p c Hp) as (b & cells & Hb & Hcells & Hi & Hc).
  unfold set_slot. rewrite Hb, Hcells. split; [simpl; lia|].
  intros b' cells0 Hb'. cbn [heap].
  destruct (decide (b' = b)) as [->|Hne].
  - rewrite lookup_insert_eq. rewrite Hcells in Hb'. injection Hb' as <-.
    eexists. split; [reflexivity | split; [apply length_insert|]].
    intros i _. apply live_insert_some.
  - rewrite lookup_insert_ne by congruence. exists cells0. auto.
Qed.

Lemma survives_set_slot_none m p c b :
  slot m p = Some c ->
  it_block p = Block b ->
  survives (fun b' i => b' <> b \/ Z.of_nat i <> it_index p) m (set_slot m p None).
Proof.
  intros Hp Hblock.
  destruct (slot_inv m p c Hp) as (b0 & cells & Hb & Hcells & Hi & Hc).
  rewrite Hblock in Hb. injection Hb as <-.
  unfold set_slot. rewrite Hblock, Hcells. split; [simpl; lia|].
  intros b' cells0 Hb'. cbn [heap].
  destruct (decide (b' = b)) as [->|Hne].
  - rewrite lookup_insert_eq. rewrite Hcells in Hb'. injection Hb' as <-.
    eexists. split; [reflexivity | split; [apply length_insert|]].
    intros i [Hk|Hk]; [congruence|]. apply live_insert_ne. lia.
  - rewrite lookup_insert_ne by congruence. exists cells0. auto.
Qed.

Lemma live_set_slot m p c x b cells :
  slot m p = Some c ->
  it_block p = Block b ->
  heap (set_slot m p (Some x)) !! b = Some cells ->
  live cells (Z.to_nat (it_index p)).
Proof.
  intros Hp Hblock.
  destruct (slot_inv m p c Hp) as (b0 & cells0 & Hb & Hcells & Hi & Hc).
  rewrite Hblock in Hb. injection Hb as <-.
  unfold set_slot. rewrite Hblock, Hcells. cbn [heap].
  rewrite lookup_insert_eq. intros [= <-]. exists x.
  apply list_lookup_insert_eq. apply lookup_lt_Some in Hc. exact Hc.
Qed.

Lemma well_formed_survives keep m m' v :
  well_formed m v ->
  survives keep m m' ->
  (forall b i, data_ v = Block b -> Z.of_nat i < size_ v -> keep b i) ->
  well_formed m' v.
Proof.
  intros (Hs & Hcap & Hfit & Hd) [Hf H] Hkeep. unfold well_formed.
  split; [exact Hs | split; [exact Hcap | split; [exact Hfit|]]].
  destruct (data_ v) as [|b]; [exact Hd|].
  destruct Hd as (Hb & cells & Hcells & Hlen & Hlive).
  split; [lia|]. destruct (H b cells Hcells) as (cells' & Hcells' & Hlen' & Hk).
  exists cells'. split; [exact Hcells' | split; [lia|]].
  intros i Hi. apply Hk; [apply Hkeep; auto | apply Hlive; exact Hi].
Qed.

Lemma well_formed_kept n p m m' v :
  well_formed m v ->
  kept n p m m' ->
  (forall b, data_ v = Block b -> (b < n)%nat /\ Block b <> p) ->
  well_formed m' v.
Proof.
  intros (Hs & Hcap & Hfit & Hd) [Hf H] Hin. unfold well_formed.
  split; [exact Hs | split; [exact Hcap | split; [exact Hfit|]]].
  destruct (data_ v) as [|b]; [exact Hd|].
  destruct Hd as (Hb & cells & Hcells & Hlen & Hlive).
  destruct (Hin b eq_refl) as [Hbn Hbp].
  split; [lia|]. exists cells. rewrite (H b Hbn Hbp). auto.
Qed.

Lemma slot_survives keep m m' p x b :
  survives keep m m' ->
  slot m p = Some (Some x) ->
  it_block p = Block b ->
  keep b (Z.to_nat (it_index p)) ->
  exists x', slot m' p = Some (Some x').
Proof.
  intros [_ H] Hp Hblock Hkeep.
  destruct (slot_inv m p _ Hp) as (b0 & cells & Hb & Hcells & Hi & Hc).
  rewrite Hblock in Hb. injection Hb as <-.
  destruct (H b cells Hcells) as (cells' & Hcells' & Hlen & Hk).
  destruct (Hk _ Hkeep (ex_intro _ x Hc)) as [x' Hx'].
  exists x'. unfold slot. rewrite Hblock, Hcells'.
  apply lookup_lt_Some in Hx' as Hlt.
  rewrite decide_True by lia. exact Hx'.
Qed.

Lemma assign_survives keep p src m :
  wp (assign p src) m (fun _ m' => survives keep m m')
     (fun _ m' => survives keep m m').
Proof.
  unfold assign. apply wp_bind, wp_load. intros x0 Hp.
  apply wp_bind, wp_read. intros x.
  unfold wp. destruct (copy_assignment x (world m)) as [w [e|]].
  - apply survives_same; reflexivity.
  - apply (survives_set_slot_some keep (set_world m w) p (Some x0) x). exact Hp.
Qed.

Lemma std_swap_survives keep p q m :
  wp (std_swap p q) m (fun _ m' => survives keep m m')
     (fun _ m' => survives keep m m').
Proof.
  unfold std_swap. apply wp_bind, wp_load. intros a _.
  unfold wp, with_temporary.
  destruct (copy_constructor a (world m)) as [w [e|]].
  { apply survives_same; reflexivity. }
  pose proof (assign_survives keep p (Elem q) (set_world m w)) as H1.
  unfold wp in H1. unfold bind.
  destruct (assign p (Elem q) (set_world m w)) as [[] m1|e m1| |]; try exact I.
  - pose proof (assign_survives keep q (Value a) m1) as H2. unfold wp in H2.
    destruct (assign q (Value a) m1) as [[] m2|e m2| |]; try exact I.
    + eapply survives_trans; [exact H1|].
      eapply survives_trans; [exact H2|]. apply survives_same; reflexivity.
    + eapply survives_trans; [exact H1|].
      eapply survives_trans; [exact H2|]. apply survives_same; reflexivity.
  - eapply survives_trans; [exact H1|]. apply survives_same; reflexivity.
Qed.

Lemma construct_at_survives keep p src m :
  wp (construct_at p src) m
     (fun _ m' => survives keep m m' /\ exists x, slot m' p = Some (Some x))
     (fun _ m' => survives keep m m').
Proof.
  unfold construct_at. apply wp_bind, wp_read. intros x.
  unfold wp. destruct (slot m p) as [c|] eqn:Hp; [|exact I].
  destruct (copy_constructor x (world m)) as [w [e|]].
  - apply survives_same; reflexivity.
  - split; [apply (survives_set_slot_some keep (set_world m w) p c x); exact Hp|].
    exists x. destruct (slot_inv m p c Hp) as (b & cells & Hb & Hcells & Hi & Hc).
    unfold slot, set_slot, set_world. rewrite Hb. cbn [heap]. rewrite Hcells.
    cbn [heap]. rewrite lookup_insert_eq, length_insert.
    apply lookup_lt_Some in Hc as Hlt.
    rewrite decide_True by lia. apply list_lookup_insert_eq. exact Hlt.
Qed.

Lemma destroy_at_survives p m :
  wp (destroy_at p) m
     (fun _ m' =>
        0 <= it_index p /\
        survives (fun b i => Block b <> it_block p \/ Z.of_nat i <> it_index p) m m')
     (fun _ _ => False).
Proof.
  unfold destroy_at. apply wp_bind, wp_load. intros x Hp.
  unfold wp. destruct (slot_inv m p _ Hp) as (b & cells & Hb & Hcells & Hi & Hc).
  split; [exact Hi|].
  eapply survives_weaken;
    [| apply (survives_set_slot_none (set_world m (destructor x (world m))) p
                (Some x) b Hp Hb)].
  intros b' i [Hk|Hk]; [left; congruence | right; exact Hk].
Qed.

Lemma destroy_from_survives data k :
  forall i m,
    wp (destroy_from data i k) m
       (fun _ m' => survives (fun _ _ => False) m m') (fun _ _ => False).
Proof.
  induction k as [|k IH]; intros i m.
  - apply wp_ret, survives_refl.
  - cbn [destroy_from]. apply wp_bind.
    eapply wp_mono; [apply destroy_at_survives | | auto].
    intros [] m1 [_ H1].
    eapply wp_mono; [apply IH | | auto].
    intros [] m2 H2. eapply survives_trans; [|exact H2].
    eapply survives_weaken; [|exact H1]. contradiction.
Qed.

Lemma construct_from_fills dst src k :
  forall i m,
    wp (construct_from dst src k) (i, m)
       (fun _ im =>
          survives (fun _ _ => True) m (snd im) /\
          forall j, i <= j < i + Z.of_nat k ->
            exists x, slot (snd im) (it_add dst j) = Some (Some x))
       (fun _ _ => True).
Proof.
  induction k as [|k IH]; intros i m.
  - apply wp_ret. split; [apply survives_refl|]. intros j Hj. simpl in Hj. lia.
  - unfold wp. cbn [construct_from fst snd].
    pose proof (construct_at_survives (fun _ _ => True) (it_add dst i)
                  (Elem (it_add src i)) m) as H.
    unfold wp in H.
    destruct (construct_at _ _ m) as [[] m1|e m1| |]; try exact I.
    destruct H as [H1 [x Hx]].
    specialize (IH (i + 1) m1). unfold wp in IH.
    destruct (construct_from dst src k (i + 1, m1)) as [[] im|e im| |]; try exact I.
    destruct IH as [H2 Hrange]. cbn [snd] in *.
    split; [eapply survives_trans; eassumption|].
    intros j Hj. destruct (decide (j = i)) as [->|Hne].
    + destruct (slot_inv m1 _ _ Hx) as (b & cells & Hb & _).
      apply (slot_survives (fun _ _ => True) m1 (snd im) _ x b H2 Hx Hb I).
    + apply Hrange. lia.
Qed.

Lemma copy_construct_all_fills dst src sz m :
  wp (copy_construct_all dst src sz) m
     (fun _ m' =>
        survives (fun _ _ => True) m m' /\
        forall j, 0 <= j < sz -> exists x, slot m' (it_add dst j) = Some (Some x))
     (fun _ _ => True).
Proof.
  unfold wp, copy_construct_all.
  pose proof (construct_from_fills dst src (Z.to_nat sz) 0 m) as H.
  unfold wp in H.
  destruct (construct_from _ _ _ _) as [[] im|e im| |]; try exact I.
  - destruct H as [H1 H2]. split; [exact H1|]. intros j Hj. apply H2. lia.
  - destruct (unwind _ _ _ _); exact I.
Qed.

Lemma range_live m f cells lo hi :
  heap m !! f = Some cells ->
  0 <= lo ->
  (forall j, lo <= j < hi -> exists x, slot m (Iter (Block f) j) = Some (Some x)) ->
  (lo < hi -> hi <= Z.of_nat (length cells)) /\
  forall i, lo <= Z.of_nat i < hi -> live cells i.
Proof.
  intros Hcells Hlo Hrange.
  assert (Hone : forall j, lo <= j < hi ->
            exists x, cells !! Z.to_nat j = Some (Some x)).
  { intros j Hj. destruct (Hrange j Hj) as [x Hx].
    destruct (slot_inv m _ _ Hx) as (b & cells0 & Hb & Hcells0 & Hi & Hc).
    cbn [it_block it_index] in *. injection Hb as <-.
    rewrite Hcells in Hcells0. injection Hcells0 as <-. exists x. exact Hc. }
  split.
  - intros Hlt. destruct (Hone (hi - 1)) as [x Hx]; [lia|].
    apply lookup_lt_Some in Hx. lia.
  - intros i Hi. destruct (Hone (Z.of_nat i) Hi) as [x Hx].
    rewrite Nat2Z.id in Hx. exists x. exact Hx.
Qed.

(** [new_buffer] gives a well-formed container when it returns. *)
Lemma new_buffer_well_formed c v m :
  0 <= size_ v ->
  fits c ->
  (forall b, data_ v = Block b -> (b < fresh m)%nat) ->
  wp (new_buffer c) (v, m)
     (fun _ s' => well_formed (snd s') (fst s') /\
                  size_ (fst s') = size_ v /\ capacity_ (fst s') = c)
     (fun _ _ => True).
Proof.
  intros Hs Hc Hbelow. unfold new_buffer.
  apply wp_bind, wp_this. cbn [fst snd].
  apply wp_bind, wp_assert. intros Hge. apply Z.geb_le in Hge.
  apply wp_with_local, wp_ret. cbn [fst snd].
  apply wp_bind, wp_under, wp_under. cbn [fst snd].
  unfold wp at 1, operator_new.
  rewrite (slots_of_bytes c) by (lia || assumption).
  apply wp_bind, wp_on_local. unfold wp at 1. cbn [set_data_ fst snd].
  apply wp_bind, wp_on_local. unfold wp at 1.
  cbn [set_capacity_ fst snd data_ size_ capacity_ vector_ctor].
  apply wp_bind, wp_on_local, wp_this. cbn [fst snd].
  apply wp_bind, wp_under, wp_this. cbn [fst snd data_ size_].
  apply wp_bind, wp_under, wp_under. cbn [fst snd].
  set (m1 := Mem (<[fresh m := replicate (Z.to_nat c) None]> (heap m))
                 (S (fresh m)) (world m)).
  eapply wp_mono; [apply (copy_construct_all_fills _ _ _ m1) | |
                   intros; apply wp_trivial].
  intros [] m2 [H2 Hfill].
  apply wp_bind, wp_on_local. unfold wp at 1.
  cbn [set_size_ fst snd data_ size_ capacity_].
  unfold wp at 1. cbn [swap_local swap fst snd data_ size_ capacity_].
  eapply wp_mono; [apply (vector_dtor_kept (S (fresh m))) | | contradiction].
  intros [] m3 H3. cbn [data_] in H3. cbn [fst snd].
  split; [| split; reflexivity].
  destruct H2 as [Hf2 H2].
  destruct (H2 (fresh m) (replicate (Z.to_nat c) None))
    as (cells & Hcells & Hlen & _); [apply lookup_insert_eq|].
  rewrite length_replicate in Hlen.
  destruct (range_live m2 (fresh m) cells 0 (size_ v) Hcells ltac:(lia))
    as [_ Hlive].
  { intros j Hj. destruct (Hfill j Hj) as [x Hx]. exists x.
    unfold it_add in Hx. cbn [it_block it_index] in Hx.
    rewrite Z.add_0_l in Hx. exact Hx. }
  destruct H3 as [Hf3 H3].
  unfold well_formed. cbn [data_ size_ capacity_].
  split; [lia | split; [apply fits_word; [lia | exact Hc] | split; [exact Hc|]]].
  assert (Hf1 : fresh m1 = S (fresh m)) by reflexivity.
  split; [lia|].
  exists cells. split; [| split; [lia|]].
  - rewrite H3; [exact Hcells | lia |].
    intros Heq. symmetry in Heq. specialize (Hbelow _ Heq). lia.
  - intros i Hi. apply Hlive. lia.
Qed.

(** A buffer whose first [n] slots hold elements gives a well-formed
    container of size [n]. *)
Lemma well_formed_filled m b n cap cells :
  (b < fresh m)%nat ->
  heap m !! b = Some cells ->
  Z.of_nat (length cells) = cap ->
  cap < 2 ^ size_bits ->
  fits cap ->
  0 <= n ->
  (forall j, 0 <= j < n -> exists x, slot m (Iter (Block b) j) = Some (Some x)) ->
  well_formed m (Vec (Block b) n cap).
Proof.
  intros Hb Hcells Hlen Hcap Hfit Hn Hfill.
  destruct (range_live m b cells 0 n Hcells ltac:(lia) Hfill) as [Hle Hlive].
  unfold well_formed. cbn [data_ size_ capacity_].
  split; [lia | split; [exact Hcap | split; [exact Hfit | split; [exact Hb|]]]].
  exists cells. split; [exact Hcells | split; [exact Hlen|]].
  intros i Hi. apply Hlive. lia.
Qed.

Lemma well_formed_slot m v i :
  well_formed m v -> 0 <= i < size_ v ->
  exists x, slot m (Iter (data_ v) i) = Some (Some x).
Proof.
  intros (Hs & Hcap & Hfit & Hd) Hi.
  destruct (data_ v) as [|b].
  - lia.
  - destruct Hd as (Hb & cells & Hcells & Hlen & Hlive).
    destruct (Hlive (Z.to_nat i)) as [x Hx]; [lia|].
    exists x. unfold slot. cbn [it_block it_index]. rewrite Hcells.
    rewrite decide_True by lia. exact Hx.
Qed.

Lemma push_back_returns_well_formed fuel val :
  forall v m,
    well_formed m v ->
    (size_ v = capacity_ v -> fits (increase_capacity v)) ->
    wp (push_back fuel val) (v, m)
       (fun _ s' => well_formed (snd s') (fst s')) (fun _ _ => True).
Proof.
  induction fuel as [|fuel IH]; intros v m Hwf Hgrowth; [exact I|].
  cbn [push_back]. apply wp_bind, wp_this. cbn [fst snd].
  pose proof Hwf as (Hs & Hcap & Hfit & Hd).
  destruct (decide (size_ v <> capacity_ v)) as [Hne|Heq].
  - apply wp_bind, wp_under. cbn [fst snd].
    eapply wp_mono; [apply (construct_at_survives (fun _ _ => True)) | | auto].
    intros [] m1 [H1 [x Hx]]. unfold wp. cbn [set_size_ fst snd data_ capacity_].
    destruct (slot_inv m1 _ _ Hx) as (b & cells1 & Hb & Hcells1 & _ & _).
    cbn [it_block] in Hb. rewrite Hb in *.
    destruct Hd as (Hbf & cells & Hcells & Hlen & Hlive).
    destruct H1 as [Hf1 H1].
    destruct (H1 b cells Hcells) as (cells' & Hcells' & Hlen' & Hk).
    rewrite wrap_small by lia.
    apply (well_formed_filled m1 b (size_ v + 1) (capacity_ v) cells');
      [lia | exact Hcells' | lia | exact Hcap | exact Hfit | lia |].
    intros j Hj. destruct (decide (j = size_ v)) as [->|Hj'].
    + exists x. exact Hx.
    + destruct (well_formed_slot m v j Hwf ltac:(lia)) as [y Hy].
      rewrite Hb in Hy.
      apply (slot_survives (fun _ _ => True) m m1 _ y b (conj Hf1 H1) Hy eq_refl I).
  - unfold push_back_realloc.
    apply wp_with_local, wp_ret. cbn [fst snd].
    apply wp_bind, wp_under, wp_this. cbn [fst snd].
    apply wp_bind, wp_on_local. cbn [fst snd].
    pose proof (increase_capacity_bound v ltac:(lia)) as Hinc.
    assert (Hfull : size_ v = capacity_ v)
      by (destruct (decide (size_ v = capacity_ v)); [assumption | contradiction]).
    specialize (Hgrowth Hfull).
    eapply wp_mono;
      [ apply wp_and;
        [ apply (new_buffer_well_formed (increase_capacity v) vector_ctor m);
          [ simpl; lia | exact Hgrowth | intros b [=] ]
        | apply (new_buffer_rebuilds (fresh m) (increase_capacity v) vector_ctor m);
          lia ]
      | | intros; apply wp_trivial ].
    intros [] [tmp1 m1] [(Hwf1 & Hs1 & Hc1) [Hk1 Hd1]].
    cbn [fst snd data_ size_ vector_ctor] in *.
    apply wp_bind, wp_on_local, wp_this. cbn [fst snd].
    apply wp_bind, wp_under, wp_under. cbn [fst snd].
    eapply wp_mono; [apply copy_construct_all_fills | | intros; apply wp_trivial].
    intros [] m2 [H2 Hfill]. rewrite Hd1 in Hfill.
    apply wp_bind, wp_on_local. unfold wp at 1.
    cbn [set_size_ fst snd data_ size_ capacity_].
    destruct Hwf1 as (_ & Hcap1 & Hfit1 & Hwd1). rewrite Hd1 in Hwd1.
    destruct Hwd1 as (Hbf1 & cells1 & Hcells1 & Hlen1 & _).
    pose proof H2 as [Hf2 H2'].
    destruct (H2' _ _ Hcells1) as (cells2 & Hcells2 & Hlen2 & _).
    assert (Hwf2 : well_formed m2 (Vec (data_ tmp1) (size_ v) (capacity_ tmp1))).
    { rewrite Hd1.
      apply (well_formed_filled m2 (fresh m) (size_ v) (capacity_ tmp1) cells2);
        [lia | exact Hcells2 | lia | exact Hcap1 | exact Hfit1 | lia |].
      intros j Hj. destruct (Hfill j Hj) as [x Hx]. exists x.
      unfold it_add in Hx. cbn [it_block it_index] in Hx.
      rewrite Z.add_0_l in Hx. exact Hx. }
    assert (Hfm : (fresh m <= fresh m2)%nat) by (destruct Hk1; lia).
    apply wp_bind, wp_on_local. cbn [fst snd].
    eapply wp_mono;
      [ apply wp_and;
        [ apply (IH _ m2 Hwf2); cbn [size_ capacity_]; intros Hstuck;
          assert (Hsame : capacity_ tmp1 = capacity_ v) by lia;
          unfold increase_capacity in Hgrowth |- *; cbn [capacity_];
          rewrite Hsame; exact Hgrowth
        | apply (push_back_safe fuel val (fresh m) _ m2 Hfm) ]
      | | intros; apply wp_trivial ].
    intros [] [tmp3 m3] [Hwf3 [Hk3 Hmv]]. cbn [fst snd data_] in *.
    unfold wp at 1. cbn [swap_local swap fst snd data_ size_ capacity_].
    eapply wp_mono; [apply (vector_dtor_kept (fresh m3)) | | contradiction].
    intros [] m4 H4. cbn [fst snd].
    replace (Vec (data_ tmp3) (size_ tmp3) (capacity_ tmp3)) with tmp3
      by (destruct tmp3; reflexivity).
    apply (well_formed_kept (fresh m3) (data_ v) m3 m4 tmp3 Hwf3 H4).
    intros b3 Hb3. destruct Hwf3 as (_ & _ & _ & Hwd3). rewrite Hb3 in Hwd3.
    split; [apply Hwd3|].
    intros Hold. rewrite <- Hold in Hd. destruct Hd as [Hlt _].
    destruct Hmv as [[Hsame _]|(b' & Hb' & Hge)].
    + rewrite Hb3, Hd1 in Hsame. injection Hsame as ->. lia.
    + rewrite Hb3 in Hb'. injection Hb' as ->. lia.
Qed.

Lemma well_formed_unchanged n m m' v :
  well_formed m v -> (fresh m <= n)%nat -> kept n nullptr m m' ->
  well_formed m' v.
Proof.
  intros Hwf Hn [Hf Hk].
  apply (well_formed_kept (fresh m) nullptr m m' v Hwf).
  - split; [exact Hf|]. intros b Hb Hp. apply Hk; [lia | exact Hp].
  - intros b Hb. destruct Hwf as (_ & _ & _ & Hd). rewrite Hb in Hd.
    split; [apply Hd | discriminate].
Qed.

Lemma push_back_well_formed fuel val v m :
  well_formed m v ->
  (size_ v = capacity_ v -> fits (increase_capacity v)) ->
  wp (push_back fuel val) (v, m)
     (fun _ s' => well_formed (snd s') (fst s'))
     (fun _ s' => well_formed (snd s') (fst s')).
Proof.
  intros Hwf Hgrowth.
  eapply wp_mono;
    [ apply wp_and;
      [ apply (push_back_returns_well_formed fuel val v m Hwf Hgrowth)
      | apply (push_back_safe fuel val (fresh m) v m (le_n _)) ]
    | | ].
  - intros [] s' [H _]. exact H.
  - intros e s' [_ [-> Hk]].
    apply (well_formed_unchanged (fresh m) m (snd s') v Hwf (le_n _) Hk).
Qed.

Lemma insert_shift_survives fuel :
  forall i pos v m,
    wp (insert_shift fuel i pos) (v, m)
       (fun _ s' => fst s' = v /\ survives (fun _ _ => True) m (snd s'))
       (fun _ s' => fst s' = v /\ survives (fun _ _ => True) m (snd s')).
Proof.
  induction fuel as [|fuel IH]; intros i pos v m; [exact I|].
  cbn [insert_shift]. destruct (decide (i <> pos)).
  - apply wp_bind, wp_under. cbn [fst snd].
    eapply wp_mono; [apply (std_swap_survives (fun _ _ => True)) | | ].
    + intros [] m1 H1.
      eapply wp_mono; [apply IH | | ]; cbn [fst snd].
      * intros [] s' [-> H2]. split; [reflexivity|].
        eapply survives_trans; eassumption.
      * intros e s' [-> H2]. split; [reflexivity|].
        eapply survives_trans; eassumption.
    + intros e m1 H1. split; [reflexivity | exact H1].
  - apply wp_ret. split; [reflexivity | apply survives_refl].
Qed.

Lemma erase_shift_survives fuel :
  forall first last v m,
    wp (erase_shift fuel first last) (v, m)
       (fun fl s' => fst s' = v /\ survives (fun _ _ => True) m (snd s') /\
                     snd fl = end_ v)
       (fun _ s' => fst s' = v /\ survives (fun _ _ => True) m (snd s')).
Proof.
  induction fuel as [|fuel IH]; intros first last v m; [exact I|].
  cbn [erase_shift]. apply wp_bind, wp_this. cbn [fst snd].
  destruct (decide (last <> end_ v)) as [Hne|Heq].
  - apply wp_bind, wp_under. cbn [fst snd].
    eapply wp_mono; [apply (std_swap_survives (fun _ _ => True)) | | ].
    + intros [] m1 H1.
      eapply wp_mono; [apply IH | | ]; cbn [fst snd].
      * intros fl s' (-> & H2 & Hend). split; [reflexivity|].
        split; [eapply survives_trans; eassumption | exact Hend].
      * intros e s' [-> H2]. split; [reflexivity|].
        eapply survives_trans; eassumption.
    + intros e m1 H1. split; [reflexivity | exact H1].
  - apply wp_ret. split; [reflexivity | split; [apply survives_refl|]].
    cbn [snd]. destruct (decide (last = end_ v)) as [->|Hne]; [reflexivity|].
    contradiction.
Qed.

Lemma erase_destroy_survives fuel :
  forall first last v m,
    wp (erase_destroy fuel first last) (v, m)
       (fun _ s' =>
          fst s' = v /\
          it_block first = it_block last /\
          it_index first <= it_index last /\
          (it_index first < it_index last -> 0 <= it_index first) /\
          survives (fun b i => Block b <> it_block first \/
                               Z.of_nat i < it_index first) m (snd s'))
       (fun _ _ => False).
Proof.
  induction fuel as [|fuel IH]; intros first last v m; [exact I|].
  cbn [erase_destroy]. destruct (decide (first <> last)) as [Hne|Heq].
  - apply wp_bind, wp_under. cbn [fst snd].
    eapply wp_mono; [apply destroy_at_survives | | contradiction].
    intros [] m1 [Hi H1].
    eapply wp_mono; [apply IH | | contradiction]; cbn [fst snd].
    intros [] s' (-> & Hblock & Hle & _ & H2).
    unfold it_add in *. cbn [it_block it_index] in *.
    split; [reflexivity | split; [exact Hblock | split; [lia | split; [lia|]]]].
    eapply survives_trans; eapply survives_weaken; try eassumption.
    + intros b i [Hk|Hk]; [left; exact Hk | right; lia].
    + intros b i [Hk|Hk]; [left; exact Hk | right; lia].
  - apply wp_ret. cbn [fst snd].
    destruct (decide (first = last)) as [->|Hne]; [|contradiction].
    split; [reflexivity | split; [reflexivity | split; [lia | split; [lia|]]]].
    apply survives_refl.
Qed.

Lemma well_formed_shrink m v n :
  well_formed m v -> 0 <= n <= size_ v ->
  well_formed m (Vec (data_ v) n (capacity_ v)).
Proof.
  intros (Hs & Hcap & Hfit & Hd) Hn. unfold well_formed. cbn [data_ size_ capacity_].
  split; [lia | split; [exact Hcap | split; [exact Hfit|]]].
  destruct (data_ v) as [|b]; [exact Hd|].
  destruct Hd as (Hb & cells & Hcells & Hlen & Hlive).
  split; [exact Hb|]. exists cells. split; [exact Hcells | split; [exact Hlen|]].
  intros i Hi. apply Hlive. lia.
Qed.

Lemma well_formed_extended m m' v b n :
  well_formed m v ->
  data_ v = Block b ->
  survives (fun _ _ => True) m m' ->
  0 <= n ->
  (forall j, 0 <= j < n ->
     exists x, slot m' (it_add (end_ v) j) = Some (Some x)) ->
  size_ v + n <= capacity_ v /\
  well_formed m' (Vec (Block b) (size_ v + n) (capacity_ v)).
Proof.
  intros Hwf Hb Hsurv Hn Hfill. pose proof Hwf as (Hs & Hcap & Hfit & Hd).
  rewrite Hb in Hd. destruct Hd as (Hbf & cells & Hcells & Hlen & Hlive).
  pose proof Hsurv as [Hf H].
  destruct (H b cells Hcells) as (cells' & Hcells' & Hlen' & _).
  assert (Hall : forall j, 0 <= j < size_ v + n ->
            exists x, slot m' (Iter (Block b) j) = Some (Some x)).
  { intros j Hj. destruct (Z_lt_le_dec j (size_ v)) as [Hlt|Hge].
    - destruct (well_formed_slot m v j Hwf ltac:(lia)) as [y Hy].
      rewrite Hb in Hy.
      apply (slot_survives (fun _ _ => True) m m' _ y b Hsurv Hy eq_refl I).
    - destruct (Hfill (j - size_ v) ltac:(lia)) as [x Hx]. exists x.
      unfold it_add, end_ in Hx. cbn [it_block it_index] in Hx.
      rewrite Hb in Hx. replace (size_ v + (j - size_ v)) with j in Hx by lia.
      exact Hx. }
  destruct (range_live m' b cells' 0 (size_ v + n) Hcells' ltac:(lia) Hall)
    as [Hle _].
  assert (Hbound : size_ v + n <= capacity_ v).
  { destruct (Z_lt_le_dec 0 (size_ v + n)) as [Hpos|Hzero]; [|lia].
    specialize (Hle Hpos). lia. }
  split; [exact Hbound|].
  apply (well_formed_filled m' b (size_ v + n) (capacity_ v) cells');
    [lia | exact Hcells' | lia | exact Hcap | exact Hfit | lia | exact Hall].
Qed.

Lemma erase_well_formed fuel first last v m :
  well_formed m v ->
  wp (erase fuel first last) (v, m)
     (fun _ s' => well_formed (snd s') (fst s'))
     (fun _ s' => well_formed (snd s') (fst s')).
Proof.
  intros Hwf. pose proof Hwf as (Hs & Hcap & _). unfold erase. apply wp_bind.
  eapply wp_mono; [apply erase_shift_survives | | ]; cbn [fst snd].
  - intros fl [v1 m1] (Hv1 & H1 & Hend). cbn [fst snd] in *. subst v1.
    apply wp_bind, wp_this. cbn [fst snd].
    apply wp_bind, wp_ptr_diff. intros Hblock. cbn [it_block it_index] in *.
    apply wp_bind. unfold wp at 1. cbn [set_size_ fst snd data_ size_ capacity_].
    apply wp_bind.
    eapply wp_mono; [apply erase_destroy_survives | | contradiction];
      cbn [fst snd].
    intros [] [v2 m2] (Hv2 & _ & Hle & Hpos & H2). cbn [fst snd] in *. subst v2.
    apply wp_ret. cbn [fst snd].
    rewrite Hend in Hle, Hpos. unfold end_ in Hle, Hpos.
    cbn [it_index] in Hle, Hpos.
    assert (Hf : 0 <= it_index (fst fl) <= size_ v)
      by (destruct (Z_lt_le_dec (it_index (fst fl)) (size_ v)); lia).
    rewrite Z.sub_0_r, wrap_small by lia.
    apply (well_formed_survives _ m1 m2 _
             (well_formed_shrink m1 v _
                (well_formed_survives _ m m1 v Hwf H1 (fun _ _ _ _ => I)) Hf) H2).
    cbn [data_ size_]. intros b i _ Hi. right. exact Hi.
  - intros e [v1 m1] [Hv1 H1]. cbn [fst snd] in *. subst v1.
    apply (well_formed_survives _ m m1 v Hwf H1). auto.
Qed.

Lemma insert_growth_returns_well_formed fuel pos val v m :
  well_formed m v ->
  size_ v = capacity_ v ->
  fits (3 * (capacity_ v + 4)) ->
  wp (insert fuel pos val) (v, m)
     (fun _ s' => well_formed (snd s') (fst s')) (fun _ _ => True).
Proof.
  intros Hwf Hfull Hroom. pose proof Hwf as (Hs & Hcap & Hfit & Hd).
  pose proof (increase_capacity_le v ltac:(lia)) as Hle1.
  assert (Hfinc : fits (increase_capacity v)).
  { pose proof (increase_capacity_bound v ltac:(lia)).
    apply (fits_le _ (3 * (capacity_ v + 4))); [lia | exact Hroom]. }
  unfold insert.
  apply wp_bind, wp_this. cbn [fst snd].
  rewrite decide_True by exact Hfull.
  apply wp_with_local, wp_ret. cbn [fst snd].
  apply wp_bind, wp_under, wp_this. cbn [fst snd].
  apply wp_bind, wp_on_local. cbn [fst snd].
  pose proof (increase_capacity_bound v ltac:(lia)) as Hinc.
  eapply wp_mono;
    [ apply wp_and;
      [ apply (new_buffer_well_formed (increase_capacity v) vector_ctor m);
        [ simpl; lia | exact Hfinc | intros b [=] ]
      | apply (new_buffer_rebuilds (fresh m) (increase_capacity v) vector_ctor m);
        lia ]
    | | intros; apply wp_trivial ].
  intros [] [tmp1 m1] [(Hwf1 & Hs1 & Hc1) [Hk1 Hd1]].
  cbn [fst snd data_ size_ vector_ctor] in *.
  apply wp_bind, wp_on_local, wp_this. cbn [fst snd].
  apply wp_bind, wp_ptr_diff. intros _.
  apply wp_bind, wp_under, wp_under. cbn [fst snd].
  eapply wp_mono; [apply copy_construct_all_fills | | intros; apply wp_trivial].
  intros [] m2 [H2 Hfill]. rewrite Hd1 in Hfill.
  apply wp_bind, wp_on_local. unfold wp at 1.
  cbn [set_size_ fst snd data_ size_ capacity_].
  apply wp_bind, wp_on_local, wp_this. cbn [fst snd].
  set (k := wrap (it_index pos - it_index (begin_ v))) in *.
  assert (Hk : 0 <= k) by (apply Z.mod_pos_bound; unfold size_bits; lia).
  destruct Hwf1 as (_ & Hcap1 & Hfit1 & Hwd1). rewrite Hd1 in Hwd1.
  destruct Hwd1 as (Hbf1 & cells1 & Hcells1 & Hlen1 & _).
  pose proof H2 as [Hf2 H2'].
  destruct (H2' _ _ Hcells1) as (cells2 & Hcells2 & Hlen2 & _).
  assert (Hwf2 : well_formed m2 (Vec (data_ tmp1) k (capacity_ tmp1))).
  { rewrite Hd1.
    apply (well_formed_filled m2 (fresh m) k (capacity_ tmp1) cells2);
      [lia | exact Hcells2 | lia | exact Hcap1 | exact Hfit1 | lia |].
    intros j Hj. destruct (Hfill j Hj) as [x Hx]. exists x.
    unfold it_add in Hx. cbn [it_block it_index] in Hx.
    rewrite Z.add_0_l in Hx. exact Hx. }
  assert (Hfm : (fresh m <= fresh m2)%nat) by (destruct Hk1; lia).
  apply wp_bind, wp_on_local. cbn [fst snd].
  eapply wp_mono;
    [ apply wp_and;
      [ apply (push_back_returns_well_formed fuel val _ m2 Hwf2);
        intros _;
        pose proof (increase_capacity_le (Vec (data_ tmp1) k (capacity_ tmp1))
                      ltac:(cbn [capacity_]; lia)) as Hle2;
        pose proof (increase_capacity_bound (Vec (data_ tmp1) k (capacity_ tmp1))
                      ltac:(cbn [capacity_]; lia));
        cbn [capacity_] in Hle2;
        apply (fits_le _ (3 * (capacity_ v + 4))); [lia | exact Hroom]
      | apply (push_back_safe fuel val (fresh m) _ m2 Hfm) ]
    | | intros; apply wp_trivial ].
  intros [] [tmp3 m3] [Hwf3 [Hk3 Hmv]]. cbn [fst snd data_] in *.
  assert (Hb3 : exists b3, data_ tmp3 = Block b3 /\ (fresh m <= b3)%nat).
  { destruct Hmv as [[Hsame _]|(b' & Hb' & Hge)].
    - exists (fresh m). rewrite Hsame, Hd1. auto.
    - exists b'. split; [exact Hb' | lia]. }
  destruct Hb3 as (b3 & Hd3 & Hge3).
  apply wp_bind, wp_on_local, wp_this. cbn [fst snd].
  apply wp_bind, wp_ptr_diff. intros _.
  apply wp_bind, wp_under, wp_under. cbn [fst snd].
  eapply wp_mono; [apply copy_construct_all_fills | | intros; apply wp_trivial].
  intros [] m4 [H4 Hfill4].
  set (n := wrap (it_index (end_ v) - it_index pos)) in *.
  assert (Hn : 0 <= n) by (apply Z.mod_pos_bound; unfold size_bits; lia).
  destruct (well_formed_extended m3 m4 tmp3 b3 n Hwf3 Hd3 H4 Hn Hfill4)
    as [Hbound Hwf4].
  apply wp_bind, wp_on_local. unfold wp at 1.
  cbn [set_size_ fst snd data_ size_ capacity_].
  apply wp_bind. unfold wp at 1.
  cbn [swap_local swap fst snd data_ size_ capacity_].
  apply wp_ret. cbn [fst snd].
  eapply wp_mono; [apply (vector_dtor_kept (fresh m4)) | | contradiction].
  intros [] m5 H5. cbn [fst snd].
  destruct Hwf3 as (Hs3 & Hcap3 & _).
  rewrite wrap_small by lia. rewrite Hd3.
  apply (well_formed_kept (fresh m4) (data_ v) m4 m5 _ Hwf4 H5).
  cbn [data_]. intros b [= <-].
  destruct Hwf4 as (_ & _ & _ & Hwd4). cbn [data_] in Hwd4.
  split; [apply Hwd4|].
  intros Hold. rewrite <- Hold in Hd. destruct Hd as [Hlt _]. lia.
Qed.

Lemma insert_well_formed fuel pos val v m :
  well_formed m v ->
  (size_ v = capacity_ v -> fits (3 * (capacity_ v + 4))) ->
  wp (insert fuel pos val) (v, m)
     (fun _ s' => well_formed (snd s') (fst s'))
     (fun _ s' => well_formed (snd s') (fst s')).
Proof.
  intros Hwf Hgrowth. destruct (decide (size_ v = capacity_ v)) as [Hfull|Hroom].
  - eapply wp_mono;
      [ apply wp_and;
        [ apply (insert_growth_returns_well_formed fuel pos val v m Hwf Hfull
                   (Hgrowth Hfull))
        | apply (insert_growth_safe fuel pos val (fresh m) v m Hfull (le_n _)) ]
      | | ].
    + intros p s' [H _]. exact H.
    + intros e s' [_ [-> Hk]].
      apply (well_formed_unchanged (fresh m) m (snd s') v Hwf (le_n _) Hk).
  - unfold insert. apply wp_bind, wp_this. cbn [fst snd].
    rewrite decide_False by exact Hroom.
    apply wp_bind. unfold back. apply wp_bind, wp_this. cbn [fst snd].
    apply wp_ret. apply wp_bind.
    eapply wp_mono;
      [apply (push_back_well_formed fuel _ v m Hwf); intros; contradiction | | auto].
    intros [] [v1 m1] Hwf1. cbn [fst snd] in *.
    apply wp_bind, wp_this. cbn [fst snd].
    apply wp_bind.
    eapply wp_mono; [apply insert_shift_survives | | ]; cbn [fst snd].
    + intros [] [v2 m2] [Hv2 H2]. cbn [fst snd] in *. subst v2.
      apply wp_bind, wp_under. cbn [fst snd].
      eapply wp_mono; [apply (assign_survives (fun _ _ => True)) | | ].
      * intros [] m3 H3. apply wp_ret. cbn [fst snd].
        apply (well_formed_survives _ m1 m3 v1 Hwf1
                 (survives_trans _ _ _ _ H2 H3)). auto.
      * intros e m3 H3. cbn [fst snd].
        apply (well_formed_survives _ m1 m3 v1 Hwf1
                 (survives_trans _ _ _ _ H2 H3)). auto.
    + intros e [v2 m2] [Hv2 H2]. cbn [fst snd] in *. subst v2.
      apply (well_formed_survives _ m1 m2 v1 Hwf1 H2). auto.
Qed.

Lemma run_well_formed fuel c v m :
  well_formed m v ->
  requests_fit v c ->
  wp (run fuel c) (v, m)
     (fun _ s' => well_formed (snd s') (fst s'))
     (fun _ s' => well_formed (snd s') (fst s')).
Proof.
  intros Hwf Harg. pose proof Hwf as (Hs & Hcap & Hfit & Hd).
  assert (Hbelow : forall b, data_ v = Block b -> (b < fresh m)%nat).
  { intros b Hb. rewrite Hb in Hd. apply Hd. }
  assert (Hrealloc : forall n, fits n ->
            wp (new_buffer n) (v, m)
               (fun _ s' => well_formed (snd s') (fst s'))
               (fun _ s' => well_formed (snd s') (fst s'))).
  { intros n Hn.
    eapply wp_mono;
      [ apply wp_and;
        [ apply (new_buffer_well_formed n v m); [lia | exact Hn | exact Hbelow]
        | apply (new_buffer_rebuilds (fresh m) n v m (le_n _)) ]
      | | ].
    - intros [] s' [[H _] _]. exact H.
    - intros e s' [_ [-> Hk]].
      apply (well_formed_unchanged (fresh m) m (snd s') v Hwf (le_n _) Hk). }
  destruct c as [n| | |val| |pos val|pos|first last]; cbn [run requests_fit] in *.
  - unfold reserve. apply wp_bind, wp_this. cbn [fst snd].
    destruct (decide (n < capacity_ v)); [apply wp_ret; exact Hwf|].
    apply Hrealloc. apply Harg. lia.
  - unfold shrink_to_fit. apply wp_bind, wp_this. cbn [fst snd].
    destruct (decide (capacity_ v = size_ v)); [apply wp_ret; exact Hwf|].
    apply Hrealloc. apply (fits_le _ (capacity_ v)); [lia | exact Hfit].
  - unfold clear. apply wp_bind, wp_this. cbn [fst snd].
    apply wp_bind, wp_under. cbn [fst snd]. unfold destroy_all.
    eapply wp_mono; [apply destroy_from_survives | | contradiction].
    intros [] m1 H1. unfold wp. cbn [set_size_ fst snd data_ capacity_].
    apply (well_formed_survives _ m m1 _
             (well_formed_shrink m v 0 Hwf ltac:(lia)) H1).
    cbn [size_]. intros b i _ Hi. lia.
  - apply push_back_well_formed; [exact Hwf|].
    intros Hfull. pose proof (increase_capacity_le v ltac:(lia)).
    pose proof (increase_capacity_bound v ltac:(lia)).
    apply (fits_le _ (3 * (capacity_ v + 4))); [lia | exact (Harg Hfull)].
  - unfold pop_back. apply wp_bind, wp_this. cbn [fst snd].
    apply wp_bind, wp_assert. intros Hne.
    apply negb_true_iff, Z.eqb_neq in Hne.
    rewrite wrap_small by lia.
    apply wp_bind, wp_under. cbn [fst snd].
    eapply wp_mono; [apply destroy_at_survives | | contradiction].
    intros [] m1 [_ H1]. unfold wp. cbn [set_size_ fst snd data_ capacity_].
    apply (well_formed_survives _ m m1 _
             (well_formed_shrink m v (size_ v - 1) Hwf ltac:(lia)) H1).
    cbn [size_ data_ it_block it_index]. intros b i _ Hi. right. lia.
  - apply wp_bind.
    eapply wp_mono; [apply (insert_well_formed fuel pos val v m Hwf Harg) | | auto].
    intros p s' H. apply wp_ret. exact H.
  - apply wp_bind. unfold erase_one.
    eapply wp_mono; [apply (erase_well_formed fuel _ _ v m Hwf) | | auto].
    intros p s' H. apply wp_ret. exact H.
  - apply wp_bind.
    eapply wp_mono; [apply (erase_well_formed fuel _ _ v m Hwf) | | auto].
    intros p s' H. apply wp_ret. exact H.
Qed.

(** X27: the class invariant.  Every public member function that changes a
    container ([reserve], [shrink_to_fit], [clear], [push_back], [pop_back],
    [insert], [erase]), called on a well-formed container with arguments of
    any kind (iterators that need not point into the container, references
    to any element, element operations that may throw at any point), leaves
    the container well formed whenever the call ends, by returning or by
    throwing: [size() <= capacity()], the buffer has room for [capacity()]
    elements, and every slot below [size()] holds a live element.  This
    holds as long as the byte size of every buffer the call may ask for is
    a [size_t] ([requests_fit]); then a call can only break the invariant
    by running into undefined behaviour. *)
Theorem calls_keep_the_container_well_formed fuel c m v v' m' :
  well_formed m v ->
  requests_fit v c ->
  run fuel c (v, m) = Ret tt (v', m') \/
    (exists e, run fuel c (v, m) = Throw e (v', m')) ->
  well_formed m' v' /\ size v' <= capacity v'.
Proof.
  intros Hwf Harg Hrun.
  pose proof (run_well_formed fuel c v m Hwf Harg) as H.
  assert (Hwf' : well_formed m' v').
  { destruct Hrun as [Hret|[e Hthrow]].
    - apply (wp_ret_inv _ _ _ _ _ _ H Hret).
    - apply (wp_throw_inv _ _ _ _ _ _ H Hthrow). }
  split; [exact Hwf'|]. unfold size, capacity. destruct Hwf' as (Hs & _). lia.
Qed.

(** ** Iterators across a reallocation; [erase] of everything *)

(** X28: a reallocation invalidates every pointer into the old buffer.
    After [reserve(n)] with [n >= capacity()] and a byte size
    [n * sizeof(T)] that is a [size_t], on a well-formed container
    (also for [n == capacity()], where the capacity does not change), the
    elements are read through the new [data()], and dereferencing any
    pointer into the buffer the container had before is undefined
    behaviour: that buffer has been released. *)
Theorem reallocation_invalidates_iterators m v xs n w1 b :
  holds m v xs ->
  data_ v = Block b ->
  capacity_ v <= n ->
  fits n ->
  copy_each xs (world m) = Some w1 ->
  exists v' m',
    reserve n (v, m) = Ret tt (v', m') /\
    (forall i, load (Iter (Block b) i) m' = Fault UndefinedBehaviour) /\
    (forall j x, xs !! j = Some x ->
       load (Iter (data_ v') (Z.of_nat j)) m' = Ret x m').
Proof.
  intros Hv Hb Hn Hfn Hc.
  assert (Hword : capacity_ v <= n < 2 ^ size_bits).
  { split; [exact Hn|]. apply fits_word; [|exact Hfn].
    destruct Hv as (? & ? & _). lia. }
  destruct (reserve_at_least n m v xs w1 Hv Hword Hfn Hc) as (Hrun & Hv' & _).
  eexists _, _. split; [exact Hrun | split].
  - intros i. unfold load, slot. cbn [it_block heap].
    destruct Hv as (_ & _ & _ & Hd). rewrite Hb in *. destruct Hd as [Hlt _].
    cbn [without]. rewrite lookup_insert_ne by lia.
    rewrite lookup_delete_eq. reflexivity.
  - intros j x Hx. rewrite (load_element _ _ xs _ Hv').
    rewrite decide_True by lia. rewrite Nat2Z.id, Hx. reflexivity.
Qed.

(** X29: [erase(begin(), end())] on a well-formed container does what
    [clear()] does, whatever the element kind: no element is swapped, every
    element is destroyed, first to last, and both calls end in the same
    state, an empty container with its buffer and capacity. *)
Theorem erase_everything_is_clear m v xs fuel :
  holds m v xs ->
  (length xs < fuel)%nat ->
  exists s',
    clear (v, m) = Ret tt s' /\
    erase fuel (begin_ v) (end_ v) (v, m) = Ret (begin_ v) s' /\
    holds (snd s') (fst s') [] /\
    world (snd s') = destroy_each xs (world m).
Proof.
  intros Hv Hfuel. pose proof (holds_size _ _ _ Hv) as Hsz.
  pose proof (holds_le _ _ _ Hv) as Hle.
  pose proof (holds_nullptr _ _ _ Hv) as Hnil.
  destruct Hv as (Hs & Hcap & Hfit & Hd). destruct m as [h f w].
  destruct fuel as [|fuel]; [lia|].
  assert (Herase : erase (S fuel) (begin_ v) (end_ v) (v, Mem h f w) =
            bind (erase_destroy (S fuel) (begin_ v) (end_ v))
                 (fun _ => ret (begin_ v))
                 (Vec (data_ v) 0 (capacity_ v), Mem h f w)).
  { unfold erase, bind at 1. rewrite erase_shift_S. cbn [fst snd].
    rewrite decide_False by (intros Hne; apply Hne; reflexivity).
    unfold ret at 1. unfold bind at 1, this at 1. cbn [fst snd].
    unfold bind at 1, ptr_diff, begin_. cbn [it_block it_index].
    rewrite decide_True by reflexivity. unfold ret at 1.
    unfold bind at 1, set_size_. cbn [fst snd data_ size_ capacity_].
    rewrite Z.sub_0_r. reflexivity. }
  rewrite Herase. clear Herase.
  unfold clear, bind at 1, this at 1. cbn [fst snd].
  unfold under, destroy_all, bind. rewrite Hsz.
  destruct (data_ v) as [|b] eqn:Hdata.
  - rewrite (Hnil eq_refl) in *. simpl in Hs.
    cbn [destroy_from length]. unfold ret, set_size_. cbn [fst snd].
    rewrite Hdata. rewrite erase_destroy_S.
    unfold begin_, end_. cbn [data_ size_]. rewrite Hs.
    rewrite decide_False by (intros Hne; apply Hne; reflexivity).
    eexists. split; [reflexivity | split; [reflexivity | split; [|reflexivity]]].
    unfold holds, size_bits. simpl.
    split; [lia | split; [unfold size_bits in Hcap; lia | split; [exact Hfit | lia]]].
  - destruct Hd as [Hb Hd]. cbn [fst snd].
    rewrite (destroy_from_ok xs [] (replicate (Z.to_nat (capacity_ v) - length xs) None)
               h f w b 0); [| exact Hd | reflexivity ].
    unfold set_size_. cbn [fst snd app]. rewrite Hdata.
    unfold begin_, end_. cbn [data_ size_]. rewrite Hdata, Hs.
    pose proof (erase_destroy_ok b (Vec (Block b) 0 (capacity_ v))
                  xs (S fuel) [] (replicate (Z.to_nat (capacity_ v) - length xs) None)
                  h f w Hd Hfuel) as Hdestroy.
    cbn [length app Nat.add] in Hdestroy. change (Z.of_nat 0) with 0 in Hdestroy.
    rewrite Hdestroy. unfold ret. cbn [fst snd].
    eexists. split; [reflexivity | split; [reflexivity | split; [|reflexivity]]].
    unfold holds. cbn [fst snd size_ capacity_ data_ length heap fresh].
    split; [reflexivity | split; [lia | split; [exact Hfit | split; [exact Hb|]]]].
    rewrite lookup_insert_eq, buffer_nil, <- buffer_split by exact Hle.
    reflexivity.
Qed.

(** ** Containers of one element *)

(** X30: a container that holds exactly one element and has been made tight
    cannot grow any more.  After [shrink_to_fit()] on a well-formed
    container with one element, and likewise for a copy of such a container
    ([vector b = a;] or [b = a;]), the capacity is 1, the growth formula
    gives 1 again, and [push_back] never returns: the stall at capacity 1 is
    reached through ordinary use, without any call of [reserve]. *)
Theorem one_element_container_cannot_grow P m v x y :
  infallible P ->
  P (world m) ->
  holds m v [x] ->
  (exists v1 m1,
     shrink_to_fit (v, m) = Ret tt (v1, m1) /\
     capacity_ v1 = 1 /\
     forall fuel, push_back fuel (Value y) (v1, m1) = OutOfFuel) /\
  (exists c m1,
     vector_copy_ctor v m = Ret c m1 /\
     capacity_ c = 1 /\
     forall fuel, push_back fuel (Value y) (c, m1) = OutOfFuel).
Proof.
  intros HP Hw Hv. pose proof Hv as (Hs & Hcap & Hfit & Hd). simpl in Hs.
  pose proof (holds_fits_size _ _ _ Hv) as Hfs.
  destruct (infallible_copy_each P [x] HP _ Hw) as (w1 & Hc & Hw1).
  split.
  - unfold shrink_to_fit, bind, this. cbn [fst snd].
    destruct (decide (capacity_ v = size_ v)) as [Heq|Hne].
    + exists v, m. unfold ret. split; [reflexivity | split; [lia|]].
      intros fuel. apply (push_back_stuck P y fuel HP m v [x] Hw Hv); [lia|].
      unfold increase_capacity. rewrite Heq, Hs. reflexivity.
    + rewrite (new_buffer_ok m v [x] (size_ v) w1 Hv) by (lia || assumption).
      eexists _, _. split; [reflexivity | split; [cbn [capacity_]; lia|]].
      intros fuel.
      apply (push_back_stuck P y fuel HP _ _ [x]).
      * cbn [world]. apply infallible_destroy_each; assumption.
      * apply holds_new_buffer; [exact Hv | lia | exact Hfs].
      * reflexivity.
      * unfold increase_capacity. cbn [capacity_]. rewrite Hs. reflexivity.
  - rewrite (vector_copy_ctor_ok m v [x] w1 Hv Hc).
    eexists _, _. split; [reflexivity | split; [cbn [capacity_]; lia|]].
    intros fuel. apply (push_back_stuck P y fuel HP _ _ [x]).
    + exact Hw1.
    + rewrite Hs in *.
      apply (holds_in_fresh [x] 1); [simpl; lia | unfold size_bits; lia | exact Hfs | lia].
    + reflexivity.
    + unfold increase_capacity. cbn [capacity_]. rewrite Hs. reflexivity.
Qed.

End VectorProperties.

(** * The container of the tests: [vector<counted<size_t>>] *)

Section CountedVector.

Import Counted Examples.
Local Open Scope vec_scope.

(** With the countdown at zero nothing throws, and the countdown stays at
    zero. *)
Lemma never_throws (V : Type) `{SizeOf V} :
  infallible (K := kind V) quiet.
Proof.
  intros x w Hw. unfold quiet in *. simpl. unfold copy_ctor, copy, dtor.
  rewrite Hw. simpl. repeat split; eauto.
Qed.

Lemma full_one_reached :
  (reserve 1;; push_back 1 (Value 1)) (vector_ctor, start 0) = Ret tt full_one.
Proof. reflexivity. Qed.

Lemma full_two_reached :
  (reserve 2;; push_back 1 (Value 1);; push_back 1 (Value 2))
    (vector_ctor, start 0) = Ret tt (full_two 0).
Proof. reflexivity. Qed.

Lemma four_reached :
  (push_back 2 (Value 4);; push_back 1 (Value 5);; push_back 1 (Value 6);;
   push_back 1 (Value 7)) (vector_ctor, start 0) = Ret tt four.
Proof. reflexivity. Qed.

Lemma holds_full_one : holds (snd full_one) (fst full_one) [1].
Proof.
  unfold holds, size_bits. simpl.
  split; [reflexivity | split; [lia | split; [vm_compute; reflexivity|]]];
  split; [lia | reflexivity].
Qed.

Lemma holds_full_two c : holds (snd (full_two c)) (fst (full_two c)) [1; 2].
Proof.
  unfold holds, size_bits. simpl.
  split; [reflexivity | split; [lia | split; [vm_compute; reflexivity|]]];
  split; [lia | reflexivity].
Qed.

Lemma holds_four : holds (snd four) (fst four) [4; 5; 6; 7].
Proof.
  unfold holds, size_bits. simpl.
  split; [reflexivity | split; [lia | split; [vm_compute; reflexivity|]]];
  split; [lia | reflexivity].
Qed.

(** A growth-triggered [push_back] whose second element copy throws. *)
Lemma strong_exception_safety_witness :
  let v := fst (full_two 2) in
  let m := snd (full_two 2) in
  let m' := Mem {[0%nat := [Some 1; Some 2]]} 2%nat (Statics 2 0) in
  run 2 (call_push_back (Value 3)) (v, m) =
    Throw (runtime_error "copy failed") (v, m') /\
  v = v /\
  (forall b, (b < fresh m)%nat -> heap m' !! b = heap m !! b) /\
  (forall xs, holds m v xs -> holds m' v xs).
Proof.
  intros v m m'.
  assert (Hrun : run 2 (call_push_back (Value 3)) (v, m) =
                 Throw (runtime_error "copy failed") (v, m'))
    by (reflexivity).
  split; [exact Hrun|].
  apply (strong_exception_safety 2 (call_push_back (Value 3)) m v
           (runtime_error "copy failed") v m'); [reflexivity | exact Hrun].
Defined.

(** C2: [reserve(2)] on a container whose capacity is 2 is not a no-op: the
    elements move to a new buffer and the data pointer changes. *)
Theorem reserve_of_current_capacity_reallocates :
  reserve 2 (full_two 0) =
    Ret tt (Vec (Block 1) 2 2,
            Mem {[1%nat := [Some 1; Some 2]]} 2%nat (Statics 2 0)) /\
  data (Vec (Block 1) 2 2) <> data (fst (full_two 0)).
Proof.
  split; [reflexivity | discriminate].
Qed.

Lemma null_data_has_zero_capacity_witness : capacity vector_ctor = 0.
Proof.
  apply (null_data_has_zero_capacity (K := kind Z) (Statics 0 0)
           [vector_ctor] (start 0) vector_ctor).
  - apply rtc_once. apply (step_declare []).
  - apply list_elem_of_here.
  - reflexivity.
Defined.

(** C3 as stated fails: the copy of an empty container, and an empty
    container with capacity 4 after [shrink_to_fit], have capacity 0 and a
    data pointer that is not null. *)
Lemma data_null_iff_capacity_zero_fails :
  reachable (K := kind Z) (Statics 0 0)
    ([vector_ctor; Vec (Block 0) 0 0], Mem {[0%nat := []]} 1%nat (Statics 0 0)) /\
  reachable (K := kind Z) (Statics 0 0)
    ([Vec (Block 1) 0 0], Mem {[1%nat := []]} 2%nat (Statics 0 0)) /\
  ~ (data (Vec (Block 0) 0 0) = nullptr <-> capacity (Vec (Block 0) 0 0) = 0) /\
  ~ (data (Vec (Block 1) 0 0) = nullptr <-> capacity (Vec (Block 1) 0 0) = 0).
Proof.
  split; [| split; [| split]].
  - eapply rtc_l; [apply (step_declare [])|].
    apply rtc_once.
    apply (step_copy [vector_ctor] _ 0%nat vector_ctor); [reflexivity|].
    reflexivity.
  - eapply rtc_l; [apply (step_declare [])|].
    eapply rtc_l.
    + apply (step_call [vector_ctor] _ 0%nat vector_ctor 1 (call_reserve 4)
               (fst spare_empty) (snd spare_empty)); [reflexivity|].
      reflexivity.
    + apply rtc_once.
      apply (step_call [fst spare_empty] _ 0%nat (fst spare_empty) 1
               call_shrink_to_fit (Vec (Block 1) 0 0)); [reflexivity|].
      reflexivity.
  - intros [_ H]. discriminate (H eq_refl).
  - intros [_ H]. discriminate (H eq_refl).
Qed.

(** C4: after [a.reserve(1); a.push_back(1)] the capacity is 1, the growth
    formula returns 1 again, and [a.push_back(2)] never returns. *)
Theorem push_back_at_capacity_one_never_returns :
  (reserve 1;; push_back 1 (Value 1)) (vector_ctor, start 0) = Ret tt full_one /\
  increase_capacity (fst full_one) = capacity (fst full_one) /\
  forall fuel, push_back fuel (Value 2) full_one = OutOfFuel.
Proof.
  split; [exact full_one_reached | split; [reflexivity|]].
  intros fuel.
  apply (push_back_stuck (K := kind Z) quiet 2 fuel
           (never_throws Z) (snd full_one) (fst full_one) [1]);
    [reflexivity | exact holds_full_one | reflexivity | reflexivity].
Qed.

(** C5 on [a.reserve(2); a.push_back(1); a.push_back(2); a.push_back(3)]:
    every return of the third [push_back] has capacity 3, and the call
    returns. *)
Lemma push_back_growth_law_witness :
  (forall fuel val v' m',
     push_back fuel val (full_two 0) = Ret tt (v', m') -> capacity v' = 3) /\
  exists v' m',
    push_back 2 (Value 3) (full_two 0) = Ret tt (v', m') /\
    capacity v' = 3 /\
    holds m' v' [1; 2; 3].
Proof.
  destruct (push_back_growth_law (K := kind Z) (snd (full_two 0))
              (fst (full_two 0)) eq_refl) as [Hlaw Hruns].
  split; [exact Hlaw|].
  apply (Hruns [1; 2] 3 (Statics 5 0) 2%nat (holds_full_two 0));
    [reflexivity | vm_compute; reflexivity | reflexivity | lia].
Defined.

(** C7: after [a.reserve(4)] the container is empty with spare capacity, and
    [a.insert(a.begin(), 9)] reads the element before the buffer. *)
Theorem insert_into_empty_with_capacity_is_undefined :
  reserve 4 (vector_ctor, start 0) = Ret tt spare_empty /\
  begin_ (fst spare_empty) = end_ (fst spare_empty) /\
  forall fuel,
    insert (S fuel) (begin_ (fst spare_empty)) (Value 9) spare_empty =
    Fault UndefinedBehaviour.
Proof.
  split; [reflexivity | split; [reflexivity|]].
  intros fuel.
  apply (insert_empty_spare fuel _ _ (snd spare_empty) (fst spare_empty));
    [| reflexivity].
  unfold holds, size_bits. simpl.
  split; [reflexivity | split; [lia | split; [vm_compute; reflexivity|]]];
  split; [lia | reflexivity].
Qed.

(** C8: after [a.reserve(1); a.push_back(1)], [a.insert(a.begin(), 9)] takes
    the growth path with a new buffer of one slot, and copies the old
    element to the slot after it. *)
Theorem insert_at_capacity_one_overruns :
  (reserve 1;; push_back 1 (Value 1)) (vector_ctor, start 0) = Ret tt full_one /\
  forall fuel,
    insert (S fuel) (begin_ (fst full_one)) (Value 9) full_one =
    Fault UndefinedBehaviour.
Proof.
  split; [exact full_one_reached|]. intros fuel. reflexivity.
Qed.

(** The test [erase]: the third of four elements is erased. *)
Lemma erase_removes_range_witness :
  exists m',
    erase 5 (it_add (begin_ (fst four)) 2) (it_add (begin_ (fst four)) 3) four =
      Ret (it_add (begin_ (fst four)) 2) (Vec (Block 0) 3 4, m') /\
    holds m' (Vec (Block 0) 3 4) [4; 5; 7] /\
    quiet (world m') /\
    it_add (begin_ (fst four)) 2 = it_add (begin_ (Vec (Block 0) 3 4)) 2 /\
    (3%nat = 4%nat -> it_add (begin_ (fst four)) 2 = end_ (Vec (Block 0) 3 4)).
Proof.
  exact (erase_removes_range (K := kind Z) quiet (snd four) (fst four)
           [4; 5; 6; 7] 2 3 5 (never_throws Z) eq_refl holds_four
           (conj (le_S _ _ (le_n 2)) (le_S _ _ (le_n 3))) (le_n 5)).
Defined.

(** C9 as stated fails when a copy made by [std::swap] throws.  On the
    container of the test [erase], holding [4, 5, 6, 7], with the countdown
    set to 3, [erase(begin() + 1, begin() + 2)] throws in the last
    assignment of its first swap, whatever the fuel: the call does not
    return, and the container is left with [4, 6, 6, 7] at size 4, so the
    element to erase is gone but so is the order of the rest, and nothing
    has been removed from the size. *)
Lemma erase_fails_when_a_swap_throws :
  holds (snd (four_counting 3)) (fst (four_counting 3)) [4; 5; 6; 7] /\
  (forall fuel,
     erase (S fuel) (it_add (begin_ (fst (four_counting 3))) 1)
           (it_add (begin_ (fst (four_counting 3))) 2) (four_counting 3) =
     Throw (runtime_error "copy failed")
           (Vec (Block 0) 4 4,
            Mem {[0%nat := [Some 4; Some 6; Some 6; Some 7]]} 1%nat
                (Statics 4 0))) /\
  holds (Mem {[0%nat := [Some 4; Some 6; Some 6; Some 7]]} 1%nat (Statics 4 0))
        (Vec (Block 0) 4 4) [4; 6; 6; 7] /\
  ~ exists fuel p v' m',
      erase fuel (it_add (begin_ (fst (four_counting 3))) 1)
            (it_add (begin_ (fst (four_counting 3))) 2) (four_counting 3) =
      Ret p (v', m').
Proof.
  assert (Hthrows : forall fuel,
     erase (K := kind Z) (S fuel) (it_add (begin_ (fst (four_counting 3))) 1)
           (it_add (begin_ (fst (four_counting 3))) 2) (four_counting 3) =
     Throw (runtime_error "copy failed")
           (Vec (Block 0) 4 4,
            Mem {[0%nat := [Some 4; Some 6; Some 6; Some 7]]} 1%nat
                (Statics 4 0))) by (intros fuel; reflexivity).
  split; [| split; [exact Hthrows | split]].
  - unfold holds, size_bits. simpl.
    split; [reflexivity | split; [lia | split; [vm_compute; reflexivity|]]];
    split; [lia | reflexivity].
  - unfold holds, size_bits. simpl.
    split; [reflexivity | split; [lia | split; [vm_compute; reflexivity|]]];
    split; [lia | reflexivity].
  - intros (fuel & p & v' & m' & Hrun). destruct fuel as [|fuel].
    + discriminate Hrun.
    + rewrite Hthrows in Hrun. discriminate Hrun.
Qed.

Lemma copy_ctor_is_tight_witness :
  let v' := Vec (Block 1) 1 1 in
  let m' := Mem {[0%nat := [Some 1; None; None; None]; 1%nat := [Some 1]]}
                2%nat (Statics 2 0) in
  let other := Vec (Block 0) 1 4 in
  let m := Mem {[0%nat := [Some 1; None; None; None]]} 1%nat (Statics 1 0) in
  vector_copy_ctor other m = Ret v' m' /\
  capacity v' = size other /\
  holds m' v' [1] /\
  holds m' other [1].
Proof.
  refine (copy_ctor_is_tight
            (Mem {[0%nat := [Some 1; None; None; None]]} 1%nat (Statics 1 0))
            (Vec (Block 0) 1 4) [1] (Statics 2 0) _ eq_refl).
  unfold holds, size_bits. simpl.
  split; [reflexivity | split; [lia | split; [vm_compute; reflexivity|]]];
  split; [lia | reflexivity].
Defined.

(** ** The counters of [counted<T>] *)

Lemma copy_each_counted (V : Type) `{SizeOf V} (xs : list V) :
  forall i c,
    0 <= i -> i + Z.of_nat (length xs) < 2 ^ size_bits ->
    0 <= c < 2 ^ size_bits ->
    copy_each (K := kind V) xs (Statics i c) =
    if decide (c = 0) then Some (Statics (i + Z.of_nat (length xs)) 0)
    else if decide (Z.of_nat (length xs) < c)
         then Some (Statics (i + Z.of_nat (length xs)) (c - Z.of_nat (length xs)))
         else None.
Proof.
  induction xs as [|x xs IH]; intros i c Hi Hlen Hc.
  - cbn [copy_each length]. change (Z.of_nat 0) with 0.
    rewrite Z.add_0_r, Z.sub_0_r.
    destruct (decide (c = 0)) as [->|Hc0]; [reflexivity|].
    rewrite decide_True by lia. reflexivity.
  - cbn [length] in Hlen. rewrite Nat2Z.inj_succ in Hlen.
    cbn [copy_each length copy_constructor kind]. rewrite Nat2Z.inj_succ.
    unfold copy_ctor, copy. cbn [throw_countdown instances].
    destruct (Z.eqb_spec c 0) as [->|Hc0].
    + rewrite decide_True by reflexivity. cbn [throw_countdown instances].
      rewrite (wrap_small (i + 1)) by lia.
      rewrite IH by lia. rewrite decide_True by reflexivity. f_equal. f_equal. lia.
    + rewrite decide_False by exact Hc0.
      rewrite (wrap_small (c - 1)) by lia.
      destruct (Z.eqb_spec (c - 1) 0) as [Hc1|Hc1].
      * rewrite decide_False by lia. reflexivity.
      * cbn [throw_countdown instances]. rewrite (wrap_small (i + 1)) by lia.
        rewrite IH by lia. rewrite decide_False by exact Hc1.
        destruct (decide (Z.of_nat (length xs) < c - 1)) as [Hlt|Hge].
        -- rewrite decide_True by lia. f_equal. f_equal; lia.
        -- rewrite decide_False by lia. reflexivity.
Qed.

Lemma destroy_each_counted (V : Type) `{SizeOf V} (xs : list V) :
  forall i c,
    Z.of_nat (length xs) <= i < 2 ^ size_bits ->
    destroy_each (K := kind V) xs (Statics i c) =
    Statics (i - Z.of_nat (length xs)) c.
Proof.
  unfold destroy_each.
  induction xs as [|x xs IH]; intros i c Hi.
  - simpl. rewrite Z.sub_0_r. reflexivity.
  - cbn [length] in Hi. rewrite Nat2Z.inj_succ in Hi.
    cbn [fold_left length destructor kind]. rewrite Nat2Z.inj_succ.
    unfold dtor. cbn [instances throw_countdown].
    rewrite wrap_small by lia. rewrite IH by lia. f_equal. lia.
Qed.

Lemma fold_right_dtor_counted (V : Type) `{SizeOf V} (xs : list V) :
  forall i c,
    Z.of_nat (length xs) <= i < 2 ^ size_bits ->
    fold_right (destructor (ElementKind := kind V)) (Statics i c) xs =
    Statics (i - Z.of_nat (length xs)) c.
Proof.
  induction xs as [|x xs IH]; intros i c Hi.
  - simpl. rewrite Z.sub_0_r. reflexivity.
  - cbn [length] in Hi. rewrite Nat2Z.inj_succ in Hi.
    cbn [fold_right length]. rewrite Nat2Z.inj_succ.
    rewrite IH by lia. cbn [destructor kind]. unfold dtor.
    cbn [instances throw_countdown]. rewrite wrap_small by lia. f_equal. lia.
Qed.

(** X23: [counted<T>::set_throw_countdown(c)] with [c > 0] makes exactly the
    [c]-th copy from then on throw [std::runtime_error("copy failed")]: of a
    run of copies of [xs] the first [c - 1] succeed and count as live
    instances, the copy of element [c - 1] throws without adding an
    instance, the run as a whole fails, and the countdown is then 0, so that
    no later copy throws. *)
Theorem countdown_fails_the_cth_copy (V : Type) `{SizeOf V} (xs : list V) (x : V) i (c : nat) :
  0 <= i ->
  i + Z.of_nat (length xs) < 2 ^ size_bits ->
  (0 < c)%nat ->
  xs !! (c - 1)%nat = Some x ->
  let w := Statics (i + Z.of_nat (c - 1)) in
  copy_each (K := kind V) (take (c - 1) xs) (Statics i (Z.of_nat c)) = Some (w 1) /\
  copy_constructor (ElementKind := kind V) x (w 1) =
    (w 0, Some (runtime_error "copy failed")) /\
  copy_each (K := kind V) xs (Statics i (Z.of_nat c)) = None /\
  quiet (w 0).
Proof.
  intros Hi Hlen Hc Hx w. apply lookup_lt_Some in Hx as Hlt.
  assert (Hlk : length (take (c - 1) xs) = (c - 1)%nat)
    by (apply length_take_le; lia).
  split; [| split; [| split; [| reflexivity]]].
  - rewrite copy_each_counted by (rewrite ?Hlk; lia).
    rewrite Hlk, decide_False, decide_True by lia.
    unfold w. f_equal. f_equal. lia.
  - reflexivity.
  - rewrite copy_each_counted by lia.
    rewrite decide_False, decide_False by lia. reflexivity.
Qed.

(** X24: the test [reallocation_throw] in general.  On a full, well-formed
    [vector<counted<T>>] that can grow (to a capacity whose byte size is a
    [size_t]), with the countdown set to [c], where
    [0 < c <= size() + 1], [push_back(x)] throws
    [std::runtime_error("copy failed")], the container is untouched, the heap
    is the one before the call, and the number of live instances is the one
    before the call: every copy made on the way has been destroyed. *)
Theorem failed_push_back_leaves_no_instance
    (V : Type) `{SizeOf V} (m : memory V) v (xs : list V) x (c : nat) fuel :
  holds m v xs ->
  size_ v = capacity_ v ->
  capacity_ v < increase_capacity v ->
  fits (increase_capacity v) ->
  heap m !! fresh m = None ->
  0 <= instances (world m) ->
  instances (world m) + Z.of_nat (length xs) + 1 < 2 ^ size_bits ->
  throw_countdown (world m) = Z.of_nat c ->
  (0 < c <= length xs + 1)%nat ->
  push_back (S (S fuel)) (Value x) (v, m) =
  Throw (runtime_error "copy failed")
        (v, Mem (heap m) (S (fresh m)) (Statics (instances (world m)) 0)).
Proof.
  intros Hv Heq Hgrow Hfinc Hfresh Hi Hlen Hcd Hc.
  destruct m as [h f [i cd]]. cbn [heap fresh world instances throw_countdown] in *.
  subst cd.
  destruct (lookup_lt_is_Some_2 (xs ++ [x]) (c - 1)) as [y Hy];
    [rewrite length_app; simpl; lia|].
  assert (Hlk : length (take (c - 1) (xs ++ [x])) = (c - 1)%nat)
    by (apply length_take_le; rewrite length_app; simpl; lia).
  rewrite (push_back_grow_throw (K := kind V)
             (@Mem V (kind V) h f (Statics i (Z.of_nat c))) v xs x (c - 1) y
             (Statics (i + Z.of_nat (c - 1)) 1) (Statics (i + Z.of_nat (c - 1)) 0)
             (runtime_error "copy failed") fuel Hv Heq Hgrow Hfinc Hfresh Hy).
  - cbn [heap fresh]. do 3 f_equal.
    destruct (decide (c - 1 < length xs)%nat) as [Hk|Hk].
    + rewrite fold_right_dtor_counted by (rewrite length_take; lia).
      rewrite length_take. f_equal. lia.
    + rewrite destroy_each_counted by lia. f_equal. lia.
  - cbn [world]. rewrite copy_each_counted by (rewrite ?Hlk; lia).
    rewrite Hlk, decide_False, decide_True by lia. f_equal. f_equal. lia.
  - reflexivity.
Qed.

(** ** Further states of the examples *)

Lemma three_of_four_reached :
  (reserve 4;; push_back 1 (Value 4);; push_back 1 (Value 5);;
   push_back 1 (Value 6)) (vector_ctor, start 0) = Ret tt (three_of_four 0).
Proof. reflexivity. Qed.

Lemma holds_three_of_four c :
  holds (snd (three_of_four c)) (fst (three_of_four c)) [4; 5; 6].
Proof.
  unfold holds, size_bits. simpl.
  split; [reflexivity | split; [lia | split; [vm_compute; reflexivity|]]];
  split; [lia | reflexivity].
Qed.

Lemma holds_a_of_two c : holds (two_vectors c) a_of_two [1; 2].
Proof.
  unfold holds, size_bits. simpl.
  split; [reflexivity | split; [lia | split; [vm_compute; reflexivity|]]];
  split; [lia | reflexivity].
Qed.

Lemma holds_b_of_two c : holds (two_vectors c) b_of_two [7; 8; 9].
Proof.
  unfold holds, size_bits. simpl.
  split; [reflexivity | split; [lia | split; [vm_compute; reflexivity|]]];
  split; [lia | reflexivity].
Qed.

(** The third element of the container of the test [erase]. *)
Lemma subscript_reads_element_witness :
  deref (subscript 2) four = Ret 6 four.
Proof.
  exact (subscript_reads_element (snd four) (fst four) [4; 5; 6; 7] 2 holds_four).
Defined.

Lemma front_and_back_read_the_ends_witness :
  deref front four = Ret 4 four /\ deref back four = Ret 7 four.
Proof.
  exact (front_and_back_read_the_ends (snd four) (fst four) [4; 5; 6; 7] holds_four).
Defined.

Lemma clear_destroys_elements_witness :
  exists m',
    clear four = Ret tt (Vec (Block 0) 0 4, m') /\
    holds m' (Vec (Block 0) 0 4) [] /\
    world m' = Statics 0 0 /\
    fresh m' = 1%nat /\
    (forall b, Block b <> Block 0 -> heap m' !! b = heap (snd four) !! b).
Proof.
  exact (clear_destroys_elements (snd four) (fst four) [4; 5; 6; 7] holds_four).
Defined.

Lemma pop_back_removes_last_witness :
  exists m',
    pop_back four = Ret tt (Vec (Block 0) 3 4, m') /\
    holds m' (Vec (Block 0) 3 4) [4; 5; 6] /\
    world m' = Statics 3 0 /\
    fresh m' = 1%nat.
Proof.
  exact (pop_back_removes_last (snd four) (fst four) [4; 5; 6; 7] holds_four).
Defined.

Lemma reserve_keeps_elements_witness :
  exists v' m',
    reserve 5 (full_two 0) = Ret tt (v', m') /\
    holds m' v' [1; 2] /\
    capacity_ v' = Z.max 2 5 /\
    quiet (world m').
Proof.
  apply (reserve_keeps_elements (K := kind Z) quiet (snd (full_two 0))
           (fst (full_two 0)) [1; 2] 5 (never_throws Z) eq_refl (holds_full_two 0));
    [lia | vm_compute; reflexivity].
Defined.

Lemma shrink_to_fit_tightens_witness :
  exists v' m',
    shrink_to_fit (three_of_four 0) = Ret tt (v', m') /\
    holds m' v' [4; 5; 6] /\
    capacity_ v' = 3 /\
    size_ v' = 3 /\
    (4 = 3 -> v' = fst (three_of_four 0) /\ m' = snd (three_of_four 0)) /\
    quiet (world m').
Proof.
  exact (shrink_to_fit_tightens (K := kind Z) quiet (snd (three_of_four 0))
           (fst (three_of_four 0)) [4; 5; 6] (never_throws Z) eq_refl
           (holds_three_of_four 0)).
Defined.

(** The second copy throws: the first one is destroyed again. *)
Lemma reserve_failure_restores_memory_witness :
  let v := fst (three_of_four 2) in
  let m' := Mem {[0%nat := [Some 4; Some 5; Some 6; None]]} 2%nat (Statics 3 0) in
  reserve 8 (three_of_four 2) = Throw (runtime_error "copy failed") (v, m') /\
  (4 <> 3 -> shrink_to_fit (three_of_four 2) =
             Throw (runtime_error "copy failed") (v, m')) /\
  holds m' v [4; 5; 6].
Proof.
  apply (reserve_failure_restores_memory (K := kind Z) (snd (three_of_four 2))
           (fst (three_of_four 2)) [4; 5; 6] 8 1 5 (Statics 4 1) (Statics 4 0)
           (runtime_error "copy failed") (holds_three_of_four 2));
    [ simpl; lia | vm_compute; reflexivity
    | reflexivity | reflexivity | reflexivity | reflexivity ].
Defined.

Lemma push_back_within_capacity_witness :
  exists m',
    push_back 1 (Value 7) (three_of_four 0) = Ret tt (Vec (Block 0) 4 4, m') /\
    holds m' (Vec (Block 0) 4 4) [4; 5; 6; 7] /\
    world m' = Statics 4 0 /\
    fresh m' = 1%nat /\
    (forall b, Block b <> Block 0 -> heap m' !! b = heap (snd (three_of_four 0)) !! b).
Proof.
  apply (push_back_within_capacity (K := kind Z) (snd (three_of_four 0))
           (fst (three_of_four 0)) [4; 5; 6] 7 0 (holds_three_of_four 0)).
  reflexivity.
Defined.

(** The copy of the new element throws: the two copies in the new buffer
    are destroyed by the destructor of [tmp]. *)
Lemma push_back_failure_restores_memory_witness :
  let v := fst (full_two 3) in
  let m' := Mem {[0%nat := [Some 1; Some 2]]} 2%nat (Statics 2 0) in
  push_back 2 (Value 3) (full_two 3) = Throw (runtime_error "copy failed") (v, m') /\
  holds m' v [1; 2].
Proof.
  apply (push_back_failure_restores_memory (K := kind Z) (snd (full_two 3))
           (fst (full_two 3)) [1; 2] 3 2 3 (Statics 4 1) (Statics 4 0)
           (runtime_error "copy failed") 0 (holds_full_two 3));
    first [reflexivity | vm_compute; reflexivity].
Defined.

Lemma push_back_of_own_element_witness :
  exists v' m',
    bind (subscript 0) (fun p => push_back 2 (Elem p)) (full_two 0) =
      Ret tt (v', m') /\
    holds m' v' [1; 2; 1] /\
    quiet (world m').
Proof.
  apply (push_back_of_own_element (K := kind Z) quiet (snd (full_two 0))
           (fst (full_two 0)) [1; 2] 0 1 0 (never_throws Z) eq_refl
           (holds_full_two 0) eq_refl).
  right. split; [reflexivity | vm_compute; reflexivity].
Defined.

Lemma push_back_each_from_empty_witness :
  exists v m,
    push_back_each 2 [4; 5; 6; 7; 8] (vector_ctor, start 0) = Ret tt (v, m) /\
    holds m v [4; 5; 6; 7; 8] /\
    quiet (world m).
Proof.
  apply (push_back_each_from_empty (K := kind Z) quiet [4; 5; 6; 7; 8] ∅ 0%nat
           (Statics 0 0) 0 (never_throws Z) eq_refl).
  vm_compute. reflexivity.
Defined.

Lemma push_back_then_pop_back_witness :
  exists v' m',
    bind (push_back 2 (Value 7)) (fun _ => pop_back) (three_of_four 0) =
      Ret tt (v', m') /\
    holds m' v' [4; 5; 6] /\
    size_ v' = 3 /\
    (3 < 4 -> v' = fst (three_of_four 0) /\
              heap m' = heap (snd (three_of_four 0)) /\ fresh m' = 1%nat) /\
    quiet (world m').
Proof.
  apply (push_back_then_pop_back (K := kind Z) quiet (snd (three_of_four 0))
           (fst (three_of_four 0)) [4; 5; 6] 7 0 (never_throws Z) eq_refl
           (holds_three_of_four 0)).
  left. reflexivity.
Defined.

(** The test [erase], through the single-position overload. *)
Lemma erase_one_removes_element_witness :
  exists m',
    erase_one 5 (it_add (begin_ (fst four)) 2) four =
      Ret (it_add (begin_ (fst four)) 2) (Vec (Block 0) 3 4, m') /\
    holds m' (Vec (Block 0) 3 4) [4; 5; 7] /\
    quiet (world m').
Proof.
  apply (erase_one_removes_element (K := kind Z) quiet (snd four) (fst four)
           [4; 5; 6; 7] 2 5 (never_throws Z) eq_refl holds_four);
    simpl; lia.
Defined.

Lemma erase_at_end_is_undefined_witness :
  erase_one 1 (end_ (fst four)) four = Fault UndefinedBehaviour.
Proof.
  exact (erase_at_end_is_undefined (snd four) (fst four) [4; 5; 6; 7] 0 holds_four).
Defined.

Lemma insert_places_value_witness :
  exists v' m',
    insert 5 (it_add (begin_ (fst (three_of_four 0))) 0) (Value 9) (three_of_four 0) =
      Ret (it_add (begin_ v') 0) (v', m') /\
    holds m' v' [9; 4; 5; 6] /\
    load (it_add (begin_ v') 0) m' = Ret 9 m' /\
    capacity_ v' = 4 /\
    quiet (world m').
Proof.
  apply (insert_places_value (K := kind Z) quiet (snd (three_of_four 0))
           (fst (three_of_four 0)) [4; 5; 6] 0 9 5 (never_throws Z) eq_refl
           (holds_three_of_four 0));
    [simpl; lia | right; split; [reflexivity | discriminate] | simpl; lia].
Defined.

(** On a full container: [insert] reallocates, and [erase] works on the
    new buffer. *)
Lemma insert_then_erase_witness :
  exists p v' m',
    bind (insert 6 (it_add (begin_ (fst four)) 1) (Value 9))
         (fun q => erase_one 6 q) four = Ret p (v', m') /\
    p = it_add (begin_ v') 1 /\
    holds m' v' [4; 5; 6; 7] /\
    quiet (world m').
Proof.
  apply (insert_then_erase (K := kind Z) quiet (snd four) (fst four)
           [4; 5; 6; 7] 1 9 6 (never_throws Z) eq_refl holds_four);
    [ simpl; lia
    | left; split; [reflexivity | split; [reflexivity | vm_compute; reflexivity]]
    | simpl; lia ].
Defined.

(** [a.insert(a.begin(), a[1])] on [4, 5, 6] with spare capacity inserts 4,
    the element that index 1 holds once the elements have been shifted, and
    not 5, the element it held when the call was made. *)
Lemma insert_of_own_element_reads_after_shift_witness :
  let v := fst (three_of_four 0) in
  exists m',
    insert 5 (it_add (begin_ v) 0) (Elem (it_add (begin_ v) 1)) (three_of_four 0) =
      Ret (it_add (begin_ v) 0) (Vec (Block 0) 4 4, m') /\
    holds m' (Vec (Block 0) 4 4) [4; 4; 5; 6] /\
    quiet (world m').
Proof.
  apply (insert_of_own_element_reads_after_shift (K := kind Z) quiet
           (snd (three_of_four 0)) (fst (three_of_four 0)) [4; 5; 6] 0 1 6 4 5
           (never_throws Z) eq_refl (holds_three_of_four 0));
    [reflexivity | simpl; lia | simpl; lia | reflexivity | reflexivity | simpl; lia].
Defined.

(** [a = b] for the two containers of the examples. *)
Lemma operator_assign_copies_witness :
  let v' := Vec (Block 2) 3 3 in
  let m' := Mem {[1%nat := [Some 7; Some 8; Some 9; None];
                  2%nat := [Some 7; Some 8; Some 9]]} 3%nat (Statics 6 0) in
  operator_assign b_of_two (a_of_two, two_vectors 0) = Ret tt (v', m') /\
  holds m' v' [7; 8; 9] /\
  (data_ b_of_two <> data_ a_of_two -> holds m' b_of_two [7; 8; 9]).
Proof.
  exact (operator_assign_copies (K := kind Z) (two_vectors 0) a_of_two b_of_two
           [1; 2] [7; 8; 9] (Statics 8 0) (holds_a_of_two 0) (holds_b_of_two 0)
           eq_refl).
Defined.

(** [a = b] when the second copy throws. *)
Lemma operator_assign_failure_restores_memory_witness :
  let m' := Mem (heap (two_vectors 2)) 3%nat (Statics 5 0) in
  vector_copy_ctor b_of_two (two_vectors 2) =
    Throw (runtime_error "copy failed") m' /\
  operator_assign b_of_two (a_of_two, two_vectors 2) =
    Throw (runtime_error "copy failed") (a_of_two, m') /\
  holds m' a_of_two [1; 2].
Proof.
  exact (operator_assign_failure_restores_memory (K := kind Z) (two_vectors 2)
           a_of_two b_of_two [1; 2] [7; 8; 9] 1 8 (Statics 6 1) (Statics 6 0)
           (runtime_error "copy failed") (holds_a_of_two 2) (holds_b_of_two 2)
           eq_refl eq_refl eq_refl eq_refl).
Defined.

Lemma destructor_releases_buffer_witness :
  (exists m',
     vector_dtor (fst four) (snd four) = Ret tt m' /\
     world m' = Statics 0 0 /\
     forall b, heap m' !! b = if decide (Block b = Block 0) then None
                              else heap (snd four) !! b) /\
  bind (vector_copy_ctor (fst four)) (fun c => vector_dtor c) (snd four) =
    Ret tt (Mem (heap (snd four)) 2%nat (Statics 4 0)).
Proof.
  exact (destructor_releases_buffer (K := kind Z) (snd four) (fst four)
           [4; 5; 6; 7] (Statics 8 0) holds_four eq_refl eq_refl).
Defined.

(** With the countdown at 2, the second of three copies throws. *)
Lemma countdown_fails_the_cth_copy_witness :
  copy_each (K := kind Z) [1] (Statics 0 2) = Some (Statics 1 1) /\
  copy_constructor (ElementKind := kind Z) 2 (Statics 1 1) =
    (Statics 1 0, Some (runtime_error "copy failed")) /\
  copy_each (K := kind Z) [1; 2; 3] (Statics 0 2) = None /\
  quiet (Statics 1 0).
Proof.
  apply (countdown_fails_the_cth_copy Z [1; 2; 3] 2 0 2);
    [lia | unfold size_bits; simpl; lia | lia | reflexivity].
Defined.

(** The first copy throws. *)
Lemma failed_push_back_leaves_no_instance_witness :
  push_back 2 (Value 3) (full_two 1) =
  Throw (runtime_error "copy failed")
        (fst (full_two 1), Mem {[0%nat := [Some 1; Some 2]]} 2%nat (Statics 2 0)).
Proof.
  apply (failed_push_back_leaves_no_instance Z (snd (full_two 1)) (fst (full_two 1))
           [1; 2] 3 1 0 (holds_full_two 1));
    [ reflexivity | reflexivity | vm_compute; reflexivity | reflexivity
    | simpl; lia | unfold size_bits; simpl; lia | reflexivity | simpl; lia ].
Defined.

(** ** A block that fills a container and leaves *)

Lemma push_back_each_counted (V : Type) `{SizeOf V} fuel i0 (h0 : gmap nat (list (option V))) :
  forall (xs : list V) (m : memory V) v (ys : list V),
    holds m v ys ->
    world m = Statics (i0 + Z.of_nat (length ys)) 0 ->
    capacity_ v = 0 \/ (4 <= capacity_ v /\ 2 * capacity_ v <= 3 * size_ v + 8) ->
    without (data_ v) (heap m) = h0 ->
    (forall b, (fresh m <= b)%nat -> h0 !! b = None) ->
    0 <= i0 ->
    i0 + 2 * Z.of_nat (length ys + length xs) + 1 < 2 ^ size_bits ->
    fits (5 * Z.of_nat (length ys + length xs) + 20) ->
    exists v' m',
      push_back_each (S (S fuel)) xs (v, m) = Ret tt (v', m') /\
      holds m' v' (ys ++ xs) /\
      world m' = Statics (i0 + Z.of_nat (length (ys ++ xs))) 0 /\
      without (data_ v') (heap m') = h0.
Proof.
  induction xs as [|x xs IH]; intros m v ys Hv Hw Hinv Hh0 Htidy Hi0 Hb1 Hb2.
  - exists v, m. rewrite app_nil_r.
    split; [reflexivity | split; [exact Hv | split; [exact Hw | exact Hh0]]].
  - pose proof Hv as (Hs & Hcap & Hfit & Hd).
    cbn [length] in Hb1, Hb2.
    assert (Hword : 5 * Z.of_nat (length ys + S (length xs)) + 20 < 2 ^ size_bits)
      by (apply fits_word; [lia | exact Hb2]).
    destruct m as [h f w]. cbn [world heap fresh] in *. subst w.
    assert (Hstep : exists v1 h1 f1,
      push_back (S (S fuel)) (Value x) (v, @Mem V (kind V) h f (Statics (i0 + Z.of_nat (length ys)) 0)) =
        Ret tt (v1, @Mem V (kind V) h1 f1 (Statics (i0 + Z.of_nat (length ys) + 1) 0)) /\
      holds (@Mem V (kind V) h1 f1 (Statics (i0 + Z.of_nat (length ys) + 1) 0)) v1 (ys ++ [x]) /\
      (capacity_ v1 = 0 \/ (4 <= capacity_ v1 /\ 2 * capacity_ v1 <= 3 * size_ v1 + 8)) /\
      without (data_ v1) h1 = h0 /\
      (forall b, (f1 <= b)%nat -> h0 !! b = None)).
    { destruct (decide (size_ v = capacity_ v)) as [Heq|Hne].
      - assert (Hgrow : capacity_ v < increase_capacity v).
        { unfold increase_capacity.
          destruct (Z.eqb_spec (capacity_ v) 0) as [->|Hc0]; [lia|].
          destruct Hinv as [?|[H4 Hle]]; [lia|].
          rewrite wrap_small by (unfold size_bits in *; lia).
          assert (capacity_ v + 1 <= capacity_ v * 3 / 2)
            by (apply Z.div_le_lower_bound; lia).
          lia. }
        assert (Hfinc : fits (increase_capacity v)).
        { apply (fits_le _ (5 * Z.of_nat (length ys + S (length xs)) + 20));
            [| exact Hb2].
          pose proof (increase_capacity_le v ltac:(lia)).
          pose proof (increase_capacity_bound v ltac:(lia)).
          destruct Hinv as [?|[H4 Hle]]; lia. }
        eexists _, _, _. split; [| split; [| split; [| split]]].
        + rewrite (push_back_grow (K := kind V) _ v ys (Value x) x
                     (Statics (i0 + 2 * Z.of_nat (length ys)) 0)
                     (Statics (i0 + 2 * Z.of_nat (length ys) + 1) 0) fuel Hv Heq Hgrow
                     Hfinc (or_introl eq_refl)).
          * rewrite destroy_each_counted by lia. cbn [heap fresh].
            replace (i0 + 2 * Z.of_nat (length ys) + 1 - Z.of_nat (length ys))
              with (i0 + Z.of_nat (length ys) + 1) by lia.
            reflexivity.
          * cbn [world]. rewrite copy_each_counted by lia.
            rewrite decide_True by reflexivity. do 2 f_equal. lia.
          * cbn [copy_constructor kind]. unfold copy_ctor, copy.
            cbn [throw_countdown instances Z.eqb].
            rewrite wrap_small by lia. reflexivity.
        + apply (holds_grown (K := kind V) (@Mem V (kind V) h f (Statics (i0 + Z.of_nat (length ys)) 0))
                   v ys x _ Hv Hgrow Hfinc).
        + right. cbn [capacity_ size_].
          rewrite (increase_capacity_grows v) by (lia || exact Hgrow).
          destruct (Z.eqb_spec (capacity_ v) 0) as [H0|H0]; [lia|].
          destruct Hinv as [?|[H4 Hle]]; [lia|].
          assert (capacity_ v * 3 / 2 * 2 <= capacity_ v * 3)
            by (rewrite Z.mul_comm; apply Z.mul_div_le; lia).
          assert (capacity_ v + 1 <= capacity_ v * 3 / 2)
            by (apply Z.div_le_lower_bound; lia).
          lia.
        + cbn [data_ without fresh heap]. rewrite Hh0.
          rewrite delete_insert_eq. apply delete_id. apply Htidy. lia.
        + intros b Hb. apply Htidy. cbn [fresh] in Hb. lia.
      - destruct (data_ v) as [|b] eqn:Hb; [lia|]. destruct Hd as [Hbf Hd].
        eexists _, _, _. split; [| split; [| split; [| split]]].
        + apply (push_back_spare (K := kind V) _ v ys x
                   (Statics (i0 + Z.of_nat (length ys) + 1) 0) b (S fuel) Hv);
            [lia | exact Hb |].
          cbn [world copy_constructor kind]. unfold copy_ctor, copy.
          cbn [throw_countdown instances Z.eqb].
          rewrite wrap_small by lia. reflexivity.
        + unfold holds. cbn [size_ capacity_ data_ heap fresh].
          split; [rewrite length_app; simpl; lia | split; [lia | split; [exact Hfit | split; [exact Hbf|]]]].
          apply lookup_insert_eq.
        + cbn [capacity_ size_]. destruct Hinv as [H0|[H4 Hle]]; [lia|]. right. lia.
        + cbn [data_ without heap]. rewrite delete_insert_eq. exact Hh0.
        + exact Htidy. }
    destruct Hstep as (v1 & h1 & f1 & Hrun & Hv1 & Hinv1 & Hh1 & Htidy1).
    destruct (IH (@Mem V (kind V) h1 f1 (Statics (i0 + Z.of_nat (length ys) + 1) 0)) v1 (ys ++ [x]))
      as (v' & m' & Hrest & Hv' & Hw' & Hh');
      try assumption.
    + cbn [world]. rewrite length_app. cbn [length]. f_equal. lia.
    + rewrite length_app. cbn [length]. lia.
    + rewrite length_app. cbn [length].
      replace (5 * Z.of_nat (length ys + 1 + length xs) + 20)
        with (5 * Z.of_nat (length ys + S (length xs)) + 20) by lia.
      exact Hb2.
    + exists v', m'. rewrite <- app_assoc in Hv', Hw'. cbn [app] in Hv', Hw'.
      split; [| split; [exact Hv' | split; [exact Hw' | exact Hh']]].
      cbn [push_back_each]. unfold bind at 1. rewrite Hrun. exact Hrest.
Qed.

(** X25: a block [{ vector<counted<T>> a; for (...) a.push_back(x); }] run
    with the countdown at 0 leaves nothing behind, whatever the [n] values
    it pushes (the byte size of [5 n + 20] elements being a [size_t]): the
    block returns, every buffer it allocated has been released
    (the heap is the one before the block), and [counted<T>::instances()] has
    the value it had before, which is what [expect_no_instances()] checks at
    the end of the tests. *)
Theorem filled_scope_leaves_nothing (V : Type) `{SizeOf V} (xs : list V) (m0 : memory V) fuel :
  tidy m0 ->
  quiet (world m0) ->
  0 <= instances (world m0) ->
  instances (world m0) + 2 * Z.of_nat (length xs) + 1 < 2 ^ size_bits ->
  fits (5 * Z.of_nat (length xs) + 20) ->
  exists f',
    in_scope (push_back_each (S (S fuel)) xs) m0 =
    Ret tt (Mem (heap m0) f' (world m0)).
Proof.
  intros Htidy Hq Hi Hb1 Hb2. destruct m0 as [h f [i c]].
  unfold quiet in Hq. cbn [heap fresh world instances throw_countdown] in *.
  subst c.
  destruct (push_back_each_counted V fuel i h xs
              (@Mem V (kind V) h f (Statics i 0)) vector_ctor [])
    as (v' & m' & Hrun & Hv' & Hw' & Hh');
    [ apply holds_vector_ctor | cbn [world length]; f_equal; lia | left; reflexivity
    | reflexivity | exact Htidy | exact Hi | cbn [length]; lia
    | cbn [length]; exact Hb2 | ].
  exists (fresh m'). unfold in_scope. rewrite Hrun. cbn [fst snd].
  rewrite (vector_dtor_ok m' v' _ Hv'). rewrite Hh', Hw'.
  rewrite destroy_each_counted by (cbn [app]; lia).
  cbn [app].
  replace (i + Z.of_nat (length xs) - Z.of_nat (length xs)) with i by lia.
  reflexivity.
Qed.

Lemma filled_scope_leaves_nothing_witness :
  exists f',
    in_scope (push_back_each 2 [4; 5; 6; 7; 8]) (start 0) =
    Ret tt (Mem ∅ f' (Statics 0 0)).
Proof.
  apply (filled_scope_leaves_nothing Z [4; 5; 6; 7; 8] (start 0) 0);
    [ intros b _; reflexivity | reflexivity | simpl; lia
    | unfold size_bits; simpl; lia | vm_compute; reflexivity ].
Defined.

(** ** The class invariant and reallocation, on the examples *)

(** A [push_back] that grows, and one that throws. *)
Lemma calls_keep_the_container_well_formed_witness :
  (well_formed (Mem {[1%nat := [Some 1; Some 2; Some 3]]} 2%nat (Statics 3 0))
               (Vec (Block 1) 3 3) /\
   size (Vec (Block 1) 3 3) <= capacity (Vec (Block 1) 3 3)) /\
  (well_formed (Mem {[0%nat := [Some 1; Some 2]]} 2%nat (Statics 2 0))
               (fst (full_two 2)) /\
   size (fst (full_two 2)) <= capacity (fst (full_two 2))).
Proof.
  split.
  - apply (calls_keep_the_container_well_formed (K := kind Z) 2
             (call_push_back (Value 3)) (snd (full_two 0)) (fst (full_two 0)));
      [ apply (holds_well_formed _ _ [1; 2]), holds_full_two
      | intros _; vm_compute; reflexivity
      | left; reflexivity ].
  - apply (calls_keep_the_container_well_formed (K := kind Z) 2
             (call_push_back (Value 3)) (snd (full_two 2)) (fst (full_two 2)));
      [ apply (holds_well_formed _ _ [1; 2]), holds_full_two
      | intros _; vm_compute; reflexivity
      | right; exists (runtime_error "copy failed"); reflexivity ].
Defined.

(** [reserve(4)] on the full container of four elements: the capacity
    stays 4, and the old buffer is gone. *)
Lemma reallocation_invalidates_iterators_witness :
  exists v' m',
    reserve 4 four = Ret tt (v', m') /\
    (forall i, load (Iter (Block 0) i) m' = Fault UndefinedBehaviour) /\
    (forall j x, [4; 5; 6; 7] !! j = Some x ->
       load (Iter (data_ v') (Z.of_nat j)) m' = Ret x m').
Proof.
  apply (reallocation_invalidates_iterators (K := kind Z) (snd four) (fst four)
           [4; 5; 6; 7] 4 (Statics 8 0) 0 holds_four eq_refl);
    [simpl; lia | vm_compute; reflexivity | reflexivity].
Defined.

(** ** A request whose byte size wraps, on the examples *)

(** [a.reserve(size_t(1) << 61)] on an empty [vector<counted<size_t>>]:
    the byte size [2 ^ 61 * 8] wraps to 0, the buffer has no slot, the
    capacity is [2 ^ 61], and the first [push_back] is undefined
    behaviour. *)
Lemma reserve_wraps_the_byte_size_witness :
  exists v' m' cells,
    reserve (2 ^ 61) (vector_ctor, start 0) = Ret tt (v', m') /\
    capacity_ v' = 2 ^ 61 /\
    size_ v' = 0 /\
    data_ v' = Block 0 /\
    heap m' !! 0%nat = Some cells /\
    Z.of_nat (length cells) = 0 /\
    0 < 2 ^ 61 /\
    ~ well_formed m' v' /\
    forall fuel x,
      push_back (S fuel) (Value x) (v', m') = Fault UndefinedBehaviour.
Proof.
  destruct (reserve_wraps_the_byte_size (K := kind Z) quiet (start 0) vector_ctor
              [] (2 ^ 61) (never_throws Z) eq_refl (holds_vector_ctor _))
    as (v' & m' & cells & Hrun & Hcap & Hsize & Hdata & Hcells & Hlen & Hlt & Hwf
        & Hpush).
  - vm_compute. split; [discriminate | reflexivity].
  - intros Hfits. vm_compute in Hfits. discriminate Hfits.
  - vm_compute. discriminate.
  - exists v', m', cells.
    split; [exact Hrun | split; [exact Hcap | split; [exact Hsize|]]].
    split; [exact Hdata | split; [exact Hcells | split; [exact Hlen|]]].
    split; [exact Hlt | split; [exact Hwf | exact (Hpush eq_refl)]].
Defined.

Lemma erase_everything_is_clear_witness :
  exists s',
    clear four = Ret tt s' /\
    erase 5 (begin_ (fst four)) (end_ (fst four)) four =
      Ret (begin_ (fst four)) s' /\
    holds (snd s') (fst s') [] /\
    world (snd s') = Statics 0 0.
Proof.
  apply (erase_everything_is_clear (K := kind Z) (snd four) (fst four)
           [4; 5; 6; 7] 5 holds_four).
  simpl. lia.
Defined.


(** ** A container of one element, made tight *)

Lemma one_of_four_reached :
  (reserve 4;; push_back 1 (Value 5)) (vector_ctor, start 0) =
    Ret tt one_of_four.
Proof. reflexivity. Qed.

Lemma holds_one_of_four : holds (snd one_of_four) (fst one_of_four) [5].
Proof.
  unfold holds, size_bits. simpl.
  split; [reflexivity | split; [lia | split; [vm_compute; reflexivity|]]];
  split; [lia | reflexivity].
Qed.

(** After [a.reserve(4); a.push_back(5)], both [a.shrink_to_fit()] and a
    copy of [a] give a container on which [push_back(6)] never returns. *)
Lemma one_element_container_cannot_grow_witness :
  (exists v1 m1,
     shrink_to_fit one_of_four = Ret tt (v1, m1) /\
     capacity_ v1 = 1 /\
     forall fuel, push_back fuel (Value 6) (v1, m1) = OutOfFuel) /\
  (exists c m1,
     vector_copy_ctor (fst one_of_four) (snd one_of_four) = Ret c m1 /\
     capacity_ c = 1 /\
     forall fuel, push_back fuel (Value 6) (c, m1) = OutOfFuel).
Proof.
  apply (one_element_container_cannot_grow (K := kind Z) quiet
           (snd one_of_four) (fst one_of_four) 5 6 (never_throws Z) eq_refl
           holds_one_of_four).
Defined.

End CountedVector.

(** * A kind that records its calls *)

Section TracedCopies.

Import Traced.

(** The third copy throws: the two elements constructed before it are
    destroyed, the second one first. *)
Lemma copy_construct_all_unwinds_witness :
  let m' := @Mem Z (kind (Z.eqb 13)) (heap two_buffers) (fresh two_buffers)
              [Copied 1; Copied 2; CopyThrew 13; Destroyed 2; Destroyed 1] in
  copy_construct_all (K := kind (Z.eqb 13))
    (Iter (Block 1) 0) (Iter (Block 0) 0) 4 two_buffers =
    Throw (K := kind (Z.eqb 13)) 13 m' /\
  forall j, (j < 4)%nat ->
    slot m' (it_add (Iter (Block 1) 0) (Z.of_nat j)) = Some None.
Proof.
  exact (copy_construct_all_unwinds (K := kind (Z.eqb 13)) two_buffers 1 0
           [] [] [] [] [1; 2; 13; 4] 2 13
           [Copied 1; Copied 2] [Copied 1; Copied 2; CopyThrew 13] 13
           ltac:(discriminate) eq_refl eq_refl eq_refl eq_refl eq_refl).
Defined.

End TracedCopies.

(** * The container of [int]: the overloads for trivial kinds *)

Section PlainCopies.

Import Plain.

Lemma trivial_overload_agrees_witness :
  let dst := Iter (Block 1) 0 in
  let src := Iter (Block 0) 0 in
  let m' := @Mem Z kind {[0%nat := [Some 4; Some 8]; 1%nat := [Some 4; Some 8]]}
              2%nat tt in
  copy_construct_all_trivial (K := kind) dst src 2 two_buffers = Ret tt m' /\
  copy_construct_all (K := kind) dst src 2 two_buffers = Ret tt m' /\
  forall p,
    copy_construct_all_trivial (K := kind) p (Iter nullptr 0) 0 two_buffers =
      Ret tt two_buffers /\
    memcpy (K := kind) p (Iter nullptr 0) 0 two_buffers = Fault UndefinedBehaviour.
Proof.
  apply (trivial_overload_agrees (K := kind) two_buffers 1 0 [] [] [] [] [4; 8]);
    [ intros x w; reflexivity | lia | reflexivity | reflexivity ].
Defined.

End PlainCopies.
